(** * elysp: a heap model of the interpreter and its specification

    The interpreter manipulates a graph of mutable JavaScript objects and
    compares them with [===].  The model keeps that graph explicit: an object
    reference is an address into a heap of [Obj] records, [===] on objects is
    equality of addresses, object construction appends a record to the heap
    and field assignment overwrites one.  Every function of the interpreter is
    a computation in the state-and-exception monad [M].

    Loops and recursion of the source are bounded by a fuel argument; running
    out of fuel is the distinguished outcome [OutOfFuel], so it can never be
    mistaken for a result.  Console output ([puts], and the traversal [repr]
    makes to produce it) is not part of the modelled state.

    What the model leaves out.  Numbers are modelled by the integers: the
    reader only produces integers, and [+], [-], [*] and an exact [/] agree
    with the numbers of the host as long as operands and result are safe
    integers (at most 2^53 - 1 in absolute value); beyond that the host
    rounds and the model does not, and a quotient that is not an integer is
    [OutOfModel].  The value [undefined] is not modelled either: the one
    place where the interpreter stores it, [cons] applied to a dotted
    argument list, is [OutOfModel].

    The file has the model first, then the definitions the statements are
    written with, then the properties.  The properties that speak of what a
    call leaves untouched rest on an invariant of the heap, [wf], which every
    function of the model preserves on a normal return ([sound_evaluate]) and
    which every state of a modelled session satisfies ([wf_session]). *)

From Stdlib Require Import ZArith String Ascii DecimalString DecimalPos.
From stdpp Require Import base numbers list strings.

Local Open Scope Z_scope.
Local Open Scope nat_scope.

(** ** Data model *)

(** [enum ObjType]. *)
Module ObjType.
Inductive t := Pair | Symbol | Nil | Env | Num | NativeFn | Fn | String | Macro.

Definition eqb (a b : t) : bool :=
  match a, b with
  | Pair, Pair | Symbol, Symbol | Nil, Nil | Env, Env | Num, Num
  | NativeFn, NativeFn | Fn, Fn | String, String | Macro, Macro => true
  | _, _ => false
  end.

(** The string value of each enum member, as used in error messages. *)
Definition show (a : t) : string :=
  match a with
  | Pair => "pair" | Symbol => "symbol" | Nil => "nil" | Env => "env"
  | Num => "num" | NativeFn => "nativefn" | Fn => "fn" | String => "string"
  | Macro => "macro"
  end.
End ObjType.

(** An object reference is an address into the heap. *)
Abbreviation ref := nat (only parsing).

(** [===] on two object references. *)
Definition same (a b : ref) : bool := Nat.eqb a b.

(** The arithmetic closures built by [createNumericPrim]. *)
Inductive numop := OpAdd | OpSub | OpMul | OpDiv.

(** [ElyspFn]: the native functions an [ObjNativeFn] can hold, one tag per
    function installed by [createDefaultEnv] (and [primPlus] of the superseded
    generation). *)
Inductive ElyspFn :=
| F_primFn | F_primDefine | F_primDefn | F_primDefmacro | F_primQuote
| F_primUnquote | F_primList | F_primCons | F_env | F_primMacex | F_primImport
| F_primIf | F_primError | F_primString | F_primSlurp | F_primPrintln
| F_primReaderDebug | F_primEqual | F_numeric (op : numop).

(** The [type] field of an [ObjFn]: [ObjType.Fn | ObjType.Macro]. *)
Inductive FnType := IsFn | IsMacro.

(** [type Obj]: one record per variant, fields in the order of the source. *)
Inductive Obj :=
| ObjPair (car cdr : ref)
| ObjSymbol (name : string)
| ObjNil
| ObjEnv (vars up : ref)
| ObjNum (value : Z)
| ObjNativeFn (fn : ElyspFn)
| ObjFn (type : FnType) (params body env : ref)
| ObjString (value : string).

Definition type_of (o : Obj) : ObjType.t :=
  match o with
  | ObjPair _ _ => ObjType.Pair
  | ObjSymbol _ => ObjType.Symbol
  | ObjNil => ObjType.Nil
  | ObjEnv _ _ => ObjType.Env
  | ObjNum _ => ObjType.Num
  | ObjNativeFn _ => ObjType.NativeFn
  | ObjFn IsFn _ _ _ => ObjType.Fn
  | ObjFn IsMacro _ _ _ => ObjType.Macro
  | ObjString _ => ObjType.String
  end.

(** The mutable state of the module: the object heap and the module-level
    variable [symbols]. *)
Record state := State { heap : list Obj; symbols : ref }.

(** ** The monad of interpreter computations *)

Inductive result (A : Type) :=
| Ok (a : A) (s : state)          (* normal return *)
| Throw (msg : string) (s : state) (* [throw new Error(msg)] *)
| OutOfModel                      (* dangling reference, ill-typed field, non-integer number *)
| OutOfFuel.                      (* the fuel bound was reached *)
Arguments Ok {A} a s.
Arguments Throw {A} msg s.
Arguments OutOfModel {A}.
Arguments OutOfFuel {A}.

Definition M (A : Type) := state -> result A.

Definition ret {A} (a : A) : M A := fun s => Ok a s.

Definition bind {A B} (m : M A) (f : A -> M B) : M B :=
  fun s =>
    match m s with
    | Ok a s' => f a s'
    | Throw msg s' => Throw msg s'
    | OutOfModel => OutOfModel
    | OutOfFuel => OutOfFuel
    end.

Notation "'let*' x ':=' m 'in' k" := (bind m (fun x => k))
  (at level 10, x pattern, m at level 100, k at level 200).

Definition throw {A} (msg : string) : M A := fun s => Throw msg s.
Definition outOfFuel {A} : M A := fun _ => OutOfFuel.
Definition outOfModel {A} : M A := fun _ => OutOfModel.

(** Object construction: the new object gets the next free address. *)
Definition alloc (o : Obj) : M ref :=
  fun s => Ok (length (heap s)) (State (heap s ++ [o]) (symbols s)).

(** Reading an object through a reference. *)
Definition deref (a : ref) : M Obj :=
  fun s => match heap s !! a with Some o => Ok o s | None => OutOfModel end.

(** [p.cdr = v]. *)
Definition set_cdr (p v : ref) : M unit :=
  fun s =>
    match heap s !! p with
    | Some (ObjPair car _) => Ok tt (State (<[p := ObjPair car v]> (heap s)) (symbols s))
    | _ => OutOfModel
    end.

(** [env.vars = v]. *)
Definition set_vars (env v : ref) : M unit :=
  fun s =>
    match heap s !! env with
    | Some (ObjEnv _ up) => Ok tt (State (<[env := ObjEnv v up]> (heap s)) (symbols s))
    | _ => OutOfModel
    end.

Definition get_symbols : M ref := fun s => Ok (symbols s) s.
Definition set_symbols (v : ref) : M unit := fun s => Ok tt (State (heap s) v).

Definition makeNil : M ref := alloc ObjNil.
Definition makeSymbol (name : string) : M ref := alloc (ObjSymbol name).
Definition makePair (car cdr : ref) : M ref := alloc (ObjPair car cdr).
Definition makeEnv (vars up : ref) : M ref := alloc (ObjEnv vars up).
Definition makeNum (value : Z) : M ref := alloc (ObjNum value).
Definition makeNativeFn (fn : ElyspFn) : M ref := alloc (ObjNativeFn fn).
Definition makeFn (env params body : ref) (type : FnType) : M ref :=
  alloc (ObjFn type params body env).
Definition makeString (value : string) : M ref := alloc (ObjString value).

Definition cons := makePair.

(** ** Module-level constants

    The module initialiser runs [let symbols = makeNil()], [const nil =
    makeNil()] and [const trueSym = intern('t')] in this order, so the three
    objects sit at fixed addresses. *)
Definition nil : ref := 1.
Definition trueSym : ref := 2.

Definition acons (x y a : ref) : M ref :=
  let* p := cons x y in cons p a.

Fixpoint intern_loop (k : nat) (obj : ref) (name : string) : M (option ref) :=
  match k with
  | 0 => outOfFuel
  | S k' =>
      let* o := deref obj in
      match o with
      | ObjPair car cdr =>
          let* c := deref car in
          match c with
          | ObjSymbol n =>
              if String.eqb n name then ret (Some car) else intern_loop k' cdr name
          | _ => intern_loop k' cdr name
          end
      | _ => ret None
      end
  end.

Definition intern (k : nat) (name : string) : M ref :=
  let* obj := get_symbols in
  let* found := intern_loop k obj name in
  match found with
  | Some sym => ret sym
  | None =>
      let* sym := makeSymbol name in
      let* syms := get_symbols in
      let* p := cons sym syms in
      let* _ := set_symbols p in
      ret sym
  end.

(** The state after the module initialiser (before [createDefaultEnv]). *)
Definition module_init (k : nat) : M unit :=
  let* syms := makeNil in
  let* _ := set_symbols syms in
  let* _ := makeNil in
  let* _ := intern k "t" in
  ret tt.

Definition initial_state : state :=
  State [ObjNil; ObjNil; ObjSymbol "t"; ObjPair 2 0] 3.

(** ** Environment chain *)

Definition addVariable (env sym val : ref) : M unit :=
  let* o := deref env in
  match o with
  | ObjEnv vars _ =>
      let* nv := acons sym val vars in
      set_vars env nv
  | _ => outOfModel
  end.

(** Inner [while] of [setVariable]: [true] when a binding was overwritten
    (the source returns from the function at that point). *)
Fixpoint setVariable_vars (k : nat) (obj sym val : ref) : M bool :=
  match k with
  | 0 => outOfFuel
  | S k' =>
      let* o := deref obj in
      match o with
      | ObjPair bind rest =>
          let* b := deref bind in
          match b with
          | ObjPair key _ =>
              if same key sym then
                let* _ := set_cdr bind val in ret true
              else setVariable_vars k' rest sym val
          | _ => setVariable_vars k' rest sym val
          end
      | _ => ret false
      end
  end.

(** Outer [while] of [setVariable]. *)
Fixpoint setVariable_chain (k : nat) (cenv sym val : ref) : M bool :=
  match k with
  | 0 => outOfFuel
  | S k' =>
      let* o := deref cenv in
      match o with
      | ObjEnv vars up =>
          let* done := setVariable_vars k' vars sym val in
          if done then ret true else setVariable_chain k' up sym val
      | _ => ret false
      end
  end.

Definition setVariable (k : nat) (env sym val : ref) : M unit :=
  let* done := setVariable_chain k env sym val in
  if done then ret tt
  else (* not found, add it *) addVariable env sym val.

(** Inner [while] of [find]: [Some v] when the source returns [v]. *)
Fixpoint find_vars (k : nat) (obj sym : ref) : M (option ref) :=
  match k with
  | 0 => outOfFuel
  | S k' =>
      let* o := deref obj in
      match o with
      | ObjPair bind rest =>
          let* b := deref bind in
          match b with
          | ObjPair key v =>
              if same key sym then ret (Some v) else find_vars k' rest sym
          | _ => find_vars k' rest sym
          end
      | _ => ret None
      end
  end.

(** Outer [while] of [find]; [None] is the source's [null]. *)
Fixpoint find_chain (k : nat) (cenv sym : ref) : M (option ref) :=
  match k with
  | 0 => outOfFuel
  | S k' =>
      let* o := deref cenv in
      match o with
      | ObjEnv vars up =>
          let* r := find_vars k' vars sym in
          match r with
          | Some v => ret (Some v)
          | None => find_chain k' up sym
          end
      | _ => ret None
      end
  end.

Definition find (k : nat) (env sym : ref) : M (option ref) :=
  find_chain k env sym.

(** ** Utilities: [listLen], [equal] *)

Fixpoint listLen_loop (k : nat) (obj : ref) (len : nat) : M nat :=
  match k with
  | 0 => outOfFuel
  | S k' =>
      let* o := deref obj in
      match o with
      | ObjPair _ cdr => listLen_loop k' cdr (S len)
      | _ => ret (if same obj nil then len else (* dotted pair *) S len)
      end
  end.

Definition listLen (k : nat) (list : ref) : M nat :=
  let* o := deref list in
  match o with
  | ObjPair _ _ => listLen_loop k list 0
  | _ => ret 0
  end.

Fixpoint equal (k : nat) (a b : ref) : M bool :=
  match k with
  | 0 => outOfFuel
  | S k' =>
      let* oa := deref a in
      let* ob := deref b in
      (* types must match *)
      if negb (ObjType.eqb (type_of oa) (type_of ob)) then ret false
      (* reference equality *)
      else if same a b then ret true
      else
        match oa, ob with
        | ObjNum x, ObjNum y => ret (Z.eqb x y)
        | ObjString x, ObjString y => ret (String.eqb x y)
        | ObjPair acar acdr, ObjPair bcar bcdr =>
            let* la := listLen k' a in
            let* lb := listLen k' b in
            if negb (Nat.eqb la lb) then ret false
            else
              let* e := equal k' acar bcar in
              if negb e then ret false else equal k' acdr bcdr
        | _, _ => ret false
        end
  end.

Definition isList (list : ref) : M bool :=
  let* o := deref list in
  ret (same list nil || ObjType.eqb (type_of o) ObjType.Pair).

(** [pushEnv]: the loop that pairs parameters with values. *)
Fixpoint pushEnv_loop (k : nat) (varObj valueObj newVars : ref) : M ref :=
  match k with
  | 0 => outOfFuel
  | S k' =>
      let* o1 := deref varObj in
      match o1 with
      | ObjPair vcar vcdr =>
          let* o2 := deref valueObj in
          match o2 with
          | ObjPair wcar wcdr =>
              let* nv := acons vcar wcar newVars in
              pushEnv_loop k' vcdr wcdr nv
          | _ => ret newVars
          end
      | _ => ret newVars
      end
  end.

Definition pushEnv (k : nat) (env vars values : ref) : M ref :=
  let* lv := listLen k vars in
  let* lw := listLen k values in
  if negb (Nat.eqb lv lw) then
    throw "env: mismatched number of vars and values"
  else
    let* newVars := pushEnv_loop k vars values nil in
    makeEnv newVars env.

(** ** Reader *)

(** [class Reader]: the source text and the current position. *)
Record Reader := mkReader { source : string; pos : nat }.

Definition peek (rd : Reader) (offset : nat) : option ascii :=
  String.get (pos rd + offset) (source rd).

Definition atEof (rd : Reader) : bool :=
  String.length (source rd) <=? pos rd.

Definition advance (rd : Reader) : option ascii * Reader :=
  if pos rd <? String.length (source rd)
  then (String.get (pos rd) (source rd), mkReader (source rd) (S (pos rd)))
  else (String.get (pos rd) (source rd), rd).

(** How a character (or [undefined]) is spliced into a template string. *)
Definition show_char (c : option ascii) : string :=
  match c with
  | Some c => String c EmptyString
  | None => "undefined"
  end.

Definition peek_is (rd : Reader) (offset : nat) (c : ascii) : bool :=
  match peek rd offset with
  | Some c' => Ascii.eqb c' c
  | None => false
  end.

Definition consume (rd : Reader) (c : ascii) : M Reader :=
  if peek_is rd 0 c then ret (snd (advance rd))
  else throw ("syntax error: expected " +:+ show_char (Some c) +:+ " but not "
              +:+ show_char (peek rd 0)).

Definition ch_newline : ascii := "010"%char.
Definition ch_tab : ascii := "009"%char.
Definition ch_dquote : ascii := "034"%char.

(** [/[0-9]/.test(c)]. *)
Definition is_digit (c : ascii) : bool :=
  (48 <=? nat_of_ascii c) && (nat_of_ascii c <=? 57).

(** [/[a-z-+=/*!?]/.test(c)]. *)
Definition is_symbol_char (c : ascii) : bool :=
  ((97 <=? nat_of_ascii c) && (nat_of_ascii c <=? 122))
  || Ascii.eqb c "-" || Ascii.eqb c "+" || Ascii.eqb c "=" || Ascii.eqb c "/"
  || Ascii.eqb c "*" || Ascii.eqb c "!" || Ascii.eqb c "?".

(** The scanning loops below advance [pos] at every iteration and stop at the
    end of the input, so they are bounded by the number of characters left;
    [n] is that bound. *)
Definition remaining (rd : Reader) : nat := String.length (source rd) - pos rd.

Fixpoint skipWhitespace_loop (n : nat) (rd : Reader) : Reader :=
  match n with
  | 0 => rd
  | S n' =>
      if peek_is rd 0 " " || peek_is rd 0 ch_newline || peek_is rd 0 ch_tab
      then skipWhitespace_loop n' (snd (advance rd))
      else rd
  end.

Definition skipWhitespace (rd : Reader) : Reader :=
  skipWhitespace_loop (remaining rd) rd.

Fixpoint skipLine_loop (n : nat) (rd : Reader) : Reader :=
  match n with
  | 0 => rd
  | S n' =>
      if negb (atEof rd) && negb (peek_is rd 0 ch_newline)
      then skipLine_loop n' (snd (advance rd))
      else rd
  end.

Fixpoint skipComments_loop (n : nat) (rd : Reader) : Reader :=
  match n with
  | 0 => rd
  | S n' =>
      if negb (atEof rd) && peek_is rd 0 "#" && negb (peek_is rd 1 "-")
      then skipComments_loop n' (skipWhitespace (skipLine_loop (remaining rd) rd))
      else rd
  end.

Definition skipComments (rd : Reader) : Reader :=
  skipComments_loop (remaining rd) rd.

Fixpoint scan_while (p : ascii -> bool) (n : nat) (rd : Reader) : Reader :=
  match n with
  | 0 => rd
  | S n' =>
      match peek rd 0 with
      | Some c =>
          if negb (atEof rd) && p c then scan_while p n' (snd (advance rd)) else rd
      | None => rd
      end
  end.

(** [parseInt(digits, 10)] on a run of decimal digits: the exact integer.
    The host returns the same up to 2^53 and the nearest number it can hold
    beyond. *)
Fixpoint parseInt_acc (s : string) (acc : Z) : Z :=
  match s with
  | EmptyString => acc
  | String c s' => parseInt_acc s' (10 * acc + Z.of_nat (nat_of_ascii c - 48))%Z
  end.
Definition parseInt (s : string) : Z := parseInt_acc s 0%Z.

(** [source.slice(start, end)] and [source.substring(start, end)] for
    [start <= end]. *)
Definition slice (s : string) (start stop : nat) : string :=
  String.substring start (stop - start) s.

Definition readNumber (rd : Reader) : M (ref * Reader) :=
  let start := pos rd in
  let rd' := scan_while is_digit (remaining rd) rd in
  let* n := makeNum (parseInt (slice (source rd) start (pos rd'))) in
  ret (n, rd').

Definition readSymbol (k : nat) (rd : Reader) : M (ref * Reader) :=
  let start := pos rd in
  let rd' := scan_while is_symbol_char (remaining rd) rd in
  if start =? pos rd' then throw "could not read symbol"
  else
    let* sym := intern k (slice (source rd) start (pos rd')) in
    ret (sym, rd').

Definition readString (rd : Reader) : M (ref * Reader) :=
  let start := pos rd in
  let rd1 := scan_while (fun c => negb (Ascii.eqb c ch_dquote)) (remaining rd) rd in
  let* rd2 := consume rd1 ch_dquote in
  let* str := makeString (slice (source rd) start (pos rd2 - 1)) in
  ret (str, rd2).

Section ReaderKnot.
(** Fuel for the loops of this level, and [readNext] one level down. *)
Variable k : nat.
Variable readNext : Reader -> M (option ref * Reader).

(* 'obj => (quote obj) *)
Definition readQuote (rd : Reader) : M (ref * Reader) :=
  let* (obj, rd1) := readNext rd in
  match obj with
  | None => throw "expected stuff after quote"
  | Some obj =>
      let* q := intern k "quote" in
      let* l := cons obj nil in
      let* r := cons q l in
      ret (r, rd1)
  end.

(* ,obj => (unquote obj) *)
Definition readUnquote (rd : Reader) : M (ref * Reader) :=
  let* (obj, rd1) := readNext rd in
  match obj with
  | None => throw "expected stuff after unquote"
  | Some obj =>
      let* q := intern k "unquote" in
      let* l := cons obj nil in
      let* r := cons q l in
      ret (r, rd1)
  end.

(** The [while (true)] loop of [readList]; it returns when the function
    does. *)
Fixpoint readList_loop (j : nat) (delim : ascii) (tail : ref) (rd : Reader)
  : M Reader :=
  match j with
  | 0 => outOfFuel
  | S j' =>
      let rd1 := skipWhitespace rd in
      if peek_is rd1 0 delim then ret rd1
      else
        let* (dotted, rd2) :=
          (if peek_is rd1 0 "."
           then let* r := consume rd1 "." in ret (true, skipWhitespace r)
           else ret (false, rd1)) in
        let* (item, rd3) := readNext rd2 in
        match item with
        | None => throw "unexpected end of list"
        | Some item =>
            if dotted : bool then
              let* _ := set_cdr tail item in ret rd3
            else
              let* c := cons item nil in
              let* _ := set_cdr tail c in
              readList_loop j' delim c rd3
        end
  end.

Definition readList (delim : ascii) (rd : Reader) : M (ref * Reader) :=
  if peek_is rd 0 delim then ret (nil, rd)
  else
    let* (obj, rd1) := readNext rd in
    match obj with
    | None => throw "unexpected end of list"
    | Some obj =>
        let* head := cons obj nil in
        let* rd2 := readList_loop k delim head rd1 in
        ret (head, rd2)
    end.

Definition some_obj (r : ref * Reader) : option ref * Reader :=
  (Some (fst r), snd r).

Definition readNext_step (rd0 : Reader) : M (option ref * Reader) :=
  let rd := skipComments (skipWhitespace rd0) in
  if atEof rd then ret (None, rd)
  else
    match peek rd 0 with
    | None => outOfModel
    | Some c =>
        if is_digit c then
          let* r := readNumber rd in ret (some_obj r)
        else if Ascii.eqb c "(" then
          let* (list, rd1) := readList ")" (snd (advance rd)) in
          let* rd2 := consume rd1 ")" in
          ret (Some list, rd2)
        else if Ascii.eqb c "[" then
          let* (list, rd1) := readList "]" (snd (advance rd)) in
          let* l := intern k "list" in
          let* result := cons l list in
          let* rd2 := consume rd1 "]" in
          ret (Some result, rd2)
        else if Ascii.eqb c "'" then
          let* r := readQuote (snd (advance rd)) in ret (some_obj r)
        else if Ascii.eqb c "," then
          let* r := readUnquote (snd (advance rd)) in ret (some_obj r)
        else if Ascii.eqb c ch_dquote then
          let* r := readString (snd (advance rd)) in ret (some_obj r)
        else if Ascii.eqb c "#" then
          (* must be block comment, normal comments have already been skipped *)
          let* rd1 := consume rd "#" in
          let* rd2 := consume rd1 "-" in
          let* (_, rd3) := readNext rd2 in (* intentionally thrown away *)
          readNext rd3
        else
          (* assume symbol *)
          let* r := readSymbol k rd in ret (some_obj r)
    end.
End ReaderKnot.

Fixpoint readNext (k : nat) (rd : Reader) : M (option ref * Reader) :=
  match k with
  | 0 => outOfFuel
  | S k' => readNext_step k' (readNext k') rd
  end.

(** [read] only adds a diagnostic print around [readNext]. *)
Definition read (k : nat) (rd : Reader) : M (option ref * Reader) := readNext k rd.

(** ** Evaluator *)

(** [checkArity(args, min, max)]; [-1] means no bound. *)
Definition checkArity (k : nat) (args : ref) (min max : Z) : M unit :=
  let* len := listLen k args in
  if (negb (Z.eqb min (-1)) && Z.ltb (Z.of_nat len) min)
     || (negb (Z.eqb max (-1)) && Z.ltb max (Z.of_nat len))
  then throw "arity mismatch"
  else ret tt.

(** [if (type && obj.type !== type) throw ...]. *)
Definition expect_type (type : option ObjType.t) (obj : ref) : M unit :=
  match type with
  | Some ty =>
      let* o := deref obj in
      if negb (ObjType.eqb (type_of o) ty)
      then throw ("expected type " +:+ ObjType.show ty +:+ " but got "
                  +:+ ObjType.show (type_of o))
      else ret tt
  | None => ret tt
  end.

Fixpoint getArg_loop (j : nat) (obj : ref) (argIndex index : nat) : M ref :=
  match j with
  | 0 => outOfFuel
  | S j' =>
      let* o := deref obj in
      match o with
      | ObjPair car cdr =>
          if argIndex =? index then ret car
          else getArg_loop j' cdr (S argIndex) index
      | _ => ret nil
      end
  end.

Definition getArg (k : nat) (args : ref) (index : nat) (type : option ObjType.t)
  : M ref :=
  if same args nil then ret nil
  else
    let* o := deref args in
    match o with
    | ObjPair _ _ =>
        let* argAtIndex := getArg_loop k args 0 index in
        let* _ := expect_type type argAtIndex in
        ret argAtIndex
    | _ => throw "expected list as arguments"
    end.

(** [forEach(list, callback)]: the locals the callback closes over and
    assigns are threaded as the accumulator [acc]. *)
Fixpoint forEach {A} (j : nat) (list : ref) (callback : ref -> nat -> A -> M A)
  (index : nat) (acc : A) : M A :=
  match j with
  | 0 => outOfFuel
  | S j' =>
      let* o := deref list in
      match o with
      | ObjPair car _ =>
          let* acc' := callback car index acc in
          let* o' := deref list in
          match o' with
          | ObjPair _ cdr => forEach j' cdr callback (S index) acc'
          | _ => outOfModel
          end
      | _ => ret acc
      end
  end.

(** The list-building loop shared, text for text, by [evaluateList] (with
    [f := evaluate env]) and [evaluateUnquotes] (with [f := evaluateUnquotes
    env]); it returns [head]. *)
Fixpoint collect_loop (f : ref -> M ref) (j : nat) (obj : ref)
  (head tail : option ref) : M (option ref) :=
  match j with
  | 0 => outOfFuel
  | S j' =>
      let* o := deref obj in
      match o with
      | ObjPair car _ =>
          let* result := f car in
          let* ht :=
            match head, tail with
            | None, _ =>
                let* c := cons result nil in ret (Some c, Some c)
            | Some _, Some t =>
                let* c := cons result nil in
                let* _ := set_cdr t c in
                ret (head, Some c)
            | Some _, None => ret (head, tail)
            end in
          let* o' := deref obj in
          match o' with
          | ObjPair _ cdr => collect_loop f j' cdr (fst ht) (snd ht)
          | _ => outOfModel
          end
      | _ => ret head
      end
  end.

(** [obj.value.toString()] for an integer: all its decimal digits.  The host
    prints the same below 10^21 and switches to the exponent notation from
    there. *)
Definition toString (z : Z) : string := NilZero.string_of_int (Z.to_int z).

(** [fn.name] of each native function. *)
Definition fn_name (f : ElyspFn) : string :=
  match f with
  | F_primFn => "primFn" | F_primDefine => "primDefine" | F_primDefn => "primDefn"
  | F_primDefmacro => "primDefmacro" | F_primQuote => "primQuote"
  | F_primUnquote => "primUnquote" | F_primList => "primList"
  | F_primCons => "primCons" | F_env => "env" | F_primMacex => "primMacex"
  | F_primImport => "primImport" | F_primIf => "primIf"
  | F_primError => "primError" | F_primString => "primString"
  | F_primSlurp => "primSlurp" | F_primPrintln => "primPrintln"
  | F_primReaderDebug => "primReaderDebug" | F_primEqual => "primEqual"
  | F_numeric _ => ""
  end.

(** The loop of [fmt] over the elements of a list, at most six of them;
    [fmt'] is [fmt] itself, for the elements. *)
Fixpoint fmt_loop (fmt' : ref -> M string) (left : nat) (obj : ref)
  (output : string) : M string :=
  let* o := deref obj in
  match o with
  | ObjPair car cdr =>
      match left with
      | 0 => ret (output +:+ "...")
      | S left' =>
          let* s := fmt' car in
          let output := output +:+ s in
          let* oc := deref cdr in
          match oc with
          | ObjNil => ret output
          | ObjPair _ _ => fmt_loop fmt' left' cdr (output +:+ " ")
          | _ =>
              let* s2 := fmt' cdr in
              ret (output +:+ " . " +:+ s2)
          end
      end
  | _ => ret output
  end.

Definition fmt_list (fmt' : ref -> M string) (obj : ref) : M string :=
  let* output := fmt_loop fmt' 6 (* show 6 max *) obj "(" in
  ret (output +:+ ")").

Fixpoint fmt (d : nat) (inputObj : ref) : M string :=
  match d with
  | 0 => outOfFuel
  | S d' =>
      let* o := deref inputObj in
      match o with
      (* treat an env like a pair, ignore the up ptr *)
      | ObjEnv vars _ => fmt_list (fmt d') vars
      | ObjPair _ _ => fmt_list (fmt d') inputObj
      | ObjSymbol name => ret name
      | ObjNil => ret "nil"
      | ObjNum value => ret (toString value)
      | ObjNativeFn f => ret ("<native function " +:+ fn_name f +:+ ">")
      | ObjFn IsFn _ _ _ => ret "<function>"
      | ObjFn IsMacro _ _ _ => ret "<macro>"
      | ObjString value => ret value
      end
  end.

(** [print]: the text goes to the console, which is not modelled. *)
Definition print (k : nat) (inputObj : ref) : M unit :=
  let* _ := fmt k inputObj in ret tt.

(** [fn(a.value, b.value)] for the four arithmetic closures, on integers.  It
    agrees with the host when the operands and the result are safe integers:
    beyond 2^53 the host rounds.  A quotient that is not an integer, and a
    division by zero (a fraction, [Infinity] or [NaN] in the host), are
    outside the number model. *)
Definition numeric (op : numop) (a b : Z) : M Z :=
  match op with
  | OpAdd => ret (a + b)%Z
  | OpSub => ret (a - b)%Z
  | OpMul => ret (a * b)%Z
  | OpDiv =>
      if negb (Z.eqb b 0) && Z.eqb (a mod b) 0 then ret (a / b)%Z else outOfModel
  end.

Section Knot.
(** The host file system, as seen by [Deno.readTextFileSync]. *)
Variable readTextFileSync : string -> option string.
(** Fuel for the loops of this level, and [evaluate] one level down. *)
Variable k : nat.
Variable evaluate : ref -> ref -> M ref.

Definition readFile (path : string) : M string :=
  match readTextFileSync path with
  | Some text => ret text
  | None => throw "NotFound"
  end.

Definition evalBody (newEnv body : ref) : M ref :=
  forEach k body (fun obj _ _ => evaluate newEnv obj) 0 nil.

Definition macroExpand (env obj : ref) : M ref :=
  let* o := deref obj in
  match o with
  | ObjPair car args =>
      let* c := deref car in
      match c with
      | ObjSymbol _ =>
          let* bind := find k env car in
          match bind with
          | None => ret obj
          | Some bind =>
              let* b := deref bind in
              match b with
              | ObjFn IsMacro params body _ =>
                  let* newEnv := pushEnv k env params args in
                  evalBody newEnv body
              | _ => ret obj
              end
          end
      | _ => ret obj
      end
  | _ => ret obj
  end.

Definition evaluateList (env list : ref) : M ref :=
  let* head := collect_loop (evaluate env) k list None None in
  match head with
  | None => ret nil
  | Some head => ret head
  end.

Definition evalArg (env args : ref) (index : nat) (type : option ObjType.t)
  : M ref :=
  let* arg := getArg k args index None in
  let* earg := evaluate env arg in
  let* _ := expect_type type earg in
  ret earg.

Fixpoint evaluateUnquotes (d : nat) (env args : ref) : M ref :=
  match d with
  | 0 => outOfFuel
  | S d' =>
      let* o := deref args in
      match o with
      | ObjPair car _ =>
          let* u := intern k "unquote" in
          if same car u then evaluate env args
          else
            let* head := collect_loop (evaluateUnquotes d' env) k args None None in
            match head with
            | None => ret args
            | Some head => ret head
            end
      | _ => ret args
      end
  end.

(** *** Primitives *)

Definition primPrintln (env args : ref) : M ref :=
  let* o := deref args in
  let* _ :=
    match o with
    | ObjPair _ _ =>
        let* evaledArgs := evaluateList env args in
        let* oe := deref evaledArgs in
        match oe with
        | ObjPair _ _ =>
            forEach k evaledArgs (fun arg _ _ => print k arg) 0 tt
        | _ => ret tt
        end
    | _ =>
        let* v := evaluate env args in print k v
    end in
  ret nil.

Definition primQuote (env args : ref) : M ref :=
  let* o := deref args in
  match o with
  | ObjPair car _ => evaluateUnquotes k env car
  | _ => throw "malformed quote"
  end.

Definition primUnquote (env args : ref) : M ref :=
  let* _ := checkArity k args 1 1 in
  let* o := deref args in
  match o with
  | ObjPair car _ => evaluate env car
  | _ => outOfModel
  end.

Definition primList (env args : ref) : M ref :=
  let* _ := checkArity k args 1 (-1) in
  evaluateList env args.

Definition primDefine (env args : ref) : M ref :=
  let* _ := checkArity k args 2 2 in
  let* o := deref args in
  match o with
  | ObjPair sym rest =>
      let* osym := deref sym in
      match osym with
      | ObjSymbol _ =>
          let* orest := deref rest in
          match orest with
          | ObjPair form _ =>
              let* val := evaluate env form in
              let* _ := addVariable env sym val in
              ret val
          | _ => throw "malformed define"
          end
      | _ => throw "malformed define"
      end
  | _ => throw "malformed define"
  end.

Definition check_params (params : ref) : M unit :=
  forEach k params
    (fun arg _ _ =>
       let* oa := deref arg in
       match oa with
       | ObjSymbol _ => ret tt
       | _ => throw "parameter must be a symbol"
       end) 0 tt.

Definition primFn (env args : ref) : M ref :=
  let* _ := checkArity k args 2 (-1) in
  let* o := deref args in
  match o with
  | ObjPair params body =>
      let* l := isList args in
      let* ob := deref body in
      match l, ob with
      | true, ObjPair _ _ =>
          let* _ := check_params params in
          makeFn env params body IsFn
      | _, _ => throw "malformed lambda"
      end
  | _ => throw "malformed lambda"
  end.

Definition primDefn (env args : ref) : M ref :=
  let* _ := checkArity k args 3 (-1) in
  let* o := deref args in
  match o with
  | ObjPair sym rest =>
      let* osym := deref sym in
      let* orest := deref rest in
      match osym, orest with
      | ObjSymbol _, ObjPair _ _ =>
          let* fn := primFn env rest in
          let* _ := addVariable env sym fn in
          ret fn
      | _, _ => throw "malformed defn"
      end
  | _ => throw "malformed defn"
  end.

Definition primEqual (env args : ref) : M ref :=
  let* _ := checkArity k args 2 2 in
  let* a := evalArg env args 0 None in
  let* b := evalArg env args 1 None in
  let* e := equal k a b in
  ret (if e then trueSym else nil).

Definition primSlurp (env args : ref) : M ref :=
  let* _ := checkArity k args 1 1 in
  let* sym := evalArg env args 0 (Some ObjType.String) in
  let* o := deref sym in
  match o with
  | ObjString value =>
      let* text := readFile value in makeString text
  | _ => outOfModel
  end.

(** [list.cdr = list.cdr.car].  On a dotted argument list, which passes the
    arity check, [evaluateList] returns a list of one cell; its [cdr] is
    [nil], [nil.car] is [undefined], and the source returns a Pair whose
    [cdr] is [undefined].  The heap has no such value: that case is
    [OutOfModel]. *)
Definition primCons (env args : ref) : M ref :=
  let* _ := checkArity k args 2 2 in
  let* list := evaluateList env args in
  let* o := deref list in
  match o with
  | ObjPair _ cdr =>
      let* oc := deref cdr in
      match oc with
      | ObjPair second _ =>
          let* _ := set_cdr list second in ret list
      | _ => outOfModel
      end
  | _ => ret nil
  end.

Definition primReaderDebug (env : ref) : M ref :=
  let* sym := intern k "reader-debug" in
  let* debug := find k env sym in
  let* _ :=
    match debug with
    | Some d =>
        if same d trueSym then setVariable k env sym nil
        else setVariable k env sym trueSym
    | None => setVariable k env sym trueSym
    end in
  ret nil.

Definition primDefmacro (env args : ref) : M ref :=
  let* o := deref args in
  match o with
  | ObjPair sym rest =>
      let* osym := deref sym in
      match osym with
      | ObjSymbol _ =>
          let* orest := deref rest in
          match orest with
          | ObjPair params body =>
              let* _ := check_params params in
              let* macro := makeFn env params body IsMacro in
              let* _ := addVariable env sym macro in
              ret macro
          | _ => throw "malformed defmacro"
          end
      | _ => throw "malformed defmacro"
      end
  | _ => throw "malformed defmacro"
  end.

Definition primMacex (env args : ref) : M ref :=
  let* _ := checkArity k args 1 1 in
  let* o := deref args in
  match o with
  | ObjPair car _ => macroExpand env car
  | _ => outOfModel
  end.

Definition primError (env args : ref) : M ref :=
  let* _ := checkArity k args 1 1 in
  let* msg := evalArg env args 0 (Some ObjType.String) in
  let* o := deref msg in
  match o with
  | ObjString value => throw value
  | _ => outOfModel
  end.

Definition primIf (env args : ref) : M ref :=
  let* _ := checkArity k args 2 3 in
  let* cond := evalArg env args 0 None in
  let* ifExpr := getArg k args 1 None in
  let* elseExpr := getArg k args 2 None in
  if same cond trueSym then evaluate env ifExpr
  else evaluate env elseExpr.

Definition primString (env args : ref) : M ref :=
  let* _ := checkArity k args 1 (-1) in
  let* strings :=
    forEach k args
      (fun arg _ (strings : list string) =>
         let* earg := evaluate env arg in
         let* s := fmt k earg in
         ret (strings ++ [s])) 0 [] in
  match strings with
  | [] => ret nil
  | _ => makeString (foldr String.append "" strings)
  end.

Definition createNumericPrim (op : numop) (env args : ref) : M ref :=
  let* _ := checkArity k args 2 2 in
  let* a := evalArg env args 0 (Some ObjType.Num) in
  let* b := evalArg env args 1 (Some ObjType.Num) in
  let* oa := deref a in
  let* ob := deref b in
  match oa, ob with
  | ObjNum x, ObjNum y =>
      let* r := numeric op x y in makeNum r
  | _, _ => outOfModel
  end.

(** The loop [while (!reader.atEof()) { next = reader.read(); if (next ===
    null) break; evaluate(env, next); }]. *)
Fixpoint evalForms (j : nat) (env : ref) (rd : Reader) : M unit :=
  match j with
  | 0 => outOfFuel
  | S j' =>
      if atEof rd then ret tt
      else
        let* (next, rd') := read k rd in
        match next with
        | None => ret tt
        | Some next =>
            let* _ := evaluate env next in
            evalForms j' env rd'
        end
  end.

(** The entries of the [primitives] record, in insertion order. *)
Definition primitives : list (string * ElyspFn) :=
  [("fn", F_primFn); ("define", F_primDefine); ("defn", F_primDefn);
   ("defmacro", F_primDefmacro); ("quote", F_primQuote);
   ("unquote", F_primUnquote); ("list", F_primList); ("cons", F_primCons);
   ("env", F_env); ("macex", F_primMacex); ("import", F_primImport);
   ("if", F_primIf); ("error", F_primError); ("string", F_primString);
   ("io/slurp", F_primSlurp); ("io/print", F_primPrintln);
   ("reader/debug", F_primReaderDebug); ("=", F_primEqual);
   ("+", F_numeric OpAdd); ("-", F_numeric OpSub); ("*", F_numeric OpMul);
   ("/", F_numeric OpDiv)].

Fixpoint installPrimitives (env : ref) (l : list (string * ElyspFn)) : M unit :=
  match l with
  | [] => ret tt
  | (name, value) :: l' =>
      let* sym := intern k name in
      let* fn := makeNativeFn value in
      let* _ := addVariable env sym fn in
      installPrimitives env l'
  end.

(** The root environment before the prelude is loaded. *)
Definition createRootEnv : M ref :=
  let* env := makeEnv nil nil in
  let* sym := intern k "nil" in
  let* _ := addVariable env sym nil in
  let* _ := addVariable env trueSym trueSym in
  let* _ := installPrimitives env primitives in
  ret env.

Definition createDefaultEnv : M ref :=
  let* env := createRootEnv in
  (* FIXME this should def not be happening here *)
  let* coreSrc := readFile "core.elysp" in
  let* _ := evalForms k env (mkReader coreSrc 0) in
  ret env.

Definition primImport (env args : ref) : M ref :=
  let* _ := checkArity k args 1 1 in
  (* read file *)
  let* path := evalArg env args 0 (Some ObjType.String) in
  let* o := deref path in
  match o with
  | ObjString value =>
      let* fileContent := readFile value in
      (* eval file *)
      let* moduleGlobalEnv := createDefaultEnv in
      let* moduleEnv := makeEnv nil moduleGlobalEnv in
      let* _ := evalForms k moduleEnv (mkReader fileContent 0) in
      (* merge env *)
      let* om := deref moduleEnv in
      match om with
      | ObjEnv vars _ =>
          let* _ :=
            forEach k vars
              (fun obj _ _ =>
                 let* ob := deref obj in
                 match ob with
                 | ObjPair key val =>
                     let* ok := deref key in
                     match ok with
                     | ObjSymbol _ => addVariable env key val
                     | _ => ret tt
                     end
                 | _ => ret tt
                 end) 0 tt in
          ret moduleEnv
      | _ => outOfModel
      end
  | _ => outOfModel
  end.

(** [fn.fn(env, args)]. *)
Definition callNative (f : ElyspFn) (env args : ref) : M ref :=
  match f with
  | F_primFn => primFn env args
  | F_primDefine => primDefine env args
  | F_primDefn => primDefn env args
  | F_primDefmacro => primDefmacro env args
  | F_primQuote => primQuote env args
  | F_primUnquote => primUnquote env args
  | F_primList => primList env args
  | F_primCons => primCons env args
  | F_env => ret env
  | F_primMacex => primMacex env args
  | F_primImport => primImport env args
  | F_primIf => primIf env args
  | F_primError => primError env args
  | F_primString => primString env args
  | F_primSlurp => primSlurp env args
  | F_primPrintln => primPrintln env args
  | F_primReaderDebug => primReaderDebug env
  | F_primEqual => primEqual env args
  | F_numeric op => createNumericPrim op env args
  end.

(** The indexing loop of [apply] on a list. *)
Fixpoint apply_index (j : nat) (obj : ref) (currentIndex : nat) (index : Z)
  : M ref :=
  match j with
  | 0 => outOfFuel
  | S j' =>
      let* o := deref obj in
      match o with
      | ObjPair car cdr =>
          if Z.eqb (Z.of_nat currentIndex) index then ret car
          else apply_index j' cdr (S currentIndex) index
      | _ => ret nil
      end
  end.

Definition apply (env fn args : ref) : M ref :=
  let* o := deref fn in
  match o with
  | ObjNativeFn f => callNative f env args
  | ObjFn IsFn params body fenv =>
      let* eargs := evaluateList env args in
      let* newEnv := pushEnv k fenv params eargs in
      evalBody newEnv body
  | ObjPair _ _ =>
      let* _ := checkArity k args 1 1 in
      let* index := evalArg env args 0 (Some ObjType.Num) in
      let* oi := deref index in
      match oi with
      | ObjNum value => apply_index k fn 0 value
      | _ => outOfModel
      end
  | _ => throw "cannot apply undefined"
  end.

Definition evaluate_step (env val : ref) : M ref :=
  let* o := deref val in
  match o with
  | ObjNil | ObjEnv _ _ | ObjString _ | ObjFn _ _ _ _ | ObjNativeFn _
  | ObjNum _ => ret val
  | ObjSymbol name =>
      let* result := find k env val in
      match result with
      | None => throw ("unknown symbol: " +:+ name)
      | Some result => ret result
      end
  | ObjPair car _ =>
      let* expanded := macroExpand env val in
      if negb (same expanded val) then evaluate env expanded
      else
        let* fn := evaluate env car in
        let* o' := deref val in
        match o' with
        | ObjPair _ args => apply env fn args
        | _ => outOfModel
        end
  end.
End Knot.

Fixpoint evaluate (readTextFileSync : string -> option string) (k : nat)
  (env val : ref) : M ref :=
  match k with
  | 0 => outOfFuel
  | S k' => evaluate_step readTextFileSync k' (evaluate readTextFileSync k') env val
  end.

(** ** The superseded generation of [primEqual]

    The earlier revision of the interpreter folds over the unevaluated
    argument list and compares every later element with the first one by
    reference. *)
Definition primEqual_superseded (k : nat) (env args : ref) : M ref :=
  let* r :=
    forEach k args
      (fun obj _ (st : option ref * bool) =>
         match fst st with
         | None => ret (Some obj, snd st)
         | Some prev =>
             if negb (snd st) then ret st
             else (* reference eq *) ret (fst st, same obj prev)
         end) 0 (None, true) in
  ret (if snd r then trueSym else nil).

(** ** The main program *)

(** Module initialisation followed by [const env = createDefaultEnv()]. *)
Definition boot (readTextFileSync : string -> option string) (k : nat) : M ref :=
  let* _ := module_init k in
  createDefaultEnv readTextFileSync k (evaluate readTextFileSync k).

(** One iteration of the REPL: read one form from the line and evaluate it. *)
Definition replLine (readTextFileSync : string -> option string) (k : nat)
  (env : ref) (line : string) : M (option ref) :=
  let* (next, _) := read k (mkReader line 0) in
  match next with
  | None => ret None
  | Some next =>
      let* v := evaluate readTextFileSync k env next in
      ret (Some v)
  end.

(** File mode: every form of the file is evaluated in turn. *)
Definition runFile (readTextFileSync : string -> option string) (k : nat)
  (env : ref) (src : string) : M unit :=
  evalForms k (evaluate readTextFileSync k) k env (mkReader src 0).

(** ** Views of heap structures as mathematical lists *)

Definition is_pair (o : Obj) : bool :=
  match o with ObjPair _ _ => true | _ => false end.

(** [list_view h l xs t]: starting at [l], the heap holds a chain of Pair
    cells whose cars are [xs], ending at the non-Pair object [t]. *)
Inductive list_view (h : list Obj) : ref -> list ref -> ref -> Prop :=
| lv_end t o : h !! t = Some o -> is_pair o = false -> list_view h t [] t
| lv_cons l x r xs t :
    h !! l = Some (ObjPair x r) -> list_view h r xs t -> list_view h l (x :: xs) t.

(** A proper list is one that ends at the module constant [nil]. *)
Definition proper_list (h : list Obj) (l : ref) (xs : list ref) : Prop :=
  list_view h l xs nil.

(** What [listLen] computes on a list seen through [list_view]. *)
Definition list_length (xs : list ref) (t : ref) : nat :=
  match xs with
  | [] => 0
  | _ => length xs + (if same t nil then 0 else 1)
  end.

(** [alist_view h vars kvs stop]: the association list starting at [vars]
    holds the bindings [kvs], head first, and then continues at [stop]. *)
Inductive alist_view (h : list Obj) : ref -> list (ref * ref) -> ref -> Prop :=
| av_stop stop : alist_view h stop [] stop
| av_cons vars b rest key v kvs stop :
    h !! vars = Some (ObjPair b rest) ->
    h !! b = Some (ObjPair key v) ->
    alist_view h rest kvs stop ->
    alist_view h vars ((key, v) :: kvs) stop.

(** First binding of [sym] in a list of bindings. *)
Fixpoint assoc (sym : ref) (kvs : list (ref * ref)) : option ref :=
  match kvs with
  | [] => None
  | (key, v) :: kvs' => if same key sym then Some v else assoc sym kvs'
  end.

(** *** The first binding of a symbol in an environment chain

    [first_binding] reads the chain as the specification describes the walk:
    the innermost frame's [vars] head first, then each [up] ancestor.  It
    returns the address of the binding Pair, [Some None] when no frame binds
    the symbol, and [None] when the walk does not finish within [k] steps
    or leaves the heap. *)
Fixpoint first_in_vars (k : nat) (h : list Obj) (obj sym : ref)
  : option (option ref) :=
  match k with
  | 0 => None
  | S k' =>
      match h !! obj with
      | Some (ObjPair bind rest) =>
          match h !! bind with
          | Some (ObjPair key _) =>
              if same key sym then Some (Some bind)
              else first_in_vars k' h rest sym
          | Some _ => first_in_vars k' h rest sym
          | None => None
          end
      | Some _ => Some None
      | None => None
      end
  end.

Fixpoint first_binding (k : nat) (h : list Obj) (cenv sym : ref)
  : option (option ref) :=
  match k with
  | 0 => None
  | S k' =>
      match h !! cenv with
      | Some (ObjEnv vars up) =>
          match first_in_vars k' h vars sym with
          | Some (Some b) => Some (Some b)
          | Some None => first_binding k' h up sym
          | None => None
          end
      | Some _ => Some None
      | None => None
      end
  end.

(** ** Running programs and reading back results *)

(** The REPL on a given sequence of input lines; it returns the value of the
    last line evaluated. *)
Fixpoint repl (readTextFileSync : string -> option string) (k : nat)
  (env : ref) (lines : list string) (last : option ref) : M (option ref) :=
  match lines with
  | [] => ret last
  | line :: lines' =>
      let* v := replLine readTextFileSync k env line in
      match v with
      | None => ret last
      | Some v => repl readTextFileSync k env lines' (Some v)
      end
  end.

(** The state before the module initialiser has run. *)
Definition empty_state : state := State [] 0.

(** A host file system that holds the prelude file and nothing else.  The
    prelude [core.elysp] is not part of the sources at hand, so its text is a
    parameter. *)
Definition prelude_only (coreSrc : string) : string -> option string :=
  fun path => if String.eqb path "core.elysp" then Some coreSrc else None.

(** A whole session: start the interpreter, then feed the lines to the REPL. *)
Definition session (coreSrc : string) (k : nat) (lines : list string)
  : result (option ref) :=
  (let* env := boot (prelude_only coreSrc) k in
   repl (prelude_only coreSrc) k env lines None) empty_state.

(** Values read back from the heap as trees. *)
Inductive sexp :=
| SNil
| SSym (name : string)
| SNum (value : Z)
| SStr (value : string)
| SCons (car cdr : sexp)
| SOther.

Fixpoint decode (d : nat) (h : list Obj) (a : ref) : sexp :=
  match d with
  | 0 => SOther
  | S d' =>
      match h !! a with
      | Some (ObjPair x y) => SCons (decode d' h x) (decode d' h y)
      | Some (ObjSymbol n) => SSym n
      | Some ObjNil => SNil
      | Some (ObjNum z) => SNum z
      | Some (ObjString v) => SStr v
      | _ => SOther
      end
  end.

(** The proper list of the given trees. *)
Definition slist (l : list sexp) : sexp := foldr SCons SNil l.

Definition decoded (r : result (option ref)) : option sexp :=
  match r with
  | Ok (Some v) s => Some (decode 100 (heap s) v)
  | _ => None
  end.

(** The text [s] between double quotes. *)
Definition quoted (s : string) : string :=
  String ch_dquote s +:+ String ch_dquote EmptyString.

(** ** A small concrete heap

    The objects a session would have built after reading a few forms and
    defining one variable and one macro; the theorems below are exercised on
    it.  Addresses are listed on the right. *)
Definition demo_state : state :=
  State
    [ ObjNil;                 (*  0  end of the symbol table *)
      ObjNil;                 (*  1  nil *)
      ObjSymbol "t";          (*  2  trueSym *)
      ObjPair 2 0;            (*  3 *)
      ObjSymbol "a";          (*  4 *)
      ObjPair 4 3;            (*  5 *)
      ObjSymbol "b";          (*  6 *)
      ObjPair 6 5;            (*  7  symbols: (b a t) *)
      ObjNum 1;               (*  8 *)
      ObjNum 2;               (*  9 *)
      ObjNum 1;               (* 10  another object holding 1 *)
      ObjPair 6 1;            (* 11  (b) *)
      ObjPair 4 11;           (* 12  (a b) *)
      ObjPair 9 1;            (* 13  (2) *)
      ObjPair 8 13;           (* 14  (1 2) *)
      ObjPair 8 9;            (* 15  (1 . 2) *)
      ObjPair 4 1;            (* 16  (a) *)
      ObjPair 4 16;           (* 17  (a a) *)
      ObjPair 10 1;           (* 18 *)
      ObjPair 8 18;           (* 19  (1 1), two distinct Number objects *)
      ObjPair 4 8;            (* 20  binding (a . 1) *)
      ObjPair 20 1;           (* 21 *)
      ObjEnv 21 1;            (* 22  root frame, a bound to 1 *)
      ObjEnv 1 22;            (* 23  empty child frame *)
      ObjNum 3;               (* 24 *)
      ObjPair 24 1;           (* 25  (3) *)
      ObjPair 9 25;           (* 26  (2 3) *)
      ObjPair 8 26;           (* 27  (1 2 3) *)
      ObjSymbol "m";          (* 28 *)
      ObjFn IsMacro 16 25 22; (* 29  macro with parameters (a) and body (3) *)
      ObjPair 28 29;          (* 30  binding (m . macro) *)
      ObjPair 30 1;           (* 31 *)
      ObjEnv 31 22;           (* 32  frame binding m, child of the root *)
      ObjPair 28 13;          (* 33  (m 2) *)
      ObjPair 33 1            (* 34  ((m 2)) *)
    ] 7.

(** * Specification-level definitions *)

(** Read-only computations: whatever the outcome, the state is the one they
    started from. *)
Definition read_only {A} (m : M A) : Prop :=
  forall s,
    match m s with
    | Ok _ s' | Throw _ s' => s' = s
    | _ => True
    end.


(** The cells [pushEnv]'s loop appends for the bindings [kvs], the first one
    at address [base], on top of the association list [prev]. *)
Fixpoint push_cells (base prev : ref) (kvs : list (ref * ref)) : list Obj :=
  match kvs with
  | [] => []
  | (p, v) :: rest =>
      ObjPair p v :: ObjPair base prev :: push_cells (S (S base)) (S base) rest
  end.

(** The head of the association list after that. *)
Definition push_top (base prev : ref) (kvs : list (ref * ref)) : ref :=
  match kvs with
  | [] => prev
  | _ => base + 2 * length kvs - 1
  end.

(** Every variant except Symbol and Pair evaluates to itself. *)
Definition self_evaluating (o : Obj) : bool :=
  match o with
  | ObjSymbol _ | ObjPair _ _ => false
  | _ => true
  end.

(** The first form of a text, read in the initial state and decoded. *)
Definition read_decoded (src : string) : option sexp :=
  match read 40 (mkReader src 0) initial_state with
  | Ok (Some v, _) s => Some (decode 100 (heap s) v)
  | _ => None
  end.

(** All elements of the list are the very same object as the first one. *)
Definition all_same (xs : list ref) : bool :=
  match xs with
  | [] => true
  | x :: xs' => forallb (fun o => same o x) xs'
  end.

(** [forEach] with a callback that only computes: a left fold. *)
Fixpoint foldi {A} (f : ref -> nat -> A -> A) (xs : list ref) (index : nat)
  (acc : A) : A :=
  match xs with
  | [] => acc
  | x :: xs' => foldi f xs' (S index) (f x index acc)
  end.

(** One turn of the superseded [primEqual]'s callback on its pair of
    previous object and verdict. *)
Definition superseded_step (obj : ref) (_ : nat) (st : option ref * bool)
  : option ref * bool :=
  match fst st with
  | None => (Some obj, snd st)
  | Some prev => if negb (snd st) then st else (fst st, same obj prev)
  end.

(** ** Well-formed states

    The interpreter keeps the association lists of its environments to
    itself: the spine cells of a [vars] list and the binding Pairs they hold
    are reachable only through the [vars] field of an Environment, never as
    values.  [wf] states this with a classification of the addresses of the
    heap: every object is public, a [vars] spine cell, or a binding. *)

Inductive kind := KPub | KSpine | KBind.

Definition pub (G : list kind) (a : ref) : Prop := G !! a = Some KPub.

(** What the [vars] field of an Environment may hold. *)
Definition vars_ok (G : list kind) (a : ref) : Prop :=
  G !! a = Some KSpine \/ a = nil.

Definition cell_ok (G : list kind) (k : kind) (o : Obj) : Prop :=
  match k, o with
  | KPub, ObjPair car cdr => pub G car /\ pub G cdr
  | KPub, ObjEnv vars up => vars_ok G vars /\ pub G up
  | KPub, ObjFn _ params body env => pub G params /\ pub G body /\ pub G env
  | KPub, _ => True
  | KSpine, ObjPair b rest => G !! b = Some KBind /\ vars_ok G rest
  | KBind, ObjPair key v => pub G key /\ pub G v
  | _, _ => False
  end.

Record wf (G : list kind) (s : state) : Prop := mk_wf {
  wf_length : length G = length (heap s);
  wf_cells : forall a k o,
      G !! a = Some k -> heap s !! a = Some o -> cell_ok G k o;
  wf_nil : pub G nil /\ heap s !! nil = Some ObjNil;
  wf_true : pub G trueSym;
  wf_symbols : pub G (symbols s) }.

(** What may happen to a public object: nothing, except that an Environment
    may get another [vars] list. *)
Definition cell_frame (o o' : Obj) : Prop :=
  match o with
  | ObjEnv _ up => exists vars', o' = ObjEnv vars' up
  | _ => o' = o
  end.

(** [ext_but t G s G' s']: from [s] to [s'] the heap has only grown, the old
    objects keep their classification, and every public object other than [t]
    is unchanged up to [cell_frame]. *)
Definition ext_but (t : option ref) (G : list kind) (s : state)
  (G' : list kind) (s' : state) : Prop :=
  G `prefix_of` G'
  /\ forall a o, pub G a -> Some a <> t -> heap s !! a = Some o ->
       exists o', heap s' !! a = Some o' /\ cell_frame o o'.

Definition ext := ext_but None.

(** All the references of a list are public. *)
Definition pubs (l : list ref) (G : list kind) : Prop := Forall (pub G) l.

(** [sound P m g]: run from a well-formed state that satisfies [P], a normal
    return of [m] leaves a well-formed state that extends it, and the
    references [g a] of the result are public. *)
Definition sound {A} (P : list kind -> Prop) (m : M A) (g : A -> list ref) : Prop :=
  forall G s a s',
    wf G s -> P G -> m s = Ok a s' ->
    exists G', wf G' s' /\ ext G s G' s' /\ pubs (g a) G'.

(** The public fields of a public object. *)
Definition pub_fields (o : Obj) : list ref :=
  match o with
  | ObjPair car cdr => [car; cdr]
  | ObjEnv _ up => [up]
  | ObjFn _ params body env => [params; body; env]
  | _ => []
  end.

(** The references known to be public: the two constants and the list. *)
Definition known (l : list ref) (a : ref) : Prop := In a (nil :: trueSym :: l).

Definition option_refs (o : option ref) : list ref :=
  match o with Some r => [r] | None => [] end.

Definition one_ref (r : ref) : list ref := [r].
Definition no_refs {A} (_ : A) : list ref := [].

(** Allocation of a public object. *)
Definition alloc_ok (l : list ref) (o : Obj) : Prop :=
  match o with
  | ObjEnv vars up => vars = nil /\ known l up
  | _ => Forall (known l) (pub_fields o)
  end.

(** The references of what the reader returns. *)
Definition fst_ref (r : ref * Reader) : list ref := [fst r].
Definition fst_opt (r : option ref * Reader) : list ref := option_refs (fst r).

(** ** Lists under construction

    [cells_view h l ps xs t]: as [list_view], with the addresses [ps] of the
    Pair cells of the list. *)
Inductive cells_view (h : list Obj) : ref -> list ref -> list ref -> ref -> Prop :=
| cv_end t o : h !! t = Some o -> is_pair o = false -> cells_view h t [] [] t
| cv_cons l x r ps xs t :
    h !! l = Some (ObjPair x r) -> cells_view h r ps xs t ->
    cells_view h l (l :: ps) (x :: xs) t.

(** [chain h cells vs stop]: the Pair cells at [cells] hold the values [vs]
    and each points to the next one, the last to [stop]. *)
Inductive chain (h : list Obj) : list ref -> list ref -> ref -> Prop :=
| chain_nil stop : chain h [] [] stop
| chain_cons c v cs vs stop :
    h !! c = Some (ObjPair v (hd stop cs)) -> chain h cs vs stop ->
    chain h (c :: cs) (v :: vs) stop.

(** The state after [evaluateList] or [evaluateUnquotes] has stored the result
    [v] in a new cell and linked it behind the last cell [tail] of the list it
    is building ([tail] is that cell's address and car). *)
Definition link (tail : option (ref * ref)) (v : ref) (s : state) : state :=
  match tail with
  | None => State (heap s ++ [ObjPair v nil]) (symbols s)
  | Some (t, tv) =>
      State (<[t := ObjPair tv (length (heap s))]> (heap s ++ [ObjPair v nil]))
            (symbols s)
  end.

(** [collects f tail es s vs s']: the elements [es] are handed to [f] from
    left to right, starting in state [s]; each call returns normally, its
    result is linked to the list under construction, and the next call runs
    in the state so obtained.  [vs] are the results and [s'] is the final
    state. *)
Inductive collects (f : ref -> M ref)
  : option (ref * ref) -> list ref -> state -> list ref -> state -> Prop :=
| collects_nil tail s : collects f tail [] s [] s
| collects_cons tail e es s v s1 vs s' :
    f e s = Ok v s1 ->
    collects f (Some (length (heap s1), v)) es (link tail v s1) vs s' ->
    collects f tail (e :: es) s (v :: vs) s'.

(** The first cell of a list under construction, as [collect_loop] keeps it
    in [head]. *)
Definition head_of (cells : list ref) : option ref :=
  match cells with
  | [] => None
  | c :: _ => Some c
  end.

(** What [collect_loop] has built so far: nothing, or the cells [cs] followed
    by the last cell [t], which holds [tv] and ends the list. *)
Inductive built (n0 : nat) (G : list kind) (s : state)
  : option ref -> option (ref * ref) -> list ref -> list ref -> Prop :=
| built_none : built n0 G s None None [] []
| built_some cs vs0 t tv :
    chain (heap s) cs vs0 t ->
    heap s !! t = Some (ObjPair tv nil) ->
    Forall (fun c => n0 <= c /\ pub G c) (cs ++ [t]) ->
    t ∉ cs ->
    built n0 G s (Some (hd t cs)) (Some (t, tv)) (cs ++ [t]) (vs0 ++ [tv]).

(** The last cell built so far is public and ends the list. *)
Definition tail_ok (G : list kind) (s : state) (tail : option (ref * ref)) : Prop :=
  forall t tv, tail = Some (t, tv) ->
    pub G t /\ heap s !! t = Some (ObjPair tv nil).

(** ** Checking well-formedness by computation *)

Definition pubb (G : list kind) (a : ref) : bool :=
  match G !! a with Some KPub => true | _ => false end.

Definition vars_okb (G : list kind) (a : ref) : bool :=
  match G !! a with Some KSpine => true | _ => same a nil end.

Definition bindb (G : list kind) (a : ref) : bool :=
  match G !! a with Some KBind => true | _ => false end.

Definition cell_okb (G : list kind) (k : kind) (o : Obj) : bool :=
  match k, o with
  | KPub, ObjPair car cdr => pubb G car && pubb G cdr
  | KPub, ObjEnv vars up => vars_okb G vars && pubb G up
  | KPub, ObjFn _ params body env => pubb G params && pubb G body && pubb G env
  | KPub, _ => true
  | KSpine, ObjPair b rest => bindb G b && vars_okb G rest
  | KBind, ObjPair key v => pubb G key && pubb G v
  | _, _ => false
  end.

Fixpoint cells_okb (G0 G : list kind) (h : list Obj) : bool :=
  match G, h with
  | k :: G', o :: h' => cell_okb G0 k o && cells_okb G0 G' h'
  | _, _ => true
  end.

Definition wfb (G : list kind) (s : state) : bool :=
  Nat.eqb (length G) (length (heap s))
  && cells_okb G G (heap s)
  && pubb G nil
  && match heap s !! nil with Some ObjNil => true | _ => false end
  && pubb G trueSym
  && pubb G (symbols s).

(** The classification of [demo_state]: the two association lists of its
    environments are private, everything else is public. *)
Definition demo_kinds : list kind :=
  replicate 20 KPub ++ [KBind; KSpine] ++ replicate 8 KPub
    ++ [KBind; KSpine] ++ replicate 3 KPub.

(** Evaluating forms one after the other. *)
Inductive runs (f : ref -> M ref) : list ref -> state -> list ref -> state -> Prop :=
| runs_nil s : runs f [] s [] s
| runs_cons e es s v s1 vs s' :
    f e s = Ok v s1 -> runs f es s1 vs s' -> runs f (e :: es) s (v :: vs) s'.

(** * Further definitions for the statements *)

(** [readerDebugEnabled(env)]: whether the host loop echoes what it reads. *)
Definition readerDebugEnabled (k : nat) (env : ref) : M bool :=
  let* sym := intern k "reader-debug" in
  let* debug := find k env sym in
  ret (match debug with
       | Some d => same d trueSym
       | None => false
       end).


(** The message of the error a computation ended with. *)
Definition thrown {A} (r : result A) : option string :=
  match r with
  | Throw msg _ => Some msg
  | _ => None
  end.

(** The superseded [=] applied, in a fresh interpreter, to the argument list
    of the form read from [src]. *)
Definition superseded_on (k : nat) (src : string) : result (option ref) :=
  (let* env := boot (prelude_only "") k in
   let* (next, _) := read k (mkReader src 0) in
   match next with
   | None => ret None
   | Some form =>
       let* o := deref form in
       match o with
       | ObjPair _ args =>
           let* v := primEqual_superseded k env args in ret (Some v)
       | _ => ret None
       end
   end) empty_state.


(** The texts of a list separated by single spaces. *)
Fixpoint join_sp (strs : list string) : string :=
  match strs with
  | [] => ""
  | x :: rest =>
      match rest with
      | [] => x
      | _ => x +:+ " " +:+ join_sp rest
      end
  end.

(** Every character of the text satisfies [p]. *)
Fixpoint all_chars (p : ascii -> bool) (s : string) : bool :=
  match s with
  | EmptyString => true
  | String c s' => p c && all_chars p s'
  end.

(** The text is empty or starts with a character that fails [p]. *)
Definition stops (p : ascii -> bool) (s : string) : bool :=
  match s with
  | EmptyString => true
  | String c _ => negb (p c)
  end.

(** [fwd rd rd']: the reader [rd'] is [rd] moved forward over the same
    text, and not beyond its end when [rd] was within it. *)
Definition fwd (rd rd' : Reader) : Prop :=
  source rd' = source rd
  /\ pos rd <= pos rd'
  /\ (pos rd <= String.length (source rd) ->
      pos rd' <= String.length (source rd)).

(** The state [addVariable] leaves. *)
Definition bound (env sym val : ref) (s : state) (vars up : ref) : state :=
  State (<[env := ObjEnv (S (length (heap s))) up]>
           (heap s ++ [ObjPair sym val; ObjPair (length (heap s)) vars]))
        (symbols s).

(** [demo_state] with a few more objects: the argument lists of a [fn], a
    [define] and a [defn] form, a Function, and a third Number 1. *)
Definition demo_state2 : state :=
  State (heap demo_state
           ++ [ ObjPair 16 25;          (* 35  ((a) 3) *)
                ObjFn IsFn 16 25 22;    (* 36  function with parameters (a) and body (3) *)
                ObjPair 4 18;           (* 37  (a 1) *)
                ObjPair 6 35;           (* 38  (b (a) 3) *)
                ObjNum 1 ])             (* 39 *)
        7.

Definition demo_kinds2 : list kind := demo_kinds ++ replicate 5 KPub.

(** [demo_state2] with a frame that binds [b] to the symbol [t], three
    argument lists whose first element is a variable, and a form whose head
    is the native function [define]. *)
Definition demo_state3 : state :=
  State (heap demo_state2
           ++ [ ObjPair 6 2;                 (* 40  binding (b . t) *)
                ObjPair 40 1;                (* 41 *)
                ObjEnv 41 22;                (* 42  frame binding b, child of the root *)
                ObjPair 6 26;                (* 43  (b 2 3) *)
                ObjPair 4 26;                (* 44  (a 2 3) *)
                ObjPair 4 13;                (* 45  (a 2) *)
                ObjNativeFn F_primDefine;    (* 46 *)
                ObjPair 46 37 ])             (* 47  (<define> a 1) *)
        7.

Definition demo_kinds3 : list kind :=
  demo_kinds2 ++ [KBind; KSpine] ++ replicate 6 KPub.

(** * Properties *)

(** ** Stepping through monadic code *)

Lemma bind_Ok {A B} (m : M A) (f : A -> M B) s a s1 :
  m s = Ok a s1 -> bind m f s = f a s1.
Proof. intros H. unfold bind. now rewrite H. Qed.

Lemma bind_Throw {A B} (m : M A) (f : A -> M B) s msg s1 :
  m s = Throw msg s1 -> bind m f s = Throw msg s1.
Proof. intros H. unfold bind. now rewrite H. Qed.

Lemma bind_Ok_inv {A B} (m : M A) (f : A -> M B) s b s' :
  bind m f s = Ok b s' -> exists a s1, m s = Ok a s1 /\ f a s1 = Ok b s'.
Proof.
  unfold bind. destruct (m s) as [a s1| | |] eqn:E; try discriminate.
  intros H. eauto.
Qed.

Lemma deref_Ok a s o : heap s !! a = Some o -> deref a s = Ok o s.
Proof. intros H. unfold deref. now rewrite H. Qed.

Lemma deref_Ok_inv a s o s' :
  deref a s = Ok o s' -> s' = s /\ heap s !! a = Some o.
Proof.
  unfold deref. destruct (heap s !! a) eqn:E; try discriminate.
  intros H. injection H as <- <-. auto.
Qed.

Lemma bind_deref {B} a (f : Obj -> M B) s :
  bind (deref a) f s
  = match heap s !! a with Some o => f o s | None => OutOfModel end.
Proof. unfold bind, deref. now destruct (heap s !! a). Qed.

Lemma same_refl a : same a a = true.
Proof. apply Nat.eqb_refl. Qed.


Lemma same_true a b : same a b = true <-> a = b.
Proof. apply Nat.eqb_eq. Qed.

Lemma same_false a b : same a b = false <-> a <> b.
Proof. apply Nat.eqb_neq. Qed.


Lemma ObjType_eqb_refl a : ObjType.eqb a a = true.
Proof. now destruct a. Qed.

Lemma read_only_Ok {A} (m : M A) s a s' : read_only m -> m s = Ok a s' -> s' = s.
Proof. intros H E. specialize (H s). now rewrite E in H. Qed.

Lemma read_only_ret {A} (a : A) : read_only (ret a).
Proof. now intros s. Qed.

Lemma read_only_throw {A} msg : read_only (@throw A msg).
Proof. now intros s. Qed.

Lemma read_only_outOfFuel {A} : read_only (@outOfFuel A).
Proof. now intros s. Qed.

Lemma read_only_outOfModel {A} : read_only (@outOfModel A).
Proof. now intros s. Qed.

Lemma read_only_deref a : read_only (deref a).
Proof. intros s. unfold deref. now destruct (heap s !! a). Qed.

Lemma read_only_bind {A B} (m : M A) (f : A -> M B) :
  read_only m -> (forall a, read_only (f a)) -> read_only (bind m f).
Proof.
  intros Hm Hf s. unfold bind. specialize (Hm s).
  destruct (m s) as [a s1| | |]; auto. subst s1. apply Hf.
Qed.

Create HintDb ro discriminated.
#[export] Hint Resolve read_only_ret read_only_throw read_only_outOfFuel
  read_only_outOfModel read_only_deref : ro.

Ltac ro_step :=
  match goal with
  | |- read_only (bind _ _) => apply read_only_bind; [| intros ?]
  | |- read_only (match ?x with _ => _ end) => destruct x
  | |- read_only (if ?x then _ else _) => destruct x
  | |- read_only _ => solve [auto with ro]
  end.

Lemma listLen_loop_read_only k : forall obj len, read_only (listLen_loop k obj len).
Proof. induction k; intros; simpl; repeat ro_step. Qed.
#[export] Hint Resolve listLen_loop_read_only : ro.

Lemma listLen_read_only k list : read_only (listLen k list).
Proof. unfold listLen. repeat ro_step. Qed.
#[export] Hint Resolve listLen_read_only : ro.

Lemma equal_read_only k : forall a b, read_only (equal k a b).
Proof. induction k; intros; simpl; repeat ro_step. Qed.
#[export] Hint Resolve equal_read_only : ro.

Lemma find_vars_read_only k : forall obj sym, read_only (find_vars k obj sym).
Proof. induction k; intros; simpl; repeat ro_step. Qed.
#[export] Hint Resolve find_vars_read_only : ro.

Lemma find_chain_read_only k : forall cenv sym, read_only (find_chain k cenv sym).
Proof. induction k; intros; simpl; repeat ro_step. Qed.
#[export] Hint Resolve find_chain_read_only : ro.

Lemma find_read_only k env sym : read_only (find k env sym).
Proof. apply find_chain_read_only. Qed.
#[export] Hint Resolve find_read_only : ro.

(** ** [equal] *)

Lemma equal_refl k s a o : heap s !! a = Some o -> equal (S k) a a s = Ok true s.
Proof.
  intros H. simpl. rewrite (bind_Ok _ _ _ _ _ (deref_Ok _ _ _ H)).
  rewrite (bind_Ok _ _ _ _ _ (deref_Ok _ _ _ H)).
  now rewrite ObjType_eqb_refl, same_refl.
Qed.



(** ** [find] and [setVariable] *)

Lemma find_vars_first k : forall obj sym s,
  match first_in_vars k (heap s) obj sym with
  | Some (Some b) =>
      exists old, heap s !! b = Some (ObjPair sym old)
                  /\ find_vars k obj sym s = Ok (Some old) s
  | Some None => find_vars k obj sym s = Ok None s
  | None => True
  end.
Proof.
  induction k as [|k IH]; intros obj sym s; simpl; [exact I|].
  rewrite bind_deref.
  destruct (heap s !! obj) as [[bd rest| | | | | | |]|] eqn:Ho; auto.
  rewrite bind_deref.
  destruct (heap s !! bd) as [[key v| | | | | | |]|] eqn:Hb; auto;
    try apply IH.
  destruct (same key sym) eqn:Hk; [|apply IH].
  apply same_true in Hk. subst key. eauto.
Qed.

Lemma find_chain_first k : forall cenv sym s,
  match first_binding k (heap s) cenv sym with
  | Some (Some b) =>
      exists old, heap s !! b = Some (ObjPair sym old)
                  /\ find_chain k cenv sym s = Ok (Some old) s
  | Some None => find_chain k cenv sym s = Ok None s
  | None => True
  end.
Proof.
  induction k as [|k IH]; intros cenv sym s; simpl; [exact I|].
  rewrite bind_deref.
  destruct (heap s !! cenv) as [[| | |vars up| | | |]|] eqn:Ho; auto.
  pose proof (find_vars_first k vars sym s) as Hv.
  destruct (first_in_vars k (heap s) vars sym) as [[b|]|]; auto.
  - destruct Hv as (old & Hb & Hf). exists old. split; [exact Hb|].
    now rewrite (bind_Ok _ _ _ _ _ Hf).
  - rewrite (bind_Ok _ _ _ _ _ Hv). apply IH.
Qed.

Lemma setVariable_vars_first k : forall obj sym val s,
  match first_in_vars k (heap s) obj sym with
  | Some (Some b) =>
      setVariable_vars k obj sym val s
      = Ok true (State (<[b := ObjPair sym val]> (heap s)) (symbols s))
  | Some None => setVariable_vars k obj sym val s = Ok false s
  | None => True
  end.
Proof.
  induction k as [|k IH]; intros obj sym val s; simpl; [exact I|].
  rewrite bind_deref.
  destruct (heap s !! obj) as [[bd rest| | | | | | |]|] eqn:Ho; auto.
  rewrite bind_deref.
  destruct (heap s !! bd) as [[key v| | | | | | |]|] eqn:Hb; auto;
    try apply IH.
  destruct (same key sym) eqn:Hk; [|apply IH].
  apply same_true in Hk. subst key.
  unfold bind, set_cdr. now rewrite Hb.
Qed.

Lemma setVariable_chain_first k : forall cenv sym val s,
  match first_binding k (heap s) cenv sym with
  | Some (Some b) =>
      setVariable_chain k cenv sym val s
      = Ok true (State (<[b := ObjPair sym val]> (heap s)) (symbols s))
  | Some None => setVariable_chain k cenv sym val s = Ok false s
  | None => True
  end.
Proof.
  induction k as [|k IH]; intros cenv sym val s; simpl; [exact I|].
  rewrite bind_deref.
  destruct (heap s !! cenv) as [[| | |vars up| | | |]|] eqn:Ho; auto.
  pose proof (setVariable_vars_first k vars sym val s) as Hv.
  destruct (first_in_vars k (heap s) vars sym) as [[b|]|]; auto.
  - now rewrite (bind_Ok _ _ _ _ _ Hv).
  - rewrite (bind_Ok _ _ _ _ _ Hv). apply IH.
Qed.

Lemma addVariable_Ok env sym val s vars up :
  heap s !! env = Some (ObjEnv vars up) ->
  addVariable env sym val s
  = Ok tt (State (<[env := ObjEnv (S (length (heap s))) up]>
                    (heap s ++ [ObjPair sym val; ObjPair (length (heap s)) vars]))
                 (symbols s)).
Proof.
  intros He. unfold addVariable.
  rewrite (bind_Ok _ _ _ _ _ (deref_Ok _ _ _ He)).
  unfold acons, cons, makePair, bind, alloc, set_vars. simpl.
  rewrite length_app. simpl. rewrite Nat.add_1_r.
  rewrite <- List.app_assoc. simpl.
  rewrite lookup_app_l by (apply lookup_lt_Some in He; exact He).
  now rewrite He.
Qed.

(** C4. [setVariable] overwrites, in place, the value stored in the first
    binding of the symbol that the walk through the innermost frame's [vars]
    (head first) and then through each [up] ancestor meets -- the binding
    [find] reads -- and changes no other object; when no frame of the chain
    binds the symbol it behaves as [addVariable] on the environment it was
    given, which prepends one new binding to that frame only. *)
Theorem setVariable_spec (k : nat) (env sym val : ref) (s : state) :
  (forall b, first_binding k (heap s) env sym = Some (Some b) ->
     exists old,
       heap s !! b = Some (ObjPair sym old)
       /\ find k env sym s = Ok (Some old) s
       /\ setVariable k env sym val s
          = Ok tt (State (<[b := ObjPair sym val]> (heap s)) (symbols s))
       /\ (forall a, a <> b ->
             <[b := ObjPair sym val]> (heap s) !! a = heap s !! a))
  /\ (first_binding k (heap s) env sym = Some None ->
      find k env sym s = Ok None s
      /\ setVariable k env sym val s = addVariable env sym val s
      /\ (forall vars up, heap s !! env = Some (ObjEnv vars up) ->
            setVariable k env sym val s
            = Ok tt (State (<[env := ObjEnv (S (length (heap s))) up]>
                              (heap s ++ [ObjPair sym val;
                                          ObjPair (length (heap s)) vars]))
                           (symbols s)))).
Proof.
  pose proof (find_chain_first k env sym s) as Hf.
  pose proof (setVariable_chain_first k env sym val s) as Hs.
  split.
  - intros b Hb. rewrite Hb in Hf, Hs. destruct Hf as (old & Hold & Hf).
    exists old. repeat split; auto.
    + unfold setVariable. now rewrite (bind_Ok _ _ _ _ _ Hs).
    + intros a Ha. now apply list_lookup_insert_ne.
  - intros Hn. rewrite Hn in Hf, Hs.
    assert (Hset : setVariable k env sym val s = addVariable env sym val s).
    { unfold setVariable. now rewrite (bind_Ok _ _ _ _ _ Hs). }
    repeat split; auto.
    intros vars up He. rewrite Hset. now apply addVariable_Ok.
Qed.

(** ** [listLen] and [pushEnv] *)

Lemma state_eta s : State (heap s) (symbols s) = s.
Proof. now destruct s. Qed.

Lemma list_view_app h e l xs t :
  list_view h l xs t -> list_view (h ++ e) l xs t.
Proof.
  induction 1 as [t o Ht Hp | l x r xs t Hl _ IH].
  - eapply lv_end; [|exact Hp]. now apply lookup_app_l_Some.
  - eapply lv_cons; [|exact IH]. now apply lookup_app_l_Some.
Qed.

Lemma list_view_inv h l xs t :
  list_view h l xs t ->
  match xs with
  | [] => l = t /\ exists o, h !! t = Some o /\ is_pair o = false
  | x :: xs' => exists r, h !! l = Some (ObjPair x r) /\ list_view h r xs' t
  end.
Proof. destruct 1; eauto. Qed.

Lemma not_pair_match {A} (o : Obj) (f : ref -> ref -> A) (d : A) :
  is_pair o = false ->
  match o with ObjPair a b => f a b | _ => d end = d.
Proof. now destruct o. Qed.

Lemma listLen_loop_view s : forall xs k obj t len,
  list_view (heap s) obj xs t -> length xs < k ->
  listLen_loop k obj len s
  = Ok (len + length xs + (if same t nil then 0 else 1)) s.
Proof.
  induction xs as [|x xs IH]; intros k obj t len Hv Hk;
    (destruct k as [|k]; [simpl in Hk; lia|]); apply list_view_inv in Hv;
    simpl; rewrite bind_deref.
  - destruct Hv as (-> & o & Ho & Hp). rewrite Ho.
    destruct o; try discriminate; unfold ret; f_equal;
      destruct (same t nil); lia.
  - destruct Hv as (r & Hl & Hr). rewrite Hl.
    rewrite (IH k r t (S len)); [|assumption|simpl in Hk; lia].
    f_equal. lia.
Qed.

Lemma listLen_view s k l xs t :
  list_view (heap s) l xs t -> length xs < k ->
  listLen k l s = Ok (list_length xs t) s.
Proof.
  intros Hv Hk. unfold listLen. rewrite bind_deref.
  pose proof (list_view_inv _ _ _ _ Hv) as Hi. destruct xs as [|x xs].
  - destruct Hi as (-> & o & Ho & Hp). rewrite Ho. now destruct o.
  - destruct Hi as (r & Hl & Hr). rewrite Hl.
    rewrite (listLen_loop_view s _ k l t 0 Hv Hk). reflexivity.
Qed.

Lemma pushEnv_loop_view : forall ps vs vars values tp tv k nv s,
  list_view (heap s) vars ps tp -> list_view (heap s) values vs tv ->
  length ps < k ->
  pushEnv_loop k vars values nv s
  = Ok (push_top (length (heap s)) nv (zip ps vs))
       (State (heap s ++ push_cells (length (heap s)) nv (zip ps vs)) (symbols s)).
Proof.
  induction ps as [|p ps IH]; intros vs vars values tp tv k nv s Hp Hv Hk;
    (destruct k as [|k]; [simpl in Hk; lia|]); apply list_view_inv in Hp;
    simpl pushEnv_loop; rewrite bind_deref.
  - destruct Hp as (-> & o & Ho & Hpo). rewrite Ho. simpl.
    rewrite app_nil_r, state_eta. now destruct o.
  - destruct Hp as (r & Hl & Hr). rewrite Hl. rewrite bind_deref.
    apply list_view_inv in Hv. destruct vs as [|v vs].
    + destruct Hv as (-> & o & Ho & Hpo). rewrite Ho. simpl.
      rewrite app_nil_r, state_eta. now destruct o.
    + destruct Hv as (r' & Hl' & Hr'). rewrite Hl'.
      unfold acons, cons, makePair, bind at 1, bind at 1, alloc.
      simpl heap. simpl symbols.
      set (s1 := State _ _).
      assert (Hlen : length (heap s1) = S (S (length (heap s)))).
      { unfold s1. simpl. rewrite !length_app. simpl. lia. }
      rewrite (IH vs r r' tp tv k (length (heap s ++ [ObjPair p v])) s1).
      * rewrite Hlen. unfold s1. simpl heap. simpl symbols.
        rewrite length_app. simpl length. rewrite Nat.add_1_r.
        f_equal.
        -- unfold push_top. simpl zip. destruct (zip ps vs); simpl; lia.
        -- f_equal. rewrite <- !List.app_assoc. reflexivity.
      * unfold s1. simpl. now do 2 apply list_view_app.
      * unfold s1. simpl. now do 2 apply list_view_app.
      * simpl in Hk. lia.
Qed.

Lemma alist_view_app_heap h e vars kvs stop :
  alist_view h vars kvs stop -> alist_view (h ++ e) vars kvs stop.
Proof.
  induction 1; [constructor|].
  econstructor; eauto using lookup_app_l_Some.
Qed.

Lemma alist_view_trans h a xs b ys c :
  alist_view h a xs b -> alist_view h b ys c -> alist_view h a (xs ++ ys) c.
Proof. induction 1; intros; simpl; [assumption|econstructor; eauto]. Qed.

Lemma push_top_cons base prev p v kvs :
  push_top base prev ((p, v) :: kvs) = push_top (S (S base)) (S base) kvs.
Proof. unfold push_top. destruct kvs; simpl; lia. Qed.

Lemma push_cells_alist : forall kvs h prev,
  alist_view (h ++ push_cells (length h) prev kvs)
             (push_top (length h) prev kvs) (rev kvs) prev.
Proof.
  induction kvs as [|[p v] kvs IH]; intros h prev.
  - simpl. constructor.
  - rewrite push_top_cons. simpl push_cells. simpl rev.
    specialize (IH (h ++ [ObjPair p v; ObjPair (length h) prev]) (S (length h))).
    rewrite length_app in IH. simpl length in IH.
    replace (length h + 2) with (S (S (length h))) in IH by lia.
    rewrite <- List.app_assoc in IH. simpl app in IH.
    eapply alist_view_trans; [exact IH|].
    eapply av_cons with (b := length h); [| |constructor].
    + rewrite lookup_app_r by lia.
      replace (S (length h) - length h) with 1 by lia. reflexivity.
    + rewrite lookup_app_r by lia. rewrite Nat.sub_diag. reflexivity.
Qed.

Lemma alist_view_inv h vars kvs stop :
  alist_view h vars kvs stop ->
  match kvs with
  | [] => vars = stop
  | (key, v) :: kvs' =>
      exists b rest, h !! vars = Some (ObjPair b rest)
                     /\ h !! b = Some (ObjPair key v)
                     /\ alist_view h rest kvs' stop
  end.
Proof. destruct 1; eauto. Qed.

Lemma find_vars_alist s : forall kvs k vars stop o sym,
  alist_view (heap s) vars kvs stop ->
  heap s !! stop = Some o -> is_pair o = false ->
  length kvs < k ->
  find_vars k vars sym s = Ok (assoc sym kvs) s.
Proof.
  induction kvs as [|[key v] kvs IH]; intros k vars stop o sym Hv Hs Ho Hk;
    (destruct k as [|k]; [simpl in Hk; lia|]); apply alist_view_inv in Hv;
    simpl; rewrite bind_deref.
  - subst vars. rewrite Hs. now destruct o.
  - destruct Hv as (b & rest & Hvars & Hb & Hrest).
    rewrite Hvars, bind_deref, Hb.
    destruct (same key sym); [reflexivity|].
    eapply IH; eauto. simpl in Hk. lia.
Qed.

Lemma assoc_app sym l1 l2 :
  assoc sym (l1 ++ l2)
  = match assoc sym l1 with Some v => Some v | None => assoc sym l2 end.
Proof.
  induction l1 as [|[key v] l1 IH]; simpl; [reflexivity|].
  now destruct (same key sym).
Qed.

Lemma assoc_not_in sym (ps vs : list ref) :
  sym ∉ ps -> assoc sym (rev (zip ps vs)) = None.
Proof.
  revert vs. induction ps as [|p ps IH]; intros vs Hn; [reflexivity|].
  apply not_elem_of_cons in Hn as [Hne Hn].
  destruct vs as [|v vs]; [reflexivity|]. simpl.
  rewrite assoc_app, IH by assumption. simpl.
  destruct (same p sym) eqn:E; [|reflexivity].
  apply same_true in E. congruence.
Qed.

(** What [pushEnv] returns when the two lengths agree. *)
Lemma pushEnv_Ok k env vars values s ps tp vs tv :
  list_view (heap s) vars ps tp -> list_view (heap s) values vs tv ->
  length ps < k -> length vs < k ->
  list_length ps tp = list_length vs tv ->
  let kvs := zip ps vs in
  let h1 := heap s ++ push_cells (length (heap s)) nil kvs in
  pushEnv k env vars values s
  = Ok (length h1)
       (State (h1 ++ [ObjEnv (push_top (length (heap s)) nil kvs) env]) (symbols s)).
Proof.
  intros Hp Hv Hkp Hkv Hlen kvs h1. unfold pushEnv.
  rewrite (bind_Ok _ _ _ _ _ (listLen_view s k vars ps tp Hp Hkp)).
  rewrite (bind_Ok _ _ _ _ _ (listLen_view s k values vs tv Hv Hkv)).
  rewrite Hlen, Nat.eqb_refl. change (negb true) with false. cbv iota.
  rewrite (bind_Ok _ _ _ _ _ (pushEnv_loop_view ps vs vars values tp tv k nil s Hp Hv Hkp)).
  reflexivity.
Qed.

Lemma list_view_end h l xs t :
  list_view h l xs t -> exists o, h !! t = Some o /\ is_pair o = false.
Proof. induction 1; eauto. Qed.

Lemma list_length_nil xs : list_length xs nil = length xs.
Proof. destruct xs; simpl; lia. Qed.


(** C10. When the parameter list names the same Symbol more than once, the
    new frame holds one binding per position (the bindings of [zip] of the
    two lists, last position first), and looking the symbol up in that frame
    returns the argument at the position of its last occurrence. *)
Theorem pushEnv_duplicate_params (k : nat) (env params args : ref) (s : state)
  (ps1 ps2 vs1 vs2 : list ref) (sym v : ref)
  (Hp : proper_list (heap s) params (ps1 ++ sym :: ps2))
  (Ha : proper_list (heap s) args (vs1 ++ v :: vs2))
  (H1 : length ps1 = length vs1) (H2 : length ps2 = length vs2)
  (Hlast : sym ∉ ps2)
  (Hk : length (ps1 ++ sym :: ps2) + 1 < k) :
  exists e newVars s',
    pushEnv k env params args s = Ok e s'
    /\ heap s' !! e = Some (ObjEnv newVars env)
    /\ alist_view (heap s') newVars
         (rev (zip (ps1 ++ sym :: ps2) (vs1 ++ v :: vs2))) nil
    /\ find k e sym s' = Ok (Some v) s'.
Proof.
  unfold proper_list in *.
  assert (Hlen : length (ps1 ++ sym :: ps2) = length (vs1 ++ v :: vs2)).
  { rewrite !length_app. simpl. lia. }
  assert (Heq : list_length (ps1 ++ sym :: ps2) nil
                = list_length (vs1 ++ v :: vs2) nil).
  { now rewrite !list_length_nil. }
  pose proof (pushEnv_Ok k env params args s _ _ _ _ Hp Ha
                ltac:(lia) ltac:(lia) Heq) as H.
  cbv zeta in H.
  set (kvs := zip (ps1 ++ sym :: ps2) (vs1 ++ v :: vs2)) in *.
  set (h1 := heap s ++ push_cells (length (heap s)) nil kvs) in *.
  set (top := push_top (length (heap s)) nil kvs) in *.
  assert (He : (h1 ++ [ObjEnv top env]) !! length h1 = Some (ObjEnv top env)).
  { rewrite lookup_app_r by lia. now rewrite Nat.sub_diag. }
  assert (Hal : alist_view (h1 ++ [ObjEnv top env]) top (rev kvs) nil).
  { apply alist_view_app_heap, push_cells_alist. }
  eexists _, _, _. split; [exact H|]. simpl heap.
  split; [exact He|]. split; [exact Hal|].
  destruct k as [|k]; [lia|].
  unfold find. simpl find_chain. rewrite bind_deref. simpl heap. rewrite He.
  destruct (list_view_end _ _ _ _ Hp) as (o & Ho & Hpo).
  erewrite bind_Ok.
  2:{ eapply find_vars_alist with (stop := nil) (o := o); simpl heap.
      - exact Hal.
      - unfold h1. rewrite <- List.app_assoc. now apply lookup_app_l_Some.
      - exact Hpo.
      - rewrite length_rev. unfold kvs. rewrite length_zip_with_l_eq by exact Hlen.
        lia. }
  unfold kvs. rewrite zip_with_app by exact H1.
  rewrite rev_app_distr.
  change (zip (sym :: ps2) (v :: vs2)) with ((sym, v) :: zip ps2 vs2).
  change (rev ((sym, v) :: zip ps2 vs2)) with (rev (zip ps2 vs2) ++ [(sym, v)]).
  rewrite !assoc_app. rewrite (assoc_not_in sym ps2 vs2 Hlast).
  simpl. now rewrite same_refl.
Qed.

(** ** Argument access *)

Lemma getArg_loop_view s : forall xs j obj t argIndex index,
  list_view (heap s) obj xs t -> length xs < j -> argIndex <= index ->
  getArg_loop j obj argIndex index s
  = Ok (default nil (xs !! (index - argIndex))) s.
Proof.
  induction xs as [|x xs IH]; intros j obj t argIndex index Hv Hj Hle;
    (destruct j as [|j]; [simpl in Hj; lia|]); apply list_view_inv in Hv;
    simpl getArg_loop; rewrite bind_deref.
  - destruct Hv as (-> & o & Ho & Hp). rewrite Ho. now destruct o.
  - destruct Hv as (r & Hl & Hr). rewrite Hl.
    destruct (argIndex =? index) eqn:E.
    + apply Nat.eqb_eq in E. subst. now rewrite Nat.sub_diag.
    + apply Nat.eqb_neq in E.
      rewrite (IH j r t (S argIndex) index Hr); [|simpl in Hj; lia|lia].
      replace (index - argIndex) with (S (index - S argIndex)) by lia.
      reflexivity.
Qed.

Lemma getArg_view s k args x xs index :
  proper_list (heap s) args (x :: xs) -> length (x :: xs) < k ->
  getArg k args index None s = Ok (default nil ((x :: xs) !! index)) s.
Proof.
  intros Hv Hk. unfold getArg.
  pose proof (list_view_inv _ _ _ _ Hv) as (r & Hl & Hr).
  destruct (list_view_end _ _ _ _ Hv) as (o & Ho & Hp).
  destruct (same args nil) eqn:E.
  { apply same_true in E. subst args. rewrite Hl in Ho.
    injection Ho as <-. discriminate. }
  rewrite bind_deref, Hl.
  rewrite (bind_Ok _ _ _ _ _ (getArg_loop_view s _ k args nil 0 index Hv Hk
                                ltac:(lia))).
  rewrite Nat.sub_0_r. reflexivity.
Qed.

Lemma checkArity_view s k args xs t lo hi :
  list_view (heap s) args xs t -> length xs < k ->
  checkArity k args lo hi s
  = if (negb (Z.eqb lo (-1)) && Z.ltb (Z.of_nat (list_length xs t)) lo)
       || (negb (Z.eqb hi (-1)) && Z.ltb hi (Z.of_nat (list_length xs t)))
    then Throw "arity mismatch" s else Ok tt s.
Proof.
  intros Hv Hk. unfold checkArity.
  rewrite (bind_Ok _ _ _ _ _ (listLen_view s k args xs t Hv Hk)).
  now destruct (_ || _).
Qed.

Lemma evaluate_self fs k env val s o :
  heap s !! val = Some o -> self_evaluating o = true ->
  evaluate fs (S k) env val s = Ok val s.
Proof.
  intros Hv Ho. simpl. unfold evaluate_step. rewrite bind_deref, Hv.
  destruct o; try discriminate; reflexivity.
Qed.

Lemma module_init_initial_state k :
  module_init (S k) empty_state = Ok tt initial_state.
Proof. reflexivity. Qed.

(** ** Syntactic comments *)

Lemma get_Some_lt : forall (s : string) n c,
  String.get n s = Some c -> n < String.length s.
Proof.
  induction s as [|a s IH]; intros n c H; [discriminate|].
  destruct n as [|n]; simpl in *; [lia|].
  apply IH in H. lia.
Qed.

Lemma consume_Ok rd c :
  peek rd 0 = Some c ->
  consume rd c = ret (mkReader (source rd) (S (pos rd))).
Proof.
  intros H. unfold consume, peek_is. rewrite H.
  rewrite (proj2 (Ascii.eqb_eq c c) eq_refl).
  unfold advance. unfold peek in H. rewrite Nat.add_0_r in H.
  apply get_Some_lt in H. apply Nat.ltb_lt in H. now rewrite H.
Qed.

(** What [readNext] does at a [#-]: it reads one element after it, drops
    it, and returns what the next call to [readNext] returns. *)
Lemma readNext_block_comment k rd0 s :
  let rd := skipComments (skipWhitespace rd0) in
  atEof rd = false ->
  peek rd 0 = Some "#"%char ->
  peek rd 1 = Some "-"%char ->
  readNext (S k) rd0 s
  = (let* (_, rd3) := readNext k (mkReader (source rd) (S (S (pos rd)))) in
     readNext k rd3) s.
Proof.
  intros rd Heof H0 H1. simpl readNext. unfold readNext_step. fold rd.
  rewrite Heof, H0.
  change (is_digit "#") with false. cbv iota.
  change (Ascii.eqb "#" "(") with false.
  change (Ascii.eqb "#" "[") with false.
  change (Ascii.eqb "#" "'") with false.
  change (Ascii.eqb "#" ",") with false.
  change (Ascii.eqb "#" ch_dquote) with false.
  change (Ascii.eqb "#" "#") with true. cbv iota.
  rewrite (consume_Ok rd "#" H0). unfold bind at 1, ret at 1.
  rewrite consume_Ok.
  - reflexivity.
  - unfold peek in *. simpl pos. simpl source.
    now replace (S (pos rd) + 0) with (pos rd + 1) by lia.
Qed.

(** C7. At a [#-] the reader reads the next complete element exactly as
    [readNext] would return it, discards it, and returns the result of the
    following [readNext]; so [(+ 1 #- 2 3)] reads as the two-argument call
    [(+ 1 3)] and evaluates to the number 4. *)
Theorem block_comment_spec :
  (forall k rd0 s,
      let rd := skipComments (skipWhitespace rd0) in
      atEof rd = false ->
      peek rd 0 = Some "#"%char ->
      peek rd 1 = Some "-"%char ->
      readNext (S k) rd0 s
      = match readNext k (mkReader (source rd) (S (S (pos rd)))) s with
        | Ok (_, rd3) s1 => readNext k rd3 s1
        | Throw msg s1 => Throw msg s1
        | OutOfModel => OutOfModel
        | OutOfFuel => OutOfFuel
        end)
  /\ read_decoded "(+ 1 #- 2 3)" = Some (slist [SSym "+"; SNum 1; SNum 3])
  /\ read_decoded "#- (a b) c" = Some (SSym "c")
  /\ decoded (session "" 40 ["(+ 1 #- 2 3)"]) = Some (SNum 4).
Proof.
  split; [|repeat split; vm_compute; reflexivity].
  intros k rd0 s rd Heof H0 H1.
  rewrite (readNext_block_comment k rd0 s Heof H0 H1). fold rd.
  unfold bind. destruct (readNext k _ s) as [[o rd3] s1| | |]; reflexivity.
Qed.

(** ** The two generations of [=] *)

Lemma forEach_pure {A} (cb : ref -> nat -> A -> M A) (f : ref -> nat -> A -> A) s :
  (forall x i a, cb x i a s = Ok (f x i a) s) ->
  forall xs j list t index acc,
    list_view (heap s) list xs t -> length xs < j ->
    forEach j list cb index acc s = Ok (foldi f xs index acc) s.
Proof.
  intros Hcb.
  induction xs as [|x xs IH]; intros j list t index acc Hv Hj;
    (destruct j as [|j]; [simpl in Hj; lia|]); apply list_view_inv in Hv;
    simpl forEach; rewrite bind_deref.
  - destruct Hv as (-> & o & Ho & Hp). rewrite Ho. now destruct o.
  - destruct Hv as (r & Hl & Hr). rewrite Hl.
    rewrite (bind_Ok _ _ _ _ _ (Hcb x index acc)).
    rewrite bind_deref, Hl. simpl foldi.
    apply IH with (t := t); [exact Hr|simpl in Hj; lia].
Qed.

Lemma superseded_fold x : forall xs i b,
  foldi superseded_step xs i (Some x, b)
  = (Some x, b && forallb (fun o => same o x) xs).
Proof.
  induction xs as [|y xs IH]; intros i b; simpl.
  - now rewrite andb_true_r.
  - unfold superseded_step at 2. simpl. destruct b; simpl.
    + rewrite IH. reflexivity.
    + rewrite IH. reflexivity.
Qed.

Lemma primEqual_superseded_view k env args s xs :
  proper_list (heap s) args xs -> length xs < k ->
  primEqual_superseded k env args s
  = Ok (if all_same xs then trueSym else nil) s.
Proof.
  intros Hv Hk. unfold primEqual_superseded.
  erewrite bind_Ok.
  2:{ apply (forEach_pure _ superseded_step) with (t := nil); [|exact Hv|exact Hk].
      intros x i [[prev|] b]; simpl; [|reflexivity].
      unfold superseded_step. simpl. now destruct b. }
  destruct xs as [|x xs]; [reflexivity|]. simpl foldi.
  unfold superseded_step at 2. simpl fst. simpl snd.
  rewrite superseded_fold. reflexivity.
Qed.

Lemma equal_num k s a b x y :
  heap s !! a = Some (ObjNum x) -> heap s !! b = Some (ObjNum y) -> a <> b ->
  equal (S k) a b s = Ok (Z.eqb x y) s.
Proof.
  intros Ha Hb Hne. simpl. rewrite bind_deref, Ha, bind_deref, Hb. simpl.
  apply same_false in Hne. now rewrite Hne.
Qed.

Lemma evalArg_self fs k env args s x xs index v o :
  proper_list (heap s) args (x :: xs) -> length (x :: xs) < S k ->
  (x :: xs) !! index = Some v ->
  heap s !! v = Some o -> self_evaluating o = true ->
  evalArg (S k) (evaluate fs (S k)) env args index None s = Ok v s.
Proof.
  intros Hv Hk Hi Ho Hs. unfold evalArg.
  rewrite (bind_Ok _ _ _ _ _ (getArg_view s (S k) args x xs index Hv Hk)).
  rewrite Hi. simpl default.
  rewrite (bind_Ok _ _ _ _ _ (evaluate_self fs k env v s o Ho Hs)).
  reflexivity.
Qed.

(** * The interpreter keeps its heap well-formed *)

(** ** Well-formed states: basic facts *)

Lemma pub_mono G G' a : G `prefix_of` G' -> pub G a -> pub G' a.
Proof. intros Hp H. eapply prefix_lookup_Some; eauto. Qed.

Lemma vars_ok_mono G G' a : G `prefix_of` G' -> vars_ok G a -> vars_ok G' a.
Proof. intros Hp [H| ->]; [left|now right]. eapply prefix_lookup_Some; eauto. Qed.

Lemma cell_ok_mono G G' k o : G `prefix_of` G' -> cell_ok G k o -> cell_ok G' k o.
Proof.
  intros Hp. destruct k, o; simpl; intuition eauto using pub_mono, vars_ok_mono.
  eapply prefix_lookup_Some; eauto.
Qed.

Lemma pubs_mono l G G' : G `prefix_of` G' -> pubs l G -> pubs l G'.
Proof.
  intros Hp H. unfold pubs in *. eapply Forall_impl; [exact H|].
  intros a. now apply pub_mono.
Qed.

Lemma pubs_In l G a : pubs l G -> In a l -> pub G a.
Proof. intros H Hin. eapply Forall_forall in H; eauto. now apply list_elem_of_In. Qed.

Lemma pubs_incl l l' G : pubs l' G -> incl l l' -> pubs l G.
Proof.
  intros H Hi. apply Forall_forall. intros a Ha.
  apply list_elem_of_In in Ha. eapply pubs_In; eauto.
Qed.

Lemma pubs_app l1 l2 G : pubs l1 G -> pubs l2 G -> pubs (l1 ++ l2) G.
Proof. intros. now apply Forall_app. Qed.

Lemma pub_valid G s a : wf G s -> pub G a -> exists o, heap s !! a = Some o.
Proof.
  intros Hwf Ha. apply lookup_lt_Some in Ha. rewrite (wf_length _ _ Hwf) in Ha.
  now apply lookup_lt_is_Some_2 in Ha.
Qed.

Lemma cell_frame_refl o : cell_frame o o.
Proof. destruct o; simpl; eauto. Qed.

Lemma cell_frame_trans o1 o2 o3 :
  cell_frame o1 o2 -> cell_frame o2 o3 -> cell_frame o1 o3.
Proof.
  destruct o1; simpl; intros H1 H2; subst; auto.
  destruct H1 as [v ->]. exact H2.
Qed.

Lemma cell_frame_pair o car cdr : cell_frame (ObjPair car cdr) o -> o = ObjPair car cdr.
Proof. auto. Qed.

Lemma ext_but_refl t G s : ext_but t G s G s.
Proof. split; [reflexivity|]. eauto using cell_frame_refl. Qed.

Lemma ext_refl G s : ext G s G s.
Proof. apply ext_but_refl. Qed.

Lemma ext_but_weaken t G s G' s' : ext G s G' s' -> ext_but t G s G' s'.
Proof. intros [Hp H]. split; [exact Hp|]. intros a o Ha _. now apply H. Qed.

(** Composition: the second step may except an object that did not exist, or
    was not public, at the start. *)
Lemma ext_but_trans t t' G s G1 s1 G2 s2 :
  ext_but t G s G1 s1 -> ext_but t' G1 s1 G2 s2 ->
  (forall a, t' = Some a -> pub G a -> t = Some a) ->
  ext_but t G s G2 s2.
Proof.
  intros [Hp1 H1] [Hp2 H2] Ht. split; [etransitivity; eauto|].
  intros a o Ha Hne Ho.
  destruct (H1 a o Ha Hne Ho) as (o1 & Ho1 & Hf1).
  assert (Hne' : Some a <> t').
  { intros E. apply Hne. symmetry. apply Ht; [now symmetry|]. exact Ha. }
  destruct (H2 a o1 (pub_mono _ _ _ Hp1 Ha) Hne' Ho1) as (o2 & Ho2 & Hf2).
  eauto using cell_frame_trans.
Qed.

Lemma ext_trans G s G1 s1 G2 s2 :
  ext G s G1 s1 -> ext G1 s1 G2 s2 -> ext G s G2 s2.
Proof. intros H1 H2. eapply ext_but_trans; [exact H1|exact H2|discriminate]. Qed.

Lemma ext_prefix t G s G' s' : ext_but t G s G' s' -> G `prefix_of` G'.
Proof. now intros [H _]. Qed.

Lemma ext_pub t G s G' s' a : ext_but t G s G' s' -> pub G a -> pub G' a.
Proof. intros [H _]. now apply pub_mono. Qed.

Lemma ext_pubs t G s G' s' l : ext_but t G s G' s' -> pubs l G -> pubs l G'.
Proof. intros [H _]. now apply pubs_mono. Qed.

(** *** Allocation *)

Lemma wf_alloc G s k o :
  wf G s -> cell_ok (G ++ [k]) k o ->
  wf (G ++ [k]) (State (heap s ++ [o]) (symbols s))
  /\ ext G s (G ++ [k]) (State (heap s ++ [o]) (symbols s))
  /\ (G ++ [k]) !! length (heap s) = Some k.
Proof.
  intros Hwf Hok.
  assert (Hpre : G `prefix_of` G ++ [k]) by (now apply prefix_app_r).
  assert (Hnew : (G ++ [k]) !! length (heap s) = Some k).
  { rewrite <- (wf_length _ _ Hwf). rewrite lookup_app_r by lia.
    now rewrite Nat.sub_diag. }
  split; [|split; [|exact Hnew]].
  - constructor; simpl.
    + rewrite !length_app. simpl. now rewrite (wf_length _ _ Hwf).
    + intros a k' o' Hk Ho.
      destruct (decide (a < length (heap s))) as [Hlt|Hge].
      * rewrite lookup_app_l in Ho by exact Hlt.
        rewrite lookup_app_l in Hk by (now rewrite (wf_length _ _ Hwf)).
        eapply cell_ok_mono; [exact Hpre|]. eapply wf_cells; eauto.
      * assert (a = length (heap s)) as ->.
        { apply lookup_lt_Some in Ho. rewrite length_app in Ho. simpl in Ho. lia. }
        rewrite Hnew in Hk. injection Hk as <-.
        rewrite lookup_app_r in Ho by lia. rewrite Nat.sub_diag in Ho.
        injection Ho as <-. exact Hok.
    + destruct (wf_nil _ _ Hwf) as [H1 H2]. split.
      * eapply pub_mono; eauto.
      * now apply lookup_app_l_Some.
    + eapply pub_mono; eauto using wf_true.
    + eapply pub_mono; eauto using wf_symbols.
  - split; [exact Hpre|]. intros a o' Ha _ Ho. exists o'. split.
    + now apply lookup_app_l_Some.
    + apply cell_frame_refl.
Qed.

(** *** Field updates *)

Lemma wf_set_cdr G s p k car cdr v :
  wf G s -> G !! p = Some k -> k <> KSpine ->
  heap s !! p = Some (ObjPair car cdr) -> pub G v ->
  wf G (State (<[p := ObjPair car v]> (heap s)) (symbols s)).
Proof.
  intros Hwf Hk Hns Hp Hv. constructor; simpl.
  - rewrite length_insert. apply (wf_length _ _ Hwf).
  - intros a k' o Hk' Ho.
    destruct (decide (p = a)) as [->|Hne].
    + rewrite list_lookup_insert_eq in Ho by (now apply lookup_lt_Some in Hp).
      injection Ho as <-. rewrite Hk in Hk'. injection Hk' as <-.
      pose proof (wf_cells _ _ Hwf _ _ _ Hk Hp) as Hc.
      destruct k; simpl in *; intuition.
    + rewrite list_lookup_insert_ne in Ho by exact Hne.
      eapply wf_cells; eauto.
  - destruct (wf_nil _ _ Hwf) as [H1 H2]. split; [exact H1|].
    destruct (decide (p = nil)) as [->|Hne].
    + rewrite H2 in Hp. discriminate.
    + now rewrite list_lookup_insert_ne.
  - apply (wf_true _ _ Hwf).
  - apply (wf_symbols _ _ Hwf).
Qed.

Lemma ext_set_cdr G s p car cdr v :
  heap s !! p = Some (ObjPair car cdr) ->
  ext_but (Some p) G s G (State (<[p := ObjPair car v]> (heap s)) (symbols s)).
Proof.
  intros Hp. split; [reflexivity|]. intros a o Ha Hne Ho. exists o. simpl.
  split; [|apply cell_frame_refl].
  rewrite list_lookup_insert_ne; [exact Ho|]. congruence.
Qed.

Lemma ext_set_cdr_private G s p car cdr v :
  heap s !! p = Some (ObjPair car cdr) -> ~ pub G p ->
  ext G s G (State (<[p := ObjPair car v]> (heap s)) (symbols s)).
Proof.
  intros Hp Hnp. split; [reflexivity|]. intros a o Ha _ Ho. exists o. simpl.
  split; [|apply cell_frame_refl].
  rewrite list_lookup_insert_ne; [exact Ho|]. intros ->. contradiction.
Qed.

Lemma wf_set_vars G s env vars up v :
  wf G s -> pub G env -> heap s !! env = Some (ObjEnv vars up) -> vars_ok G v ->
  wf G (State (<[env := ObjEnv v up]> (heap s)) (symbols s))
  /\ ext G s G (State (<[env := ObjEnv v up]> (heap s)) (symbols s)).
Proof.
  intros Hwf He Hp Hv. split.
  - constructor; simpl.
    + rewrite length_insert. apply (wf_length _ _ Hwf).
    + intros a k' o Hk' Ho.
      destruct (decide (env = a)) as [->|Hne].
      * rewrite list_lookup_insert_eq in Ho by (now apply lookup_lt_Some in Hp).
        injection Ho as <-. rewrite He in Hk'. injection Hk' as <-.
        pose proof (wf_cells _ _ Hwf _ _ _ He Hp) as Hc. simpl in *. intuition.
      * rewrite list_lookup_insert_ne in Ho by exact Hne.
        eapply wf_cells; eauto.
    + destruct (wf_nil _ _ Hwf) as [H1 H2]. split; [exact H1|].
      destruct (decide (env = nil)) as [->|Hne].
      * rewrite H2 in Hp. discriminate.
      * now rewrite list_lookup_insert_ne.
    + apply (wf_true _ _ Hwf).
    + apply (wf_symbols _ _ Hwf).
  - split; [reflexivity|]. intros a o Ha _ Ho. simpl.
    destruct (decide (env = a)) as [->|Hne].
    + rewrite list_lookup_insert_eq by (now apply lookup_lt_Some in Hp).
      rewrite Hp in Ho. injection Ho as <-. eexists. split; [reflexivity|].
      simpl. eauto.
    + rewrite list_lookup_insert_ne by exact Hne. eauto using cell_frame_refl.
Qed.

Lemma wf_set_symbols G s v :
  wf G s -> pub G v -> wf G (State (heap s) v) /\ ext G s G (State (heap s) v).
Proof.
  intros Hwf Hv. split.
  - constructor; simpl; try apply Hwf. exact Hv.
  - split; [reflexivity|]. intros a o _ _ Ho. eauto using cell_frame_refl.
Qed.

Lemma wf_initial_state : wf [KPub; KPub; KPub; KPub] initial_state.
Proof.
  constructor; try reflexivity.
  - intros [|[|[|[|a]]]] k o Hk Ho; try discriminate;
      injection Hk as <-; injection Ho as <-; simpl; auto.
    split; reflexivity.
  - split; reflexivity.
Qed.

Lemma set_cdr_Ok_inv p v s u s' :
  set_cdr p v s = Ok u s' ->
  exists car cdr, heap s !! p = Some (ObjPair car cdr)
                  /\ s' = State (<[p := ObjPair car v]> (heap s)) (symbols s).
Proof.
  unfold set_cdr. destruct (heap s !! p) as [[]|]; try discriminate.
  intros H. injection H as <-. eauto.
Qed.

Lemma alloc_Ok_inv o s r s' :
  alloc o s = Ok r s' ->
  r = length (heap s) /\ s' = State (heap s ++ [o]) (symbols s).
Proof. unfold alloc. intros H. injection H as <- <-. auto. Qed.

(** ** Rules for [sound] *)

Lemma pubs_known l G s a : wf G s -> pubs l G -> known l a -> pub G a.
Proof.
  intros Hwf Hl [<-|[<-|Hin]].
  - apply (wf_nil _ _ Hwf).
  - apply (wf_true _ _ Hwf).
  - eapply pubs_In; eauto.
Qed.

Lemma pubs_Forall_known l l' G s :
  wf G s -> pubs l G -> Forall (known l) l' -> pubs l' G.
Proof.
  intros Hwf Hl H. unfold pubs. eapply Forall_impl; [exact H|].
  intros a. now apply (pubs_known l G s).
Qed.

Lemma pub_fields_ok G o : cell_ok G KPub o -> pubs (pub_fields o) G.
Proof. destruct o; simpl; intuition; repeat constructor; auto. Qed.

Lemma sound_weaken_pre {A} (P P' : list kind -> Prop) (m : M A) g :
  sound P m g -> (forall G, P' G -> P G) -> sound P' m g.
Proof. intros H HP G s a s' Hwf Hp. apply H; auto. Qed.

Lemma sound_ret {A} l (a : A) g :
  Forall (known l) (g a) -> sound (pubs l) (ret a) g.
Proof.
  intros Hg G s a' s' Hwf Hl H. injection H as <- <-.
  exists G. split; [exact Hwf|]. split; [apply ext_refl|].
  eapply pubs_Forall_known; eauto.
Qed.

Lemma sound_throw {A} P msg g : sound P (@throw A msg) g.
Proof. intros G s a s' _ _ H. discriminate. Qed.

Lemma sound_outOfFuel {A} P g : sound P (@outOfFuel A) g.
Proof. intros G s a s' _ _ H. discriminate. Qed.

Lemma sound_outOfModel {A} P g : sound P (@outOfModel A) g.
Proof. intros G s a s' _ _ H. discriminate. Qed.

Lemma sound_bind {A B} l (m : M A) (f : A -> M B) g1 g2 :
  sound (pubs l) m g1 ->
  (forall a, sound (pubs (g1 a ++ l)) (f a) g2) ->
  sound (pubs l) (bind m f) g2.
Proof.
  intros Hm Hf G s b s' Hwf Hl H.
  apply bind_Ok_inv in H as (a & s1 & Ha & Hb).
  destruct (Hm G s a s1 Hwf Hl Ha) as (G1 & Hwf1 & He1 & Hg1).
  destruct (Hf a G1 s1 b s' Hwf1) as (G2 & Hwf2 & He2 & Hg2); auto.
  { apply pubs_app; [exact Hg1|]. eapply ext_pubs; eauto. }
  exists G2. eauto using ext_trans.
Qed.

Lemma sound_deref_bind {B} l a (f : Obj -> M B) g :
  known l a ->
  (forall o, sound (pubs (pub_fields o ++ l)) (f o) g) ->
  sound (pubs l) (bind (deref a) f) g.
Proof.
  intros Ha Hf G s b s' Hwf Hl H.
  apply bind_Ok_inv in H as (o & s1 & Ho & Hb).
  apply deref_Ok_inv in Ho as [-> Ho].
  apply (Hf o G s b s' Hwf); [|exact Hb].
  apply pubs_app; [|exact Hl].
  apply pub_fields_ok. eapply wf_cells; eauto. eapply pubs_known; eauto.
Qed.

Lemma sound_read_only {A} P (m : M A) g :
  read_only m ->
  (forall G s a, wf G s -> P G -> m s = Ok a s -> pubs (g a) G) ->
  sound P m g.
Proof.
  intros Hro Hg G s a s' Hwf HP H.
  pose proof (read_only_Ok _ _ _ _ Hro H) as ->.
  exists G. split; [exact Hwf|]. split; [apply ext_refl|]. eauto.
Qed.

Lemma sound_no_refs {A} P (m : M A) : read_only m -> sound P m no_refs.
Proof. intros Hro. apply sound_read_only; [exact Hro|]. intros. constructor. Qed.

Lemma sound_alloc l o : alloc_ok l o -> sound (pubs l) (alloc o) one_ref.
Proof.
  intros Hok G s a s' Hwf Hl H. injection H as <- <-.
  assert (Hc : cell_ok (G ++ [KPub]) KPub o).
  { apply cell_ok_mono with (G := G); [now apply prefix_app_r|].
    destruct o; simpl in *; auto.
    - inversion Hok as [|? ? H1 H2]; subst. inversion H2; subst.
      split; eapply pubs_known; eauto.
    - destruct Hok as [-> Hup]. split; [now right|]. eapply pubs_known; eauto.
    - inversion Hok as [|? ? H1 H2]; subst. inversion H2 as [|? ? H3 H4]; subst.
      inversion H4; subst. repeat split; eapply pubs_known; eauto. }
  destruct (wf_alloc G s KPub o Hwf Hc) as (Hwf' & Hext & Hnew).
  eexists. split; [exact Hwf'|]. split; [exact Hext|].
  repeat constructor. exact Hnew.
Qed.

Lemma sound_get_symbols l : sound (pubs l) get_symbols one_ref.
Proof.
  intros G s a s' Hwf Hl H. injection H as <- <-.
  exists G. split; [exact Hwf|]. split; [apply ext_refl|].
  repeat constructor. apply (wf_symbols _ _ Hwf).
Qed.

Lemma sound_set_symbols l v : known l v -> sound (pubs l) (set_symbols v) no_refs.
Proof.
  intros Hv G s a s' Hwf Hl H. injection H as <- <-.
  destruct (wf_set_symbols G s v Hwf) as [H1 H2]; [eapply pubs_known; eauto|].
  exists G. split; [exact H1|]. split; [exact H2|]. constructor.
Qed.

(** *** Automation *)

Create HintDb sound discriminated.

Ltac solve_known :=
  unfold known in *; simpl in *; rewrite ?in_app_iff in *; simpl in *;
  solve [auto 40 | intuition (auto 40)].

Ltac solve_knowns :=
  unfold one_ref, no_refs, option_refs; simpl;
  repeat (apply List.Forall_cons; [solve_known|]); try apply List.Forall_nil.

#[export] Hint Extern 1 (known _ _) => solve_known : sound.
#[export] Hint Extern 1 (Forall (known _) _) => solve_knowns : sound.
#[export] Hint Extern 1 (alloc_ok _ _) => (simpl; try split; solve [solve_knowns | solve_known | reflexivity]) : sound.
#[export] Hint Resolve sound_get_symbols sound_set_symbols sound_alloc : sound.

Ltac sound_step :=
  lazymatch goal with
  | |- sound _ (bind (deref _) _) _ =>
      apply sound_deref_bind; [solve_known | let o := fresh "o" in intros o; destruct o; simpl pub_fields; simpl app]
  | |- sound _ (bind _ _) _ =>
      eapply sound_bind; [solve [eauto with sound] | intros ?; unfold one_ref, no_refs, option_refs; simpl app]
  | |- sound _ (ret (if ?b then _ else _)) _ => destruct b
  | |- sound _ (ret _) _ => apply sound_ret; solve_knowns
  | |- sound _ (throw _) _ => apply sound_throw
  | |- sound _ outOfFuel _ => apply sound_outOfFuel
  | |- sound _ outOfModel _ => apply sound_outOfModel
  | |- sound _ (if ?b then _ else _) _ => destruct b
  | |- sound _ (match ?x with _ => _ end) _ => destruct x
  | |- sound _ _ _ => solve [eauto with sound]
  end.

Ltac sound_auto := repeat sound_step.

Lemma known_incl l l' a : known l a -> incl l l' -> known l' a.
Proof. unfold known, incl. simpl. intuition. Qed.

Lemma Forall_known_incl l l' xs :
  Forall (known l) xs -> incl l l' -> Forall (known l') xs.
Proof.
  intros H Hi. eapply Forall_impl; [exact H|]. intros a Ha.
  eapply known_incl; eauto.
Qed.

Ltac solve_incl := unfold incl in *; simpl; intros; intuition (auto 40).

Lemma sound_makeNil l : sound (pubs l) makeNil one_ref.
Proof. apply sound_alloc. constructor. Qed.

Lemma sound_makeSymbol l name : sound (pubs l) (makeSymbol name) one_ref.
Proof. apply sound_alloc. constructor. Qed.

Lemma sound_makePair l car cdr :
  known l car -> known l cdr -> sound (pubs l) (makePair car cdr) one_ref.
Proof. intros. apply sound_alloc. simpl. auto. Qed.

Lemma sound_cons l car cdr :
  known l car -> known l cdr -> sound (pubs l) (cons car cdr) one_ref.
Proof. apply sound_makePair. Qed.

Lemma sound_makeNum l value : sound (pubs l) (makeNum value) one_ref.
Proof. apply sound_alloc. constructor. Qed.

Lemma sound_makeString l value : sound (pubs l) (makeString value) one_ref.
Proof. apply sound_alloc. constructor. Qed.

Lemma sound_makeNativeFn l fn : sound (pubs l) (makeNativeFn fn) one_ref.
Proof. apply sound_alloc. constructor. Qed.

Lemma sound_makeFn l env params body type :
  known l env -> known l params -> known l body ->
  sound (pubs l) (makeFn env params body type) one_ref.
Proof. intros. apply sound_alloc. simpl. auto. Qed.

Lemma sound_makeEnv_nil l up : known l up -> sound (pubs l) (makeEnv nil up) one_ref.
Proof. intros. apply sound_alloc. simpl. auto. Qed.

#[export] Hint Resolve sound_makeNil sound_makeSymbol sound_makePair sound_cons
  sound_makeNum sound_makeString sound_makeNativeFn sound_makeFn
  sound_makeEnv_nil : sound.

Lemma intern_loop_read_only k : forall obj name, read_only (intern_loop k obj name).
Proof. induction k; intros; simpl; repeat ro_step. Qed.

Lemma intern_loop_pub k : forall obj name G s r,
  wf G s -> pub G obj -> intern_loop k obj name s = Ok (Some r) s -> pub G r.
Proof.
  induction k as [|k IH]; intros obj name G s r Hwf Hobj H; [discriminate|].
  simpl in H. rewrite bind_deref in H.
  destruct (heap s !! obj) as [o|] eqn:Ho; [|discriminate].
  pose proof (wf_cells _ _ Hwf _ _ _ Hobj Ho) as Hc.
  destruct o; try discriminate. destruct Hc as [Hcar Hcdr].
  rewrite bind_deref in H.
  destruct (heap s !! car) as [c|]; [|discriminate].
  destruct c; try solve [eapply IH; eauto].
  destruct (String.eqb name0 name); [|solve [eapply IH; eauto]].
  injection H as <-. exact Hcar.
Qed.

Lemma sound_intern l k name : sound (pubs l) (intern k name) one_ref.
Proof.
  unfold intern. sound_step.
  eapply sound_bind with (g1 := option_refs).
  - apply sound_read_only; [apply intern_loop_read_only|].
    intros G s [r|] Hwf Hl H; [|constructor]. repeat constructor.
    eapply intern_loop_pub; eauto. eapply pubs_In; eauto. now left.
  - intros [r|]; simpl; sound_auto.
Qed.
#[export] Hint Resolve sound_intern : sound.

(** ** Environments keep their association lists private *)

Lemma find_vars_pub k : forall obj sym G s r s',
  wf G s -> vars_ok G obj -> find_vars k obj sym s = Ok (Some r) s' -> pub G r.
Proof.
  induction k as [|k IH]; intros obj sym G s r s' Hwf Hobj H; [discriminate|].
  simpl in H. rewrite bind_deref in H.
  destruct (heap s !! obj) as [o|] eqn:Ho; [|discriminate].
  destruct Hobj as [Hsp| ->].
  - pose proof (wf_cells _ _ Hwf _ _ _ Hsp Ho) as Hc.
    destruct o; simpl in Hc; try contradiction. destruct Hc as [Hb Hrest].
    rewrite bind_deref in H.
    destruct (heap s !! car) as [b|] eqn:Hbo; [|discriminate].
    pose proof (wf_cells _ _ Hwf _ _ _ Hb Hbo) as Hc.
    destruct b; simpl in Hc; try contradiction. destruct Hc as [Hkey Hv].
    destruct (same car0 sym); [|solve [eapply IH; eauto]].
    injection H as <- <-. exact Hv.
  - destruct (wf_nil _ _ Hwf) as [_ Hn]. rewrite Hn in Ho. injection Ho as <-.
    discriminate.
Qed.

Lemma find_chain_pub k : forall cenv sym G s r s',
  wf G s -> pub G cenv -> find_chain k cenv sym s = Ok (Some r) s' -> pub G r.
Proof.
  induction k as [|k IH]; intros cenv sym G s r s' Hwf Hc H; [discriminate|].
  simpl in H. rewrite bind_deref in H.
  destruct (heap s !! cenv) as [o|] eqn:Ho; [|discriminate].
  pose proof (wf_cells _ _ Hwf _ _ _ Hc Ho) as Hok.
  destruct o; try discriminate. destruct Hok as [Hvars Hup].
  apply bind_Ok_inv in H as (x & s1 & Hx & H).
  pose proof (read_only_Ok _ _ _ _ (find_vars_read_only _ _ _) Hx) as ->.
  destruct x as [v|].
  - injection H as <- <-. eapply find_vars_pub; eauto.
  - eapply IH; eauto.
Qed.

Lemma sound_find l k env sym :
  known l env -> sound (pubs l) (find k env sym) option_refs.
Proof.
  intros Henv. apply sound_read_only; [apply find_read_only|].
  intros G s [r|] Hwf Hl H; [|constructor]. repeat constructor.
  eapply find_chain_pub; eauto. eapply pubs_known; eauto.
Qed.
#[export] Hint Resolve sound_find : sound.

Lemma acons_binding G s sym val a r s' :
  wf G s -> pub G sym -> pub G val -> vars_ok G a ->
  acons sym val a s = Ok r s' ->
  exists G', wf G' s' /\ ext G s G' s' /\ G' !! r = Some KSpine.
Proof.
  intros Hwf Hsym Hval Ha H. unfold acons, cons, makePair, bind, alloc in H.
  injection H as <- <-. simpl.
  assert (Hp1 : G `prefix_of` G ++ [KBind]) by (now apply prefix_app_r).
  destruct (wf_alloc G s KBind (ObjPair sym val) Hwf) as (Hwf1 & He1 & Hn1).
  { simpl. split; eapply pub_mono; eauto. }
  set (s1 := State (heap s ++ [ObjPair sym val]) (symbols s)) in *.
  destruct (wf_alloc (G ++ [KBind]) s1 KSpine (ObjPair (length (heap s)) a) Hwf1)
    as (Hwf2 & He2 & Hn2).
  { simpl. split.
    - eapply prefix_lookup_Some; [exact Hn1|]. now apply prefix_app_r.
    - eapply vars_ok_mono; [|exact Ha]. now do 2 apply prefix_app_r. }
  eexists. split; [exact Hwf2|]. split; [eapply ext_trans; eauto|exact Hn2].
Qed.

Lemma sound_addVariable l env sym val :
  known l env -> known l sym -> known l val ->
  sound (pubs l) (addVariable env sym val) no_refs.
Proof.
  intros Henv Hsym Hval G s a s' Hwf Hl H. unfold addVariable in H.
  rewrite bind_deref in H.
  destruct (heap s !! env) as [o|] eqn:Ho; [|discriminate].
  assert (Hpe : pub G env) by (eapply pubs_known; eauto).
  pose proof (wf_cells _ _ Hwf _ _ _ Hpe Ho) as Hok.
  destruct o; try discriminate. destruct Hok as [Hvars Hup].
  apply bind_Ok_inv in H as (nv & s1 & Hnv & H).
  destruct (acons_binding G s sym val vars nv s1 Hwf) as (G1 & Hwf1 & He1 & Hk);
    eauto using pubs_known.
  unfold set_vars in H.
  destruct (He1) as [Hpre Hfr].
  destruct (Hfr env _ Hpe ltac:(discriminate) Ho) as (o' & Ho' & [vars' ->]).
  rewrite Ho' in H. injection H as <- <-.
  destruct (wf_set_vars G1 s1 env vars' up nv Hwf1) as [Hwf2 He2]; auto.
  { eapply pub_mono; eauto. }
  { now left. }
  exists G1. split; [exact Hwf2|]. split; [eapply ext_trans; eauto|constructor].
Qed.
#[export] Hint Resolve sound_addVariable : sound.

Lemma setVariable_vars_wf k : forall obj sym val G s b s',
  wf G s -> vars_ok G obj -> pub G val ->
  setVariable_vars k obj sym val s = Ok b s' ->
  wf G s' /\ ext G s G s'.
Proof.
  induction k as [|k IH]; intros obj sym val G s b s' Hwf Hobj Hval H;
    [discriminate|].
  simpl in H. rewrite bind_deref in H.
  destruct (heap s !! obj) as [o|] eqn:Ho; [|discriminate].
  destruct Hobj as [Hsp| ->].
  - pose proof (wf_cells _ _ Hwf _ _ _ Hsp Ho) as Hc.
    destruct o; simpl in Hc; try contradiction. destruct Hc as [Hb Hrest].
    rewrite bind_deref in H.
    destruct (heap s !! car) as [bo|] eqn:Hbo; [|discriminate].
    pose proof (wf_cells _ _ Hwf _ _ _ Hb Hbo) as Hc.
    destruct bo; simpl in Hc; try contradiction. destruct Hc as [Hkey Hv].
    destruct (same car0 sym);
      [|exact (IH cdr sym val G s b s' Hwf Hrest Hval H)].
    unfold bind, set_cdr in H. rewrite Hbo in H. injection H as <- <-.
    split.
    + eapply wf_set_cdr; eauto; discriminate.
    + eapply ext_set_cdr_private; [exact Hbo|]. unfold pub. rewrite Hb.
      discriminate.
  - destruct (wf_nil _ _ Hwf) as [_ Hn]. rewrite Hn in Ho. injection Ho as <-.
    injection H as <- <-. split; [exact Hwf|apply ext_refl].
Qed.

Lemma setVariable_chain_wf k : forall cenv sym val G s b s',
  wf G s -> pub G cenv -> pub G val ->
  setVariable_chain k cenv sym val s = Ok b s' ->
  wf G s' /\ ext G s G s'.
Proof.
  induction k as [|k IH]; intros cenv sym val G s b s' Hwf Hc Hval H;
    [discriminate|].
  simpl in H. rewrite bind_deref in H.
  destruct (heap s !! cenv) as [o|] eqn:Ho; [|discriminate].
  pose proof (wf_cells _ _ Hwf _ _ _ Hc Ho) as Hok.
  destruct o; try (injection H as <- <-; split; [exact Hwf|apply ext_refl]).
  destruct Hok as [Hvars Hup].
  apply bind_Ok_inv in H as (done & s1 & Hd & H).
  destruct (setVariable_vars_wf k vars sym val G s done s1 Hwf Hvars Hval Hd)
    as [Hwf1 He1].
  destruct done.
  - injection H as <- <-. auto.
  - destruct (IH up sym val G s1 b s' Hwf1 Hup Hval H) as [Hwf2 He2].
    split; [exact Hwf2|eapply ext_trans; eauto].
Qed.

Lemma sound_setVariable l k env sym val :
  known l env -> known l sym -> known l val ->
  sound (pubs l) (setVariable k env sym val) no_refs.
Proof.
  intros Henv Hsym Hval G s a s' Hwf Hl H. unfold setVariable in H.
  apply bind_Ok_inv in H as (done & s1 & Hd & H).
  destruct (setVariable_chain_wf k env sym val G s done s1 Hwf) as [Hwf1 He1];
    eauto using pubs_known.
  destruct done.
  - injection H as <- <-. exists G. split; [exact Hwf1|].
    split; [exact He1|constructor].
  - destruct (sound_addVariable l env sym val Henv Hsym Hval G s1 a s' Hwf1 Hl H)
      as (G2 & Hwf2 & He2 & Hg).
    exists G2. split; [exact Hwf2|]. split; [eapply ext_trans; eauto|exact Hg].
Qed.
#[export] Hint Resolve sound_setVariable : sound.

Lemma sound_listLen l k list : sound (pubs l) (listLen k list) no_refs.
Proof. apply sound_no_refs, listLen_read_only. Qed.

Lemma sound_equal l k a b : sound (pubs l) (equal k a b) no_refs.
Proof. apply sound_no_refs, equal_read_only. Qed.
#[export] Hint Resolve sound_listLen sound_equal : sound.

Lemma pushEnv_loop_wf k : forall varObj valueObj newVars G s r s',
  wf G s -> pub G varObj -> pub G valueObj -> vars_ok G newVars ->
  pushEnv_loop k varObj valueObj newVars s = Ok r s' ->
  exists G', wf G' s' /\ ext G s G' s' /\ vars_ok G' r.
Proof.
  induction k as [|k IH]; intros varObj valueObj newVars G s r s'
    Hwf Hvar Hval Hnv H; [discriminate|].
  assert (Hstop : forall s0, ret newVars s0 = Ok r s' ->
            s0 = s -> exists G', wf G' s' /\ ext G s G' s' /\ vars_ok G' r).
  { intros s0 E ->. injection E as <- <-. exists G. auto using ext_refl. }
  simpl in H. rewrite bind_deref in H.
  destruct (heap s !! varObj) as [o1|] eqn:Ho1; [|discriminate].
  pose proof (wf_cells _ _ Hwf _ _ _ Hvar Ho1) as Hok1.
  destruct o1; try (eapply Hstop; eauto; fail). destruct Hok1 as [Hvcar Hvcdr].
  rewrite bind_deref in H.
  destruct (heap s !! valueObj) as [o2|] eqn:Ho2; [|discriminate].
  pose proof (wf_cells _ _ Hwf _ _ _ Hval Ho2) as Hok2.
  destruct o2; try (eapply Hstop; eauto; fail). destruct Hok2 as [Hwcar Hwcdr].
  apply bind_Ok_inv in H as (nv & s1 & Hnv1 & H).
  destruct (acons_binding G s car car0 newVars nv s1 Hwf) as (G1 & Hwf1 & He1 & Hk);
    auto.
  destruct (IH cdr cdr0 nv G1 s1 r s' Hwf1) as (G2 & Hwf2 & He2 & Hr); auto.
  { eapply ext_pub; eauto. }
  { eapply ext_pub; eauto. }
  { now left. }
  exists G2. split; [exact Hwf2|]. split; [eapply ext_trans; eauto|exact Hr].
Qed.

Lemma sound_pushEnv l k env vars values :
  known l env -> known l vars -> known l values ->
  sound (pubs l) (pushEnv k env vars values) one_ref.
Proof.
  intros Henv Hvars Hvalues G s r s' Hwf Hl H. unfold pushEnv in H.
  apply bind_Ok_inv in H as (lv & s1 & Hlv & H).
  pose proof (read_only_Ok _ _ _ _ (listLen_read_only _ _) Hlv) as ->.
  apply bind_Ok_inv in H as (lw & s1 & Hlw & H).
  pose proof (read_only_Ok _ _ _ _ (listLen_read_only _ _) Hlw) as ->.
  destruct (negb (lv =? lw)); [discriminate|].
  apply bind_Ok_inv in H as (nv & s1 & Hnv & H).
  destruct (pushEnv_loop_wf k vars values nil G s nv s1 Hwf)
    as (G1 & Hwf1 & He1 & Hk); eauto using pubs_known.
  { now right. }
  unfold makeEnv, alloc in H. injection H as <- <-.
  destruct (wf_alloc G1 s1 KPub (ObjEnv nv env) Hwf1) as (Hwf2 & He2 & Hn2).
  { simpl. split.
    - eapply vars_ok_mono; [|exact Hk]. now apply prefix_app_r.
    - eapply pub_mono; [now apply prefix_app_r|].
      eapply ext_pub; eauto. eapply pubs_known; eauto. }
  eexists. split; [exact Hwf2|]. split; [eapply ext_trans; eauto|].
  repeat constructor. exact Hn2.
Qed.
#[export] Hint Resolve sound_pushEnv : sound.

(** ** Argument access, printing, and the loops *)

Lemma fmt_loop_read_only fmt' :
  (forall obj, read_only (fmt' obj)) ->
  forall left obj output, read_only (fmt_loop fmt' left obj output).
Proof.
  intros Hf. induction left as [|left IH]; intros; simpl; repeat ro_step;
    auto.
Qed.

Lemma fmt_read_only d : forall inputObj, read_only (fmt d inputObj).
Proof.
  induction d as [|d IH]; intros; simpl; repeat ro_step;
    unfold fmt_list; repeat ro_step; apply fmt_loop_read_only; exact IH.
Qed.
#[export] Hint Resolve fmt_read_only : ro.

Lemma print_read_only k inputObj : read_only (print k inputObj).
Proof. unfold print. repeat ro_step. Qed.
#[export] Hint Resolve print_read_only : ro.

Lemma checkArity_read_only k args lo hi : read_only (checkArity k args lo hi).
Proof. unfold checkArity. repeat ro_step. Qed.

Lemma expect_type_read_only type obj : read_only (expect_type type obj).
Proof. unfold expect_type. repeat ro_step. Qed.

Lemma getArg_loop_read_only j : forall obj argIndex index,
  read_only (getArg_loop j obj argIndex index).
Proof. induction j; intros; simpl; repeat ro_step. Qed.
#[export] Hint Resolve checkArity_read_only expect_type_read_only
  getArg_loop_read_only : ro.

Lemma getArg_read_only k args index type : read_only (getArg k args index type).
Proof. unfold getArg. repeat ro_step. Qed.

Lemma isList_read_only list : read_only (isList list).
Proof. unfold isList. repeat ro_step. Qed.

Lemma numeric_read_only op a b : read_only (numeric op a b).
Proof. destruct op; simpl; repeat ro_step. Qed.
#[export] Hint Resolve getArg_read_only isList_read_only numeric_read_only : ro.

Lemma sound_fmt l d obj : sound (pubs l) (fmt d obj) no_refs.
Proof. apply sound_no_refs, fmt_read_only. Qed.

Lemma sound_print l k obj : sound (pubs l) (print k obj) no_refs.
Proof. apply sound_no_refs, print_read_only. Qed.

Lemma sound_checkArity l k args lo hi :
  sound (pubs l) (checkArity k args lo hi) no_refs.
Proof. apply sound_no_refs, checkArity_read_only. Qed.

Lemma sound_expect_type l type obj : sound (pubs l) (expect_type type obj) no_refs.
Proof. apply sound_no_refs, expect_type_read_only. Qed.

Lemma sound_isList l list : sound (pubs l) (isList list) no_refs.
Proof. apply sound_no_refs, isList_read_only. Qed.

Lemma sound_numeric l op a b : sound (pubs l) (numeric op a b) no_refs.
Proof. apply sound_no_refs, numeric_read_only. Qed.
#[export] Hint Resolve sound_fmt sound_print sound_checkArity sound_expect_type
  sound_isList sound_numeric : sound.

Lemma sound_getArg_loop j : forall l obj argIndex index,
  known l obj -> sound (pubs l) (getArg_loop j obj argIndex index) one_ref.
Proof.
  induction j as [|j IH]; intros l obj argIndex index Hobj; simpl;
    [apply sound_outOfFuel|].
  sound_auto.
Qed.
#[export] Hint Resolve sound_getArg_loop : sound.

Lemma sound_getArg l k args index type :
  known l args -> sound (pubs l) (getArg k args index type) one_ref.
Proof. intros Hargs. unfold getArg. sound_auto. Qed.
#[export] Hint Resolve sound_getArg : sound.

Lemma sound_forEach {A} (g : A -> list ref) (cb : ref -> nat -> A -> M A) l0 :
  (forall l x i a, incl l0 l -> known l x -> Forall (known l) (g a) ->
     sound (pubs l) (cb x i a) g) ->
  forall j l list index acc,
    incl l0 l -> known l list -> Forall (known l) (g acc) ->
    sound (pubs l) (forEach j list cb index acc) g.
Proof.
  intros Hcb. induction j as [|j IH]; intros l list index acc Hl Hlist Hacc;
    simpl; [apply sound_outOfFuel|].
  sound_step;
    try solve [apply sound_ret; eapply Forall_known_incl; [exact Hacc|solve_incl]].
  eapply sound_bind.
  - apply Hcb.
    + solve_incl.
    + solve_known.
    + eapply Forall_known_incl; [exact Hacc|solve_incl].
  - intros acc'. sound_step; try apply sound_outOfModel.
    apply IH.
    + intros x Hx. simpl. right. right. apply in_or_app. right. simpl.
      auto 10.
    + solve_known.
    + apply List.Forall_forall. intros x Hx. unfold known. simpl.
      right. right. right. right. apply in_or_app. now left.
Qed.

(** [collect_loop] links each new cell behind [tail]; apart from [tail],
    which it allocated itself, it modifies no public object. *)
Lemma collect_loop_wf (f : ref -> M ref) l0 :
  (forall l x, incl l0 l -> known l x -> sound (pubs l) (f x) one_ref) ->
  forall j obj head tail G s r s',
    wf G s -> pubs l0 G -> pub G obj ->
    (forall h, head = Some h -> pub G h) ->
    (forall t, tail = Some t -> pub G t) ->
    collect_loop f j obj head tail s = Ok r s' ->
    exists G', wf G' s' /\ ext_but tail G s G' s'
               /\ (forall h, r = Some h ->
                     pub G' h /\ (head = Some h \/ length G <= h)).
Proof.
  intros Hf. induction j as [|j IH];
    intros obj head tail G s r s' Hwf Hl0 Hobj Hhead Htail H; [discriminate|].
  simpl in H. rewrite bind_deref in H.
  destruct (heap s !! obj) as [o|] eqn:Ho; [|discriminate].
  pose proof (wf_cells _ _ Hwf _ _ _ Hobj Ho) as Hok.
  assert (Hstop : ret head s = Ok r s' ->
            exists G', wf G' s' /\ ext_but tail G s G' s'
               /\ (forall h, r = Some h ->
                     pub G' h /\ (head = Some h \/ length G <= h))).
  { intros E. injection E as <- <-. exists G. split; [exact Hwf|].
    split; [apply ext_but_refl|]. intros h Hh. split; auto. }
  destruct o; auto. destruct Hok as [Hcar Hcdr].
  apply bind_Ok_inv in H as (result & s1 & Hres & H).
  destruct (Hf (car :: l0) car ltac:(solve_incl) ltac:(solve_known)
              G s result s1 Hwf) as (G1 & Hwf1 & He1 & Hr1);
    [constructor; [exact Hcar|exact Hl0]|exact Hres|].
  assert (Hres1 : pub G1 result) by (inversion Hr1; auto).
  apply bind_Ok_inv in H as ([head' tail'] & s2 & Hht & H).
  simpl fst in H. simpl snd in H.
  (* the state after the new cell has been linked *)
  assert (Hmid : exists G2, wf G2 s2 /\ ext_but tail G1 s1 G2 s2
                 /\ length G1 <= length G2
                 /\ (forall h, head' = Some h ->
                       pub G2 h /\ (head = Some h \/ length G <= h))
                 /\ (forall t, tail' = Some t -> pub G2 t /\ (tail = Some t \/ length G <= t))).
  { assert (Hlen1 : length G <= length G1)
      by (apply prefix_length, (ext_prefix _ _ _ _ _ He1)).
    destruct head as [h|].
    - destruct tail as [t|].
      + apply bind_Ok_inv in Hht as (c & s1' & Hc & Hht).
        apply alloc_Ok_inv in Hc as [-> ->].
        destruct (wf_alloc G1 s1 KPub (ObjPair result nil) Hwf1)
          as (Hwf2 & He2 & Hn2).
        { simpl. split; eapply pub_mono; try (now apply prefix_app_r); auto.
          apply (wf_nil _ _ Hwf1). }
        remember (State (heap s1 ++ [ObjPair result nil]) (symbols s1)) as s1a.
        apply bind_Ok_inv in Hht as ([] & s2' & Hset & Hht).
        injection Hht as <- <- <-.
        apply set_cdr_Ok_inv in Hset as (tcar & tcdr & Hot & ->).
        assert (Hpt : pub (G1 ++ [KPub]) t).
        { eapply pub_mono; [now apply prefix_app_r|].
          eapply ext_pub; eauto. }
        exists (G1 ++ [KPub]). split; [|split; [|split; [|split]]].
        * eapply wf_set_cdr with (k := KPub); eauto; discriminate.
        * eapply (ext_but_trans (Some t) (Some t));
            [apply ext_but_weaken, He2|eapply ext_set_cdr; exact Hot|auto].
        * rewrite length_app. lia.
        * intros h' E. injection E as <-. split; [|now left].
          eapply pub_mono; [now apply prefix_app_r|]. eapply ext_pub; eauto.
        * intros t' E. injection E as <-. split; [exact Hn2|right].
          rewrite <- (wf_length _ _ Hwf1). lia.
      + injection Hht as <- <- <-. exists G1. split; [exact Hwf1|].
        split; [apply ext_but_refl|]. split; [lia|]. split.
        * intros h' E. injection E as <-. split; [|now left].
          eapply ext_pub; eauto.
        * discriminate.
    - apply bind_Ok_inv in Hht as (c & s1' & Hc & Hht).
      apply alloc_Ok_inv in Hc as [-> ->].
      injection Hht as <- <- <-.
      destruct (wf_alloc G1 s1 KPub (ObjPair result nil) Hwf1)
        as (Hwf2 & He2 & Hn2).
      { simpl. split; eapply pub_mono; try (now apply prefix_app_r); auto.
        apply (wf_nil _ _ Hwf1). }
      exists (G1 ++ [KPub]). split; [exact Hwf2|].
      split; [apply ext_but_weaken, He2|]. split; [rewrite length_app; lia|].
      split; intros x E; injection E as <-; (split; [exact Hn2|right]);
        rewrite <- (wf_length _ _ Hwf1); lia. }
  destruct Hmid as (G2 & Hwf2 & He2 & Hlen2 & Hh2 & Ht2).
  assert (He02 : ext_but tail G s G2 s2).
  { eapply ext_but_trans; [apply ext_but_weaken, He1|exact He2|auto]. }
  assert (Hobj2 : pub G2 obj) by (eapply ext_pub; eauto).
  rewrite bind_deref in H.
  destruct (heap s2 !! obj) as [o2|] eqn:Ho2; [|discriminate].
  pose proof (wf_cells _ _ Hwf2 _ _ _ Hobj2 Ho2) as Hok2.
  destruct o2; try discriminate. destruct Hok2 as [_ Hcdr2].
  destruct (IH cdr0 head' tail' G2 s2 r s' Hwf2) as (G3 & Hwf3 & He3 & Hr3);
    [eapply ext_pubs; eauto|exact Hcdr2|intros h E; apply (Hh2 h E)
    |intros t E; apply (Ht2 t E)|exact H|].
  assert (HlenG : length G <= length G2).
  { apply prefix_length, (ext_prefix _ _ _ _ _ He02). }
  exists G3. split; [exact Hwf3|]. split.
  - eapply ext_but_trans; [exact He02|exact He3|].
    intros a -> Ha. destruct (Ht2 a eq_refl) as [_ [E|Hge]]; [exact E|].
    apply lookup_lt_Some in Ha. lia.
  - intros h E. destruct (Hr3 h E) as [Hp [Hh|Hge]].
    + split; [exact Hp|]. apply (Hh2 h Hh).
    + split; [exact Hp|]. right. lia.
Qed.

(** ** The reader builds public objects only *)

Lemma consume_state rd c s rd' s' : consume rd c s = Ok rd' s' -> s' = s.
Proof.
  unfold consume. destruct (peek_is rd 0 c); [|discriminate].
  intros H. now injection H as <- <-.
Qed.

Lemma sound_consume l rd c : sound (pubs l) (consume rd c) no_refs.
Proof.
  apply sound_no_refs. intros s. unfold consume.
  now destruct (peek_is rd 0 c).
Qed.
#[export] Hint Resolve sound_consume : sound.

Ltac sound_unfold := unfold fst_ref, fst_opt, some_obj in *; simpl fst in *.

Lemma sound_readNumber l rd : sound (pubs l) (readNumber rd) fst_ref.
Proof. unfold readNumber. sound_auto. Qed.

Lemma sound_readSymbol l k rd : sound (pubs l) (readSymbol k rd) fst_ref.
Proof. unfold readSymbol. sound_auto. Qed.

Lemma sound_readString l rd : sound (pubs l) (readString rd) fst_ref.
Proof. unfold readString. sound_auto. Qed.
#[export] Hint Resolve sound_readNumber sound_readSymbol sound_readString : sound.

Section ReaderSound.
Variable k : nat.
Variable readNext : Reader -> M (option ref * Reader).
Hypothesis readNext_sound : forall l rd, sound (pubs l) (readNext rd) fst_opt.

Lemma sound_readQuote l rd : sound (pubs l) (readQuote k readNext rd) fst_ref.
Proof.
  unfold readQuote. eapply sound_bind; [apply readNext_sound|].
  intros [[obj|] rd1]; unfold fst_opt; simpl; sound_auto.
Qed.

Lemma sound_readUnquote l rd : sound (pubs l) (readUnquote k readNext rd) fst_ref.
Proof.
  unfold readUnquote. eapply sound_bind; [apply readNext_sound|].
  intros [[obj|] rd1]; unfold fst_opt; simpl; sound_auto.
Qed.

Lemma readList_loop_wf : forall j delim tail rd G s rd' s',
  wf G s -> pub G tail ->
  readList_loop readNext j delim tail rd s = Ok rd' s' ->
  exists G', wf G' s' /\ ext_but (Some tail) G s G' s'.
Proof.
  induction j as [|j IH]; intros delim tail rd G s rd' s' Hwf Htail H;
    [discriminate|].
  simpl in H.
  destruct (peek_is (skipWhitespace rd) 0 delim).
  { injection H as <- <-. exists G. split; [exact Hwf|apply ext_but_refl]. }
  apply bind_Ok_inv in H as ([dotted rd2] & s0 & Hd & H).
  assert (s0 = s) as ->.
  { destruct (peek_is (skipWhitespace rd) 0 ".").
    - apply bind_Ok_inv in Hd as (r & s0' & Hc & Hd).
      apply consume_state in Hc as ->. now injection Hd as <- <- <-.
    - now injection Hd as <- <- <-. }
  apply bind_Ok_inv in H as ([item rd3] & s1 & Hitem & H).
  destruct (readNext_sound [] rd2 G s _ s1 Hwf ltac:(constructor) Hitem)
    as (G1 & Hwf1 & He1 & Hp1).
  destruct item as [item|]; [|discriminate].
  assert (Hitem1 : pub G1 item) by (inversion Hp1; auto).
  assert (Htail1 : pub G1 tail) by (eapply ext_pub; eauto).
  destruct dotted.
  - apply bind_Ok_inv in H as ([] & s2 & Hset & H). injection H as <- <-.
    apply set_cdr_Ok_inv in Hset as (tcar & tcdr & Hot & ->).
    exists G1. split.
    + eapply wf_set_cdr with (k := KPub); eauto; discriminate.
    + eapply (ext_but_trans (Some tail) (Some tail));
        [apply ext_but_weaken, He1|eapply ext_set_cdr; exact Hot|auto].
  - apply bind_Ok_inv in H as (c & s2 & Hc & H).
    apply alloc_Ok_inv in Hc as [-> ->].
    destruct (wf_alloc G1 s1 KPub (ObjPair item nil) Hwf1) as (Hwf2 & He2 & Hn2).
    { simpl. split; eapply pub_mono; try (now apply prefix_app_r); auto.
      apply (wf_nil _ _ Hwf1). }
    remember (State (heap s1 ++ [ObjPair item nil]) (symbols s1)) as s1a.
    apply bind_Ok_inv in H as ([] & s3 & Hset & H).
    apply set_cdr_Ok_inv in Hset as (tcar & tcdr & Hot & ->).
    remember (State (<[tail:=ObjPair tcar (length (heap s1))]> (heap s1a))
                (symbols s1a)) as s3.
    assert (Hwf3 : wf (G1 ++ [KPub]) s3).
    { subst s3. eapply wf_set_cdr with (k := KPub); eauto; try discriminate.
      eapply pub_mono; [now apply prefix_app_r|exact Htail1]. }
    destruct (IH delim (length (heap s1)) rd3 (G1 ++ [KPub]) s3 rd' s' Hwf3 Hn2 H)
      as (G4 & Hwf4 & He4).
    exists G4. split; [exact Hwf4|].
    eapply (ext_but_trans (Some tail) (Some (length (heap s1)))); [|exact He4|].
    + eapply (ext_but_trans (Some tail) (Some tail));
        [apply ext_but_weaken, He1| |auto].
      eapply (ext_but_trans (Some tail) (Some tail));
        [apply ext_but_weaken, He2|subst s3; eapply ext_set_cdr; exact Hot|auto].
    + intros a E Ha. injection E as <-. apply lookup_lt_Some in Ha.
      pose proof (prefix_length _ _ (ext_prefix _ _ _ _ _ He1)).
      rewrite <- (wf_length _ _ Hwf1) in Ha. lia.
Qed.

Lemma sound_readList l delim rd :
  sound (pubs l) (readList k readNext delim rd) fst_ref.
Proof.
  intros G s [r rd'] s' Hwf Hl H. unfold readList in H.
  destruct (peek_is rd 0 delim).
  { injection H as <- <- <-. exists G. split; [exact Hwf|].
    split; [apply ext_refl|]. repeat constructor. apply (wf_nil _ _ Hwf). }
  apply bind_Ok_inv in H as ([obj rd1] & s1 & Hobj & H).
  destruct (readNext_sound [] rd G s _ s1 Hwf ltac:(constructor) Hobj)
    as (G1 & Hwf1 & He1 & Hp1).
  destruct obj as [obj|]; [|discriminate].
  assert (Hobj1 : pub G1 obj) by (inversion Hp1; auto).
  apply bind_Ok_inv in H as (head & s2 & Hc & H).
  apply alloc_Ok_inv in Hc as [-> ->].
  destruct (wf_alloc G1 s1 KPub (ObjPair obj nil) Hwf1) as (Hwf2 & He2 & Hn2).
  { simpl. split; eapply pub_mono; try (now apply prefix_app_r); auto.
    apply (wf_nil _ _ Hwf1). }
  remember (State (heap s1 ++ [ObjPair obj nil]) (symbols s1)) as s1a.
  apply bind_Ok_inv in H as (rd2 & s3 & Hloop & H). injection H as <- <- <-.
  destruct (readList_loop_wf k delim (length (heap s1)) rd1 _ s1a rd2 s3 Hwf2 Hn2 Hloop)
    as (G3 & Hwf3 & He3).
  exists G3. split; [exact Hwf3|]. split.
  - eapply ext_but_trans; [eapply ext_trans; [exact He1|exact He2]|exact He3|].
    intros a E Ha. injection E as <-. apply lookup_lt_Some in Ha.
    pose proof (prefix_length _ _ (ext_prefix _ _ _ _ _ He1)).
    rewrite <- (wf_length _ _ Hwf1) in Ha. lia.
  - repeat constructor. simpl. eapply ext_pub; eauto.
Qed.

Hint Resolve sound_readQuote sound_readUnquote sound_readList : sound.

Lemma sound_readNext_step l rd0 :
  sound (pubs l) (readNext_step k readNext rd0) fst_opt.
Proof.
  unfold readNext_step.
  destruct (atEof _); [sound_auto|].
  destruct (peek _ 0) as [c|]; [|sound_auto].
  repeat (match goal with |- sound _ (if ?b then _ else _) _ => destruct b end);
    try solve [eapply sound_bind; [solve [eauto with sound]|];
               intros [r rd1]; unfold fst_ref, fst_opt, some_obj; simpl; sound_auto].
Qed.
End ReaderSound.

Lemma sound_readNext k : forall l rd, sound (pubs l) (readNext k rd) fst_opt.
Proof.
  induction k as [|k IH]; intros l rd; simpl; [apply sound_outOfFuel|].
  apply sound_readNext_step. exact IH.
Qed.

Lemma sound_read l k rd : sound (pubs l) (read k rd) fst_opt.
Proof. apply sound_readNext. Qed.
#[export] Hint Resolve sound_read sound_readNext : sound.

(** ** The evaluator preserves well-formedness *)

Section KnotSound.
Variable fs : string -> option string.
Variable k : nat.
Variable ev : ref -> ref -> M ref.
Hypothesis ev_sound : forall l env val,
  known l env -> known l val -> sound (pubs l) (ev env val) one_ref.

Lemma sound_readFile l path : sound (pubs l) (readFile fs path) no_refs.
Proof.
  apply sound_no_refs. intros s. unfold readFile. now destruct (fs path).
Qed.
Hint Resolve sound_readFile : sound.

Lemma sound_evalBody l newEnv body :
  known l newEnv -> known l body ->
  sound (pubs l) (evalBody k ev newEnv body) one_ref.
Proof.
  intros Henv Hbody. unfold evalBody.
  apply (sound_forEach one_ref _ l); [|solve_incl|exact Hbody|solve_knowns].
  intros l' x i a Hincl Hx Ha. apply ev_sound; [|exact Hx].
  eapply known_incl; eauto.
Qed.
Hint Resolve sound_evalBody : sound.

Lemma sound_macroExpand l env obj :
  known l env -> known l obj ->
  sound (pubs l) (macroExpand k ev env obj) one_ref.
Proof. intros Henv Hobj. unfold macroExpand. sound_auto. Qed.
Hint Resolve sound_macroExpand : sound.

Lemma evaluateList_wf env list G s r s' :
  wf G s -> pub G env -> pub G list ->
  evaluateList k ev env list s = Ok r s' ->
  exists G', wf G' s' /\ ext G s G' s' /\ pub G' r /\ (r = nil \/ length G <= r).
Proof.
  intros Hwf Henv Hlist H. unfold evaluateList in H.
  apply bind_Ok_inv in H as (head & s1 & Hloop & H).
  destruct (collect_loop_wf (ev env) [env]
              (fun l x Hi Hx => ev_sound l env x
                 (known_incl [env] l env ltac:(solve_known) Hi) Hx)
              k list None None G s head s1 Hwf) as (G1 & Hwf1 & He1 & Hh);
    try discriminate; auto.
  { repeat constructor. exact Henv. }
  destruct head as [h|]; injection H as <- <-.
  - destruct (Hh h eq_refl) as [Hp [E|Hge]]; [discriminate|].
    exists G1. auto.
  - exists G1. split; [exact Hwf1|]. split; [exact He1|].
    split; [apply (wf_nil _ _ Hwf1)|now left].
Qed.

Lemma sound_evaluateList l env list :
  known l env -> known l list ->
  sound (pubs l) (evaluateList k ev env list) one_ref.
Proof.
  intros Henv Hlist G s r s' Hwf Hl H.
  destruct (evaluateList_wf env list G s r s' Hwf) as (G1 & Hwf1 & He1 & Hp & _);
    eauto using pubs_known.
  exists G1. split; [exact Hwf1|]. split; [exact He1|].
  repeat constructor. exact Hp.
Qed.
Hint Resolve sound_evaluateList : sound.

Lemma sound_evalArg l env args index type :
  known l env -> known l args ->
  sound (pubs l) (evalArg k ev env args index type) one_ref.
Proof. intros Henv Hargs. unfold evalArg. sound_auto. Qed.
Hint Resolve sound_evalArg : sound.

Lemma sound_evaluateUnquotes d : forall l env args,
  known l env -> known l args ->
  sound (pubs l) (evaluateUnquotes k ev d env args) one_ref.
Proof.
  induction d as [|d IH]; intros l env args Henv Hargs; simpl;
    [apply sound_outOfFuel|].
  sound_step; try solve [sound_auto].
  sound_step. destruct (same car a); [sound_auto|].
  intros G s r s' Hwf Hl H.
  apply bind_Ok_inv in H as (head & s1 & Hloop & H).
  destruct (collect_loop_wf (evaluateUnquotes k ev d env) [env]
              (fun l x Hi Hx => IH l env x
                 (known_incl [env] l env ltac:(solve_known) Hi) Hx)
              k args None None G s head s1 Hwf) as (G1 & Hwf1 & He1 & Hh);
    try discriminate; auto.
  { repeat constructor. eapply pubs_known; eauto. solve_known. }
  { eapply pubs_known; eauto. solve_known. }
  destruct head as [h|]; injection H as <- <-.
  - destruct (Hh h eq_refl) as [Hp _]. exists G1.
    split; [exact Hwf1|]. split; [exact He1|]. repeat constructor. exact Hp.
  - exists G1. split; [exact Hwf1|]. split; [exact He1|]. repeat constructor.
    eapply ext_pub; eauto. eapply pubs_known; eauto. solve_known.
Qed.
Hint Resolve sound_evaluateUnquotes : sound.

Lemma sound_check_params l params :
  known l params -> sound (pubs l) (check_params k params) no_refs.
Proof.
  intros Hp. unfold check_params.
  apply (sound_forEach no_refs _ l); [|solve_incl|exact Hp|constructor].
  intros l' x i a Hincl Hx Ha. sound_auto.
Qed.
Hint Resolve sound_check_params : sound.

Lemma sound_primPrintln l env args :
  known l env -> known l args ->
  sound (pubs l) (primPrintln k ev env args) one_ref.
Proof.
  intros Henv Hargs. unfold primPrintln.
  sound_step; (eapply sound_bind with (g1 := no_refs); [|intros; sound_auto]);
    try solve [sound_auto].
  sound_step. sound_step; try solve [sound_auto].
  apply (sound_forEach no_refs _ (car0 :: cdr0 :: a :: car :: cdr :: l));
    [|solve_incl|solve_known|constructor].
  intros l' x i u Hincl Hx Ha. sound_auto.
Qed.

Lemma sound_primQuote l env args :
  known l env -> known l args ->
  sound (pubs l) (primQuote k ev env args) one_ref.
Proof. intros Henv Hargs. unfold primQuote. sound_auto. Qed.

Lemma sound_primUnquote l env args :
  known l env -> known l args ->
  sound (pubs l) (primUnquote k ev env args) one_ref.
Proof. intros Henv Hargs. unfold primUnquote. sound_auto. Qed.

Lemma sound_primList l env args :
  known l env -> known l args ->
  sound (pubs l) (primList k ev env args) one_ref.
Proof. intros Henv Hargs. unfold primList. sound_auto. Qed.

Lemma sound_primDefine l env args :
  known l env -> known l args ->
  sound (pubs l) (primDefine k ev env args) one_ref.
Proof. intros Henv Hargs. unfold primDefine. sound_auto. Qed.

Lemma sound_primFn l env args :
  known l env -> known l args ->
  sound (pubs l) (primFn k env args) one_ref.
Proof. intros Henv Hargs. unfold primFn. sound_auto. Qed.
Hint Resolve sound_primFn : sound.

Lemma sound_primDefn l env args :
  known l env -> known l args ->
  sound (pubs l) (primDefn k env args) one_ref.
Proof. intros Henv Hargs. unfold primDefn. sound_auto. Qed.

Lemma sound_primEqual l env args :
  known l env -> known l args ->
  sound (pubs l) (primEqual k ev env args) one_ref.
Proof. intros Henv Hargs. unfold primEqual. sound_auto. Qed.

Lemma sound_primSlurp l env args :
  known l env -> known l args ->
  sound (pubs l) (primSlurp fs k ev env args) one_ref.
Proof. intros Henv Hargs. unfold primSlurp. sound_auto. Qed.

Lemma sound_primCons l env args :
  known l env -> known l args ->
  sound (pubs l) (primCons k ev env args) one_ref.
Proof.
  intros Henv Hargs G s r s' Hwf Hl H. unfold primCons in H.
  apply bind_Ok_inv in H as ([] & s0 & Hc & H).
  pose proof (read_only_Ok _ _ _ _ (checkArity_read_only _ _ _ _) Hc) as ->.
  apply bind_Ok_inv in H as (list & s1 & Hlist & H).
  destruct (evaluateList_wf env args G s list s1 Hwf)
    as (G1 & Hwf1 & He1 & Hp1 & Hfresh); eauto using pubs_known.
  rewrite bind_deref in H.
  destruct (heap s1 !! list) as [o|] eqn:Ho; [|discriminate].
  pose proof (wf_cells _ _ Hwf1 _ _ _ Hp1 Ho) as Hok.
  destruct o; try (injection H as <- <-; exists G1; split; [exact Hwf1|];
                   split; [exact He1|]; repeat constructor;
                   apply (wf_nil _ _ Hwf1)).
  destruct Hok as [Hcar Hcdr]. rewrite bind_deref in H.
  destruct (heap s1 !! cdr) as [oc|] eqn:Hoc; [|discriminate].
  pose proof (wf_cells _ _ Hwf1 _ _ _ Hcdr Hoc) as Hokc.
  destruct oc; try discriminate. destruct Hokc as [Hsecond _].
  apply bind_Ok_inv in H as ([] & s2 & Hset & H). injection H as <- <-.
  apply set_cdr_Ok_inv in Hset as (tcar & tcdr & Hot & ->).
  exists G1. split; [|split].
  - eapply wf_set_cdr with (k := KPub); eauto; discriminate.
  - eapply (ext_but_trans None (Some list)); [exact He1| |].
    + eapply ext_set_cdr. exact Hot.
    + intros a E Ha. injection E as <-. exfalso.
      destruct Hfresh as [->|Hge].
      * destruct (wf_nil _ _ Hwf1) as [_ Hn]. rewrite Hn in Ho. discriminate.
      * apply lookup_lt_Some in Ha. lia.
  - repeat constructor. exact Hp1.
Qed.

Lemma sound_primReaderDebug l env :
  known l env -> sound (pubs l) (primReaderDebug k env) one_ref.
Proof.
  intros Henv. unfold primReaderDebug. sound_step.
  eapply sound_bind; [solve [eauto with sound]|]. intros [d|]; simpl.
  - eapply sound_bind with (g1 := no_refs); [|intros; sound_auto].
    destruct (same d trueSym); sound_auto.
  - sound_auto.
Qed.

Lemma sound_primDefmacro l env args :
  known l env -> known l args ->
  sound (pubs l) (primDefmacro k env args) one_ref.
Proof. intros Henv Hargs. unfold primDefmacro. sound_auto. Qed.

Lemma sound_primMacex l env args :
  known l env -> known l args ->
  sound (pubs l) (primMacex k ev env args) one_ref.
Proof. intros Henv Hargs. unfold primMacex. sound_auto. Qed.

Lemma sound_primError l env args :
  known l env -> known l args ->
  sound (pubs l) (primError k ev env args) one_ref.
Proof. intros Henv Hargs. unfold primError. sound_auto. Qed.

Lemma sound_primIf l env args :
  known l env -> known l args ->
  sound (pubs l) (primIf k ev env args) one_ref.
Proof. intros Henv Hargs. unfold primIf. sound_auto. Qed.

Lemma sound_primString l env args :
  known l env -> known l args ->
  sound (pubs l) (primString k ev env args) one_ref.
Proof.
  intros Henv Hargs. unfold primString. sound_step.
  eapply sound_bind with (g1 := no_refs).
  - apply (sound_forEach no_refs _ l); [|solve_incl|exact Hargs|constructor].
    intros l' x i a' Hincl Hx Ha.
    eapply sound_bind; [apply ev_sound; [eapply known_incl; eauto|exact Hx]|].
    intros earg. sound_auto.
  - intros strings. sound_auto.
Qed.

Lemma sound_createNumericPrim l op env args :
  known l env -> known l args ->
  sound (pubs l) (createNumericPrim k ev op env args) one_ref.
Proof. intros Henv Hargs. unfold createNumericPrim. sound_auto. Qed.

Lemma sound_evalForms j : forall l env rd,
  known l env -> sound (pubs l) (evalForms k ev j env rd) no_refs.
Proof.
  induction j as [|j IH]; intros l env rd Henv; simpl; [apply sound_outOfFuel|].
  destruct (atEof rd); [sound_auto|].
  eapply sound_bind; [apply sound_read|]. intros [[next|] rd']; simpl; sound_auto.
Qed.
Hint Resolve sound_evalForms : sound.

Lemma sound_installPrimitives prims : forall l env,
  known l env -> sound (pubs l) (installPrimitives k env prims) no_refs.
Proof.
  induction prims as [|[name value] prims IH]; intros l env Henv; simpl;
    sound_auto.
Qed.
Hint Resolve sound_installPrimitives : sound.

Lemma sound_createRootEnv l : sound (pubs l) (createRootEnv k) one_ref.
Proof. unfold createRootEnv. sound_auto. Qed.
Hint Resolve sound_createRootEnv : sound.

Lemma sound_createDefaultEnv l : sound (pubs l) (createDefaultEnv fs k ev) one_ref.
Proof. unfold createDefaultEnv. sound_auto. Qed.
Hint Resolve sound_createDefaultEnv : sound.

(** The merge loop of [primImport] walks the module's private association
    list and copies each binding with [addVariable]. *)
Lemma merge_loop_wf env (cb : ref -> nat -> unit -> M unit) :
  cb = (fun obj _ _ =>
          let* ob := deref obj in
          match ob with
          | ObjPair key val =>
              let* ok := deref key in
              match ok with
              | ObjSymbol _ => addVariable env key val
              | _ => ret tt
              end
          | _ => ret tt
          end) ->
  forall j list index G s u s',
    wf G s -> pub G env -> vars_ok G list ->
    forEach j list cb index tt s = Ok u s' ->
    exists G', wf G' s' /\ ext G s G' s'.
Proof.
  intros ->. induction j as [|j IH]; intros list index G s u s' Hwf Henv Hlist H;
    [discriminate|].
  simpl in H. rewrite bind_deref in H.
  destruct (heap s !! list) as [o|] eqn:Ho; [|discriminate].
  destruct Hlist as [Hsp| ->].
  2:{ destruct (wf_nil _ _ Hwf) as [_ Hn]. rewrite Hn in Ho. injection Ho as <-.
      injection H as <- <-. exists G. split; [exact Hwf|apply ext_refl]. }
  pose proof (wf_cells _ _ Hwf _ _ _ Hsp Ho) as Hc.
  destruct o; simpl in Hc; try contradiction. destruct Hc as [Hb Hrest].
  apply bind_Ok_inv in H as ([] & s1 & Hcb & H).
  assert (Hstep : exists G1, wf G1 s1 /\ ext G s G1 s1).
  { rewrite bind_deref in Hcb.
    destruct (heap s !! car) as [ob|] eqn:Hob; [|discriminate].
    pose proof (wf_cells _ _ Hwf _ _ _ Hb Hob) as Hc.
    destruct ob; simpl in Hc; try contradiction. destruct Hc as [Hkey Hval].
    rewrite bind_deref in Hcb.
    destruct (heap s !! car0) as [ok|]; [|discriminate].
    destruct ok; try (injection Hcb as <-; exists G; split;
                      [exact Hwf|apply ext_refl]).
    destruct (sound_addVariable [env; car0; cdr0] env car0 cdr0
                ltac:(solve_known) ltac:(solve_known) ltac:(solve_known)
                G s tt s1 Hwf) as (G1 & Hwf1 & He1 & _); eauto.
    repeat constructor; assumption. }
  destruct Hstep as (G1 & Hwf1 & He1).
  rewrite bind_deref in H.
  destruct (heap s1 !! list) as [o1|] eqn:Ho1; [|discriminate].
  assert (Hsp1 : G1 !! list = Some KSpine).
  { eapply prefix_lookup_Some; [exact Hsp|]. apply (ext_prefix _ _ _ _ _ He1). }
  pose proof (wf_cells _ _ Hwf1 _ _ _ Hsp1 Ho1) as Hc1.
  destruct o1; simpl in Hc1; try contradiction. destruct Hc1 as [_ Hrest1].
  destruct (IH cdr0 (S index) G1 s1 u s' Hwf1) as (G2 & Hwf2 & He2); auto.
  { eapply ext_pub; eauto. }
  exists G2. split; [exact Hwf2|eapply ext_trans; eauto].
Qed.

Lemma sound_primImport l env args :
  known l env -> known l args ->
  sound (pubs l) (primImport fs k ev env args) one_ref.
Proof.
  intros Henv Hargs. unfold primImport. sound_step. sound_step.
  sound_step; try solve [sound_auto].
  sound_step. sound_step. sound_step. sound_step.
  intros G s r s' Hwf Hl H.
  assert (Hp : forall x, known (a3 :: a2 :: a0 :: l) x -> pub G x).
  { intros x Hx. eapply pubs_known; eauto. }
  rewrite bind_deref in H.
  destruct (heap s !! a3) as [om|] eqn:Hom; [|discriminate].
  pose proof (wf_cells _ _ Hwf _ _ _ (Hp a3 ltac:(solve_known)) Hom) as Hok.
  destruct om; try discriminate. destruct Hok as [Hvars Hup].
  apply bind_Ok_inv in H as ([] & s1 & Hloop & H). injection H as <- <-.
  destruct (merge_loop_wf env _ eq_refl k vars 0 G s tt s1 Hwf) as (G1 & Hwf1 & He1);
    auto.
  { apply Hp. solve_known. }
  exists G1. split; [exact Hwf1|]. split; [exact He1|].
  repeat constructor. eapply ext_pub; eauto. apply Hp. solve_known.
Qed.

Lemma sound_callNative l f env args :
  known l env -> known l args ->
  sound (pubs l) (callNative fs k ev f env args) one_ref.
Proof.
  intros Henv Hargs.
  destruct f; simpl;
    eauto using sound_primFn, sound_primDefine, sound_primDefn,
      sound_primDefmacro, sound_primQuote, sound_primUnquote, sound_primList,
      sound_primCons, sound_primMacex, sound_primImport, sound_primIf,
      sound_primError, sound_primString, sound_primSlurp, sound_primPrintln,
      sound_primReaderDebug, sound_primEqual, sound_createNumericPrim.
  sound_auto.
Qed.
Hint Resolve sound_callNative : sound.

Lemma sound_apply_index j : forall l obj currentIndex index,
  known l obj -> sound (pubs l) (apply_index j obj currentIndex index) one_ref.
Proof.
  induction j as [|j IH]; intros l obj currentIndex index Hobj; simpl;
    [apply sound_outOfFuel|].
  sound_auto.
Qed.
Hint Resolve sound_apply_index : sound.

Lemma sound_apply l env fn args :
  known l env -> known l fn -> known l args ->
  sound (pubs l) (apply fs k ev env fn args) one_ref.
Proof. intros Henv Hfn Hargs. unfold apply. sound_auto. Qed.
Hint Resolve sound_apply : sound.

Lemma sound_evaluate_step l env val :
  known l env -> known l val ->
  sound (pubs l) (evaluate_step fs k ev env val) one_ref.
Proof.
  intros Henv Hval. unfold evaluate_step. sound_auto.
Qed.
End KnotSound.

(** The frame theorem: evaluation from a well-formed state, in a public
    environment and of a public form, leaves a well-formed state in which
    every public object that existed is unchanged (an Environment may have
    got new bindings), and returns a public object. *)
Lemma sound_evaluate fs k : forall l env val,
  known l env -> known l val -> sound (pubs l) (evaluate fs k env val) one_ref.
Proof.
  induction k as [|k IH]; intros l env val Henv Hval; simpl;
    [apply sound_outOfFuel|].
  apply sound_evaluate_step; auto.
Qed.

Lemma sound_module_init k : module_init k empty_state = Ok tt initial_state \/
                            module_init k empty_state = OutOfFuel.
Proof. destruct k; [now right|now left]. Qed.

(** Every state a session reaches is well-formed. *)
Lemma wf_session fs k lines r s :
  (let* env := boot fs k in repl fs k env lines None) empty_state = Ok r s ->
  exists G, wf G s.
Proof.
  intros H. apply bind_Ok_inv in H as (env & s1 & Hboot & H).
  unfold boot in Hboot. apply bind_Ok_inv in Hboot as ([] & s0 & Hinit & Hboot).
  destruct (sound_module_init k) as [E|E]; rewrite E in Hinit; [|discriminate].
  injection Hinit as <-.
  destruct (sound_createDefaultEnv fs k (evaluate fs k) (sound_evaluate fs k) []
              _ _ _ _ wf_initial_state ltac:(constructor) Hboot)
    as (G1 & Hwf1 & _ & Hp1).
  assert (Henv : pub G1 env) by (inversion Hp1; auto).
  clear Hboot Hp1. revert G1 s1 Hwf1 Henv H. generalize (@None nat).
  induction lines as [|line lines IH]; intros last G1 s1 Hwf1 Henv H; simpl in H.
  - injection H as <- <-. eauto.
  - apply bind_Ok_inv in H as (v & s2 & Hline & H).
    unfold replLine in Hline.
    apply bind_Ok_inv in Hline as ([next rd] & s3 & Hread & Hline).
    destruct (sound_read [] k _ G1 s1 _ s3 Hwf1 ltac:(constructor) Hread)
      as (G3 & Hwf3 & He3 & Hp3).
    destruct next as [next|].
    + apply bind_Ok_inv in Hline as (v' & s4 & Hev & Hline).
      injection Hline as <- <-.
      destruct (sound_evaluate fs k [env; next] env next ltac:(solve_known)
                  ltac:(solve_known) G3 s3 v' s4 Hwf3) as (G4 & Hwf4 & He4 & _);
        auto.
      { repeat constructor; [eapply ext_pub; eauto|].
        inversion Hp3; auto. }
      eapply IH; [exact Hwf4| |exact H].
      eapply ext_pub; [exact He4|]. eapply ext_pub; eauto.
    + injection Hline as <- <-. injection H as <- <-. eauto.
Qed.

(** ** Lists under construction: basic facts *)

Lemma cells_view_inv h l ps xs t :
  cells_view h l ps xs t ->
  match xs with
  | [] => l = t /\ ps = [] /\ exists o, h !! t = Some o /\ is_pair o = false
  | x :: xs' =>
      exists r ps', ps = l :: ps' /\ h !! l = Some (ObjPair x r)
                    /\ cells_view h r ps' xs' t
  end.
Proof. destruct 1; eauto 10. Qed.

Lemma cells_view_list_view h l ps xs t :
  cells_view h l ps xs t -> list_view h l xs t.
Proof. induction 1; econstructor; eauto. Qed.

Lemma list_view_cells_view h l xs t :
  list_view h l xs t -> exists ps, cells_view h l ps xs t.
Proof.
  induction 1 as [t o Ht Hp | l x r xs t Hl _ [ps IH]].
  - exists []. econstructor; eauto.
  - exists (l :: ps). econstructor; eauto.
Qed.

Lemma cells_view_length h l ps xs t :
  cells_view h l ps xs t -> length ps = length xs.
Proof. induction 1; simpl; auto. Qed.

Lemma cells_view_pub G s l ps xs t :
  wf G s -> pub G l -> cells_view (heap s) l ps xs t -> Forall (pub G) ps.
Proof.
  intros Hwf Hl H. induction H as [t o Ht Hp | l x r ps xs t Hc _ IH];
    constructor; auto.
  apply IH. pose proof (wf_cells _ _ Hwf _ _ _ Hl Hc) as Hok. apply Hok.
Qed.

Lemma cells_view_pub_end G s l ps xs t :
  wf G s -> pub G l -> cells_view (heap s) l ps xs t -> pub G t.
Proof.
  intros Hwf Hl H. induction H as [t o Ht Hp | l x r ps xs t Hc _ IH]; auto.
  apply IH. pose proof (wf_cells _ _ Hwf _ _ _ Hl Hc) as Hok. apply Hok.
Qed.

Lemma cells_view_end h l ps xs t :
  cells_view h l ps xs t -> exists o, h !! t = Some o /\ is_pair o = false.
Proof. induction 1; eauto. Qed.

Lemma cells_view_frame h h' l ps xs t :
  cells_view h l ps xs t ->
  (forall p, p ∈ ps -> h' !! p = h !! p) ->
  (exists o', h' !! t = Some o' /\ is_pair o' = false) ->
  cells_view h' l ps xs t.
Proof.
  intros H Hps Ht. induction H as [t o Hto Hp | l x r ps xs t Hc _ IH].
  - destruct Ht as (o' & Ho' & Hp'). econstructor; eauto.
  - econstructor.
    + rewrite Hps; [exact Hc|]. now left.
    + apply IH; [|exact Ht]. intros p Hp. apply Hps. now right.
Qed.

Lemma chain_frame h h' cells vs stop :
  chain h cells vs stop ->
  (forall c, c ∈ cells -> h' !! c = h !! c) ->
  chain h' cells vs stop.
Proof.
  intros H Hc. induction H as [stop | c v cs vs stop Hcell _ IH]; constructor.
  - rewrite Hc; [exact Hcell|]. now left.
  - apply IH. intros c' Hc'. apply Hc. now right.
Qed.

Lemma hd_snoc {A} (d t : A) cs : hd d (cs ++ [t]) = hd t cs.
Proof. now destruct cs. Qed.

Lemma chain_snoc h cs vs t tv stop :
  chain h cs vs t -> h !! t = Some (ObjPair tv stop) ->
  chain h (cs ++ [t]) (vs ++ [tv]) stop.
Proof.
  intros H Ht. induction H as [t | c v cs vs t Hcell _ IH]; simpl.
  - repeat constructor. exact Ht.
  - constructor; [|now apply IH]. now rewrite hd_snoc.
Qed.

Lemma chain_cells_view h : forall cells vs o,
  chain h cells vs nil -> h !! nil = Some o -> is_pair o = false ->
  cells_view h (hd nil cells) cells vs nil.
Proof.
  intros cells vs o H Hn Hp. induction H as [stop | c v cs vs stop Hcell _ IH].
  - econstructor; eauto.
  - simpl. econstructor; [exact Hcell|]. now apply IH.
Qed.

Lemma chain_length h cells vs stop : chain h cells vs stop -> length cells = length vs.
Proof. induction 1; simpl; auto. Qed.

Lemma head_of_snoc cs t : head_of (cs ++ [t]) = Some (hd t cs).
Proof. now destruct cs. Qed.

Lemma ext_pair_same t G s G' s' a car cdr :
  ext_but t G s G' s' -> pub G a -> Some a <> t ->
  heap s !! a = Some (ObjPair car cdr) ->
  heap s' !! a = Some (ObjPair car cdr).
Proof.
  intros [_ H] Ha Hne Ho. destruct (H a _ Ha Hne Ho) as (o' & Ho' & Hf).
  simpl in Hf. now subst.
Qed.

Lemma cell_frame_is_pair o o' : cell_frame o o' -> is_pair o' = is_pair o.
Proof. destruct o; simpl; try (now intros ->). now intros [vars' ->]. Qed.

Lemma ext_not_pair t G s G' s' a o :
  ext_but t G s G' s' -> pub G a -> Some a <> t ->
  heap s !! a = Some o -> is_pair o = false ->
  exists o', heap s' !! a = Some o' /\ is_pair o' = false.
Proof.
  intros [_ H] Ha Hne Ho Hp. destruct (H a _ Ha Hne Ho) as (o' & Ho' & Hf).
  exists o'. split; [exact Ho'|]. now rewrite (cell_frame_is_pair _ _ Hf).
Qed.

Lemma ext_nil_same t G s G' s' :
  wf G s -> wf G' s' -> ext_but t G s G' s' ->
  heap s' !! nil = heap s !! nil.
Proof.
  intros Hwf Hwf' _. destruct (wf_nil _ _ Hwf) as [_ ->].
  now destruct (wf_nil _ _ Hwf') as [_ ->].
Qed.

(** ** Linking a new cell *)

Lemma link_wf G s tail v :
  wf G s -> pub G v -> tail_ok G s tail -> wf (G ++ [KPub]) (link tail v s).
Proof.
  intros Hwf Hv Ht.
  destruct (wf_alloc G s KPub (ObjPair v nil) Hwf) as (Hwf2 & He2 & Hn2).
  { simpl. split; eapply pub_mono; try (now apply prefix_app_r); auto.
    apply (wf_nil _ _ Hwf). }
  destruct tail as [[t tv]|]; simpl; [|exact Hwf2].
  destruct (Ht t tv eq_refl) as [Hpt Hot].
  apply (wf_set_cdr (G ++ [KPub])
           (State (heap s ++ [ObjPair v nil]) (symbols s)) t KPub tv nil).
  - exact Hwf2.
  - eapply pub_mono; [now apply prefix_app_r|exact Hpt].
  - discriminate.
  - simpl. rewrite lookup_app_l; [exact Hot|]. now apply lookup_lt_Some in Hot.
  - rewrite <- (wf_length _ _ Hwf) in Hn2. rewrite (wf_length _ _ Hwf) in Hn2.
    exact Hn2.
Qed.

Lemma link_old tail v s a :
  a < length (heap s) -> (forall t tv, tail = Some (t, tv) -> a <> t) ->
  heap (link tail v s) !! a = heap s !! a.
Proof.
  intros Ha Hne. destruct tail as [[t tv]|]; simpl.
  - rewrite list_lookup_insert_ne; [|intros E; now apply (Hne t tv eq_refl)].
    now rewrite lookup_app_l.
  - now rewrite lookup_app_l.
Qed.

Lemma link_new tail v s :
  (forall t tv, tail = Some (t, tv) -> t < length (heap s)) ->
  heap (link tail v s) !! length (heap s) = Some (ObjPair v nil).
Proof.
  intros Ht. destruct tail as [[t tv]|]; simpl.
  - rewrite list_lookup_insert_ne; [|specialize (Ht t tv eq_refl); lia].
    rewrite lookup_app_r by lia. now rewrite Nat.sub_diag.
  - rewrite lookup_app_r by lia. now rewrite Nat.sub_diag.
Qed.

Lemma link_tail t tv v s :
  t < length (heap s) ->
  heap (link (Some (t, tv)) v s) !! t = Some (ObjPair tv (length (heap s))).
Proof.
  intros Ht. simpl. apply list_lookup_insert_eq. rewrite length_app. simpl. lia.
Qed.

Lemma link_length tail v s : length (heap (link tail v s)) = S (length (heap s)).
Proof.
  destruct tail as [[t tv]|]; simpl; rewrite ?length_insert, length_app; simpl; lia.
Qed.

(** The middle of the loop body is [link]. *)
Lemma link_run (head : option ref) (tail : option (ref * ref)) v s :
  (head = None <-> tail = None) ->
  (forall t tv, tail = Some (t, tv) -> heap s !! t = Some (ObjPair tv nil)) ->
  (match head, fst <$> tail with
   | None, _ => let* c := cons v nil in ret (Some c, Some c)
   | Some _, Some t =>
       let* c := cons v nil in
       let* _ := set_cdr t c in
       ret (head, Some c)
   | Some _, None => ret (head, fst <$> tail)
   end) s
  = Ok (Some (default (length (heap s)) head), Some (length (heap s))) (link tail v s).
Proof.
  intros Hht Ht. destruct head as [h|].
  - destruct tail as [[t tv]|]; [|now destruct Hht as [_ Hd]; specialize (Hd eq_refl)].
    simpl. unfold bind, cons, makePair, alloc, set_cdr. simpl.
    pose proof (Ht t tv eq_refl) as Hot.
    rewrite lookup_app_l by (now apply lookup_lt_Some in Hot).
    now rewrite Hot.
  - destruct tail as [[t tv]|]; [now destruct Hht as [Hd _]; specialize (Hd eq_refl)|].
    reflexivity.
Qed.

Lemma built_head_tail n0 G s head tail cs vs0 :
  built n0 G s head tail cs vs0 -> (head = None <-> tail = None).
Proof. destruct 1; split; (reflexivity || discriminate). Qed.

Lemma built_tail_ok n0 G s head tail cs vs0 :
  built n0 G s head tail cs vs0 -> tail_ok G s tail.
Proof.
  destruct 1 as [|cs vs0 t tv Hch Ht Hall Hnin]; intros t' tv' E; [discriminate|].
  injection E as <- <-. split; [|exact Ht].
  apply Forall_app in Hall as [_ Hall]. now inversion Hall as [|? ? [_ Hp] _].
Qed.

Lemma tail_ok_ext G s G' s' tail :
  tail_ok G s tail -> ext G s G' s' -> tail_ok G' s' tail.
Proof.
  intros Ht He t tv E. destruct (Ht t tv E) as [Hp Ho]. split.
  - eapply ext_pub; eauto.
  - eapply ext_pair_same; eauto; discriminate.
Qed.

(** One turn of the loop keeps what was built and adds the new cell. *)
Lemma built_link n0 G s head tail cs vs0 G1 s1 v :
  built n0 G s head tail cs vs0 -> wf G s -> wf G1 s1 -> ext G s G1 s1 ->
  n0 <= length G ->
  built n0 (G1 ++ [KPub]) (link tail v s1)
    (Some (default (length (heap s1)) head))
    (Some (length (heap s1), v)) (cs ++ [length (heap s1)]) (vs0 ++ [v]).
Proof.
  intros Hb Hwf Hwf1 He1 Hn0.
  assert (Hpre : G `prefix_of` G1) by (apply (ext_prefix _ _ _ _ _ He1)).
  assert (Hlen : length G <= length (heap s1)).
  { rewrite <- (wf_length _ _ Hwf1). now apply prefix_length. }
  assert (Hnew : pub (G1 ++ [KPub]) (length (heap s1))).
  { unfold pub. rewrite <- (wf_length _ _ Hwf1).
    rewrite lookup_app_r by lia. now rewrite Nat.sub_diag. }
  pose proof (tail_ok_ext _ _ _ _ _ (built_tail_ok _ _ _ _ _ _ _ Hb) He1) as Htok.
  assert (Hvalid : forall a, pub G a -> a < length (heap s1)).
  { intros a Ha. apply lookup_lt_Some in Ha. lia. }
  destruct Hb as [|cs vs0 t tv Hch Ht Hall Hnin].
  - apply (built_some _ _ _ [] [] (length (heap s1)) v).
    + constructor.
    + apply (link_new None). discriminate.
    + repeat constructor; [lia|exact Hnew].
    + apply not_elem_of_nil.
  - destruct (Htok t tv eq_refl) as [Hpt1 Hot1].
    assert (Htlt : t < length (heap s1)) by (now apply lookup_lt_Some in Hot1).
    assert (Hcs : Forall (fun c => n0 <= c /\ pub G c) cs)
      by (now apply Forall_app in Hall as [Hall _]).
    replace (Some (default (length (heap s1)) (Some (hd t cs))))
      with (Some (hd (length (heap s1)) (cs ++ [t])))
      by (now rewrite hd_snoc).
    apply built_some.
    + apply chain_snoc; [|now apply link_tail].
      apply (chain_frame (heap s)); [exact Hch|].
      intros c Hc. rewrite Forall_forall in Hcs. destruct (Hcs c Hc) as [_ Hpc].
      destruct (pub_valid _ _ _ Hwf Hpc) as [o Ho].
      rewrite link_old;
        [|now apply Hvalid|intros t' tv' E; injection E as <- <-; intros ->; contradiction].
      rewrite Ho.
      destruct (proj2 He1 c o Hpc ltac:(discriminate) Ho) as (o' & Ho' & Hf).
      rewrite Ho'. f_equal.
      (* a cell of the chain is a Pair *)
      assert (Hpair : exists a b, o = ObjPair a b).
      { clear -Hch Hc Ho. induction Hch as [|c0 v0 cs0 vs1 stop Hcell _ IH];
          [now apply elem_of_nil in Hc|].
        apply elem_of_cons in Hc as [->|Hc]; [|now apply IH].
        rewrite Hcell in Ho. injection Ho as <-. eauto. }
      destruct Hpair as (a & b & ->). exact Hf.
    + apply (link_new (Some (t, tv))). intros t' tv' E. now injection E as <- <-.
    + rewrite Forall_app. split.
      * eapply Forall_impl; [exact Hall|]. intros c [Hge Hp]. split; [exact Hge|].
        eapply pub_mono; [now apply prefix_app_r|]. eapply pub_mono; eauto.
      * repeat constructor; [lia|exact Hnew].
    + rewrite not_elem_of_app. split.
      * intros Hin. rewrite Forall_forall in Hcs. destruct (Hcs _ Hin) as [_ Hp].
        specialize (Hvalid _ Hp). lia.
      * rewrite not_elem_of_cons. split; [lia|apply not_elem_of_nil].
Qed.

(** ** The loop of [evaluateList] run forward *)

Lemma collect_loop_run (f : ref -> M ref) l0 :
  (forall l x, incl l0 l -> known l x -> sound (pubs l) (f x) one_ref) ->
  forall es ps t j obj head tail cs vs0 G s vs s' n0,
    wf G s -> pubs l0 G -> n0 <= length G ->
    cells_view (heap s) obj ps es t -> Forall (fun p => p < n0) ps -> t < n0 ->
    pub G obj -> length es < j ->
    built n0 G s head tail cs vs0 ->
    collects f tail es s vs s' ->
    exists G' cells,
      collect_loop f j obj head (fst <$> tail) s = Ok (head_of (cs ++ cells)) s'
      /\ wf G' s' /\ G `prefix_of` G'
      /\ chain (heap s') (cs ++ cells) (vs0 ++ vs) nil
      /\ Forall (fun c => n0 <= c /\ pub G' c) (cs ++ cells)
      /\ length cells = length es.
Proof.
  intros Hf. induction es as [|e es IH];
    intros ps t j obj head tail cs vs0 G s vs s' n0
           Hwf Hl0 Hn0 Hview Hps Htn Hobj Hj Hb Hc.
  - apply cells_view_inv in Hview as (-> & -> & o & Ho & Hp).
    inversion Hc; subst. destruct j as [|j]; [simpl in Hj; lia|].
    exists G, []. rewrite !app_nil_r.
    split; [|split; [exact Hwf|split; [reflexivity|split; [|split]]]].
    + simpl. rewrite bind_deref, Ho.
      destruct o; try discriminate; destruct Hb; try reflexivity;
        now rewrite head_of_snoc.
    + destruct Hb; [constructor|]. now apply chain_snoc.
    + destruct Hb; [constructor|assumption].
    + reflexivity.
  - apply cells_view_inv in Hview as (r & ps' & -> & Ho & Hview).
    inversion Hc as [|tail0 e0 es0 s0 v s1 vs' s'0 Hfe Hrest]; subst.
    destruct j as [|j]; [simpl in Hj; lia|].
    destruct (wf_cells _ _ Hwf _ _ _ Hobj Ho) as [Hcar Hcdr].
    destruct (Hf (e :: l0) e ltac:(solve_incl) ltac:(solve_known) G s v s1 Hwf)
      as (G1 & Hwf1 & He1 & Hr1); [constructor; auto|exact Hfe|].
    assert (Hv1 : pub G1 v) by (inversion Hr1; auto).
    assert (Hpre : G `prefix_of` G1) by (apply (ext_prefix _ _ _ _ _ He1)).
    assert (Hpre2 : G `prefix_of` G1 ++ [KPub])
      by (etransitivity; [exact Hpre|now apply prefix_app_r]).
    pose proof (built_tail_ok _ _ _ _ _ _ _ Hb) as Htok.
    pose proof (tail_ok_ext _ _ _ _ _ Htok He1) as Htok1.
    pose proof (link_wf G1 s1 tail v Hwf1 Hv1 Htok1) as Hwf2.
    pose proof (built_link _ _ _ _ _ _ _ G1 s1 v Hb Hwf Hwf1 He1 Hn0) as Hb2.
    (* the cells of the input are older than anything the loop builds *)
    assert (Hlink : forall a, a < n0 -> a < length (heap s1) ->
              heap (link tail v s1) !! a = heap s1 !! a).
    { intros a Hlt Hlt1. apply link_old; [exact Hlt1|].
      intros t0 tv E. destruct Hb as [|cs vs0 t1 tv1 Hch Ht Hall Hnin];
        [discriminate|]. injection E as <- <-.
      apply Forall_app in Hall as [_ Hall]. inversion Hall as [|? ? [Hge _] _].
      lia. }
    assert (Hin : forall a car cdr, pub G a -> a < n0 ->
              heap s !! a = Some (ObjPair car cdr) ->
              heap (link tail v s1) !! a = Some (ObjPair car cdr)).
    { intros a car cdr Ha Hlt Hoa.
      assert (Hoa1 : heap s1 !! a = Some (ObjPair car cdr))
        by (eapply ext_pair_same; eauto; discriminate).
      rewrite Hlink; [exact Hoa1|exact Hlt|now apply lookup_lt_Some in Hoa1]. }
    assert (Hps' : Forall (fun p => p < n0) ps') by (now inversion Hps).
    assert (Hobjlt : obj < n0) by (now inversion Hps).
    pose proof (cells_view_pub G s r ps' es t Hwf Hcdr Hview) as Hpubs.
    pose proof (cells_view_pub_end G s r ps' es t Hwf Hcdr Hview) as Hpt.
    destruct (IH ps' t j r (Some (default (length (heap s1)) head))
                (Some (length (heap s1), v)) (cs ++ [length (heap s1)])
                (vs0 ++ [v]) (G1 ++ [KPub]) (link tail v s1) vs' s' n0)
      as (G' & cells & Hrun & Hwf' & Hpre' & Hch' & Hall' & Hlen').
    + exact Hwf2.
    + eapply pubs_mono; [exact Hpre2|exact Hl0].
    + apply prefix_length in Hpre2. lia.
    + apply (cells_view_frame (heap s)); [exact Hview| |].
      * intros p Hp. rewrite Forall_forall in Hps', Hpubs.
        destruct (pub_valid _ _ _ Hwf (Hpubs p Hp)) as [o Hop].
        assert (Hpair : exists a b, o = ObjPair a b).
        { clear -Hview Hp Hop.
          induction Hview as [t o0 Ht Hnp | l x r0 ps0 xs t Hcell _ IHv];
            [now apply elem_of_nil in Hp|].
          apply elem_of_cons in Hp as [->|Hp]; [|now apply IHv].
          rewrite Hcell in Hop. injection Hop as <-. eauto. }
        destruct Hpair as (a & b & ->). rewrite Hop.
        apply Hin; auto.
      * destruct (cells_view_end _ _ _ _ _ Hview) as (o & Hot & Hnp).
        destruct (ext_not_pair _ _ _ _ _ _ _ He1 Hpt ltac:(discriminate) Hot Hnp)
          as (o' & Hot' & Hnp').
        exists o'. split; [|exact Hnp'].
        rewrite Hlink; [exact Hot'|exact Htn|now apply lookup_lt_Some in Hot'].
    + exact Hps'.
    + exact Htn.
    + eapply pub_mono; [exact Hpre2|exact Hcdr].
    + simpl in Hj. lia.
    + exact Hb2.
    + exact Hrest.
    + exists G', (length (heap s1) :: cells).
      replace (cs ++ length (heap s1) :: cells)
        with ((cs ++ [length (heap s1)]) ++ cells)
        by (now rewrite <- List.app_assoc).
      replace (vs0 ++ v :: vs') with ((vs0 ++ [v]) ++ vs')
        by (now rewrite <- List.app_assoc).
      split; [|split; [exact Hwf'|split; [|split; [exact Hch'|split;
               [exact Hall'|simpl; now rewrite Hlen']]]]].
      * rewrite <- Hrun. simpl collect_loop at 1.
        rewrite bind_deref, Ho. rewrite (bind_Ok _ _ _ _ _ Hfe).
        rewrite (bind_Ok _ _ _ _ _
                   (link_run head tail v s1
                      (built_head_tail _ _ _ _ _ _ _ Hb)
                      (fun t tv E => proj2 (Htok1 t tv E)))).
        rewrite bind_deref, (Hin obj e r Hobj Hobjlt Ho). reflexivity.
      * etransitivity; [exact Hpre2|exact Hpre'].
Qed.

(** ** The checker is sound *)

Lemma pubb_pub G a : pubb G a = true -> pub G a.
Proof. unfold pubb, pub. now destruct (G !! a) as [[]|]. Qed.

Lemma vars_okb_ok G a : vars_okb G a = true -> vars_ok G a.
Proof.
  unfold vars_okb, vars_ok. destruct (G !! a) as [[]|]; auto;
    intros H; right; now apply Nat.eqb_eq in H.
Qed.

Lemma bindb_bind G a : bindb G a = true -> G !! a = Some KBind.
Proof. unfold bindb. now destruct (G !! a) as [[]|]. Qed.

Lemma cell_okb_ok G k o : cell_okb G k o = true -> cell_ok G k o.
Proof.
  destruct k, o; simpl; try discriminate; auto;
    rewrite ?andb_true_iff; intuition auto using pubb_pub, vars_okb_ok, bindb_bind.
Qed.

Lemma cells_okb_ok G0 : forall G h a k o,
  cells_okb G0 G h = true -> G !! a = Some k -> h !! a = Some o -> cell_ok G0 k o.
Proof.
  induction G as [|k0 G IH]; intros h a k o H Hk Ho; [discriminate|].
  destruct h as [|o0 h]; [discriminate|]. simpl in H.
  apply andb_true_iff in H as [H0 H]. destruct a as [|a].
  - injection Hk as <-. injection Ho as <-. now apply cell_okb_ok.
  - eapply IH; eauto.
Qed.

Lemma wfb_sound G s : wfb G s = true -> wf G s.
Proof.
  unfold wfb. rewrite !andb_true_iff.
  intros [[[[[Hlen Hcells] Hnil] Hnil'] Htrue] Hsym]. constructor.
  - now apply Nat.eqb_eq.
  - intros a k o. now apply cells_okb_ok.
  - split; [now apply pubb_pub|]. now destruct (heap s !! nil) as [[]|].
  - now apply pubb_pub.
  - now apply pubb_pub.
Qed.

(** ** [evaluateList] *)

(** C9.  Let [list] be a proper (nil-terminated) list with spine cells [ps]
    and elements [es], in a well-formed state, and let each element evaluate
    without error in [env], one after the other as [evaluateList] runs
    them, to the values [vs].  Then [evaluateList] returns a list [r] of the
    same length whose elements are [vs]; its spine cells are all new (their
    addresses are beyond the heap the call started from), so none of them is
    a cell of the input; and every Pair cell of the input holds what it held
    before, so that [list] is still the same list. *)
Theorem evaluateList_spec fs k env list G s ps es vs s' :
  wf G s -> pub G env -> pub G list ->
  cells_view (heap s) list ps es nil ->
  length es < k ->
  collects (evaluate fs k env) None es s vs s' ->
  exists r cells,
    evaluateList k (evaluate fs k) env list s = Ok r s'
    /\ cells_view (heap s') r cells vs nil
    /\ proper_list (heap s') r vs
    /\ length vs = length es
    /\ Forall (fun c => length (heap s) <= c) cells
    /\ Forall (fun p => heap s' !! p = heap s !! p) ps
    /\ proper_list (heap s') list es
    /\ (forall p, p ∈ ps -> p ∉ cells).
Proof.
  intros Hwf Henv Hlist Hview Hk Hc.
  assert (Hps : Forall (fun p => p < length G) ps).
  { eapply Forall_impl;
      [exact (cells_view_pub G s list ps es nil Hwf Hlist Hview)|].
    intros p Hp. now apply lookup_lt_Some in Hp. }
  destruct (collect_loop_run (evaluate fs k env) [env]
              (fun l x Hi Hx => sound_evaluate fs k l env x
                 (known_incl [env] l env ltac:(solve_known) Hi) Hx)
              es ps nil k list None None [] [] G s vs s' (length G)
              Hwf ltac:(repeat constructor; exact Henv) (le_n _) Hview Hps
              (lookup_lt_Some _ _ _ (proj1 (wf_nil _ _ Hwf)))
              Hlist Hk (built_none _ _ _) Hc)
    as (G' & cells & Hrun & Hwf' & Hpre & Hch & Hall & Hlen).
  simpl in Hrun, Hch, Hall.
  assert (Hret : evaluateList k (evaluate fs k) env list s
                 = Ok (hd nil cells) s').
  { unfold evaluateList. rewrite (bind_Ok _ _ _ _ _ Hrun). now destruct cells. }
  destruct (evaluateList_wf k (evaluate fs k) (sound_evaluate fs k)
              env list G s _ s' Hwf Henv Hlist Hret)
    as (G2 & Hwf2 & He2 & _).
  assert (Hout : cells_view (heap s') (hd nil cells) cells vs nil).
  { destruct (wf_nil _ _ Hwf') as [_ Hn].
    now apply (chain_cells_view _ _ _ ObjNil Hch Hn). }
  assert (Hsame : Forall (fun p => heap s' !! p = heap s !! p) ps).
  { clear -Hview Hwf Hlist He2. revert Hlist.
    induction Hview as [t o Ht Hp | l x r ps xs t Hcell _ IH]; intros Hl;
      constructor.
    - rewrite Hcell. eapply ext_pair_same; eauto; discriminate.
    - apply IH. apply (wf_cells _ _ Hwf _ _ _ Hl Hcell). }
  assert (Hfresh : Forall (fun c => length (heap s) <= c) cells).
  { eapply Forall_impl; [exact Hall|]. intros c [Hge _].
    now rewrite <- (wf_length _ _ Hwf). }
  exists (hd nil cells), cells.
  split; [exact Hret|]. split; [exact Hout|].
  split; [now apply cells_view_list_view in Hout|].
  split; [rewrite <- (chain_length _ _ _ _ Hch); exact Hlen|].
  split; [exact Hfresh|]. split; [exact Hsame|]. split.
  - apply (cells_view_list_view _ _ ps).
    apply (cells_view_frame (heap s)); [exact Hview| |].
    + intros p Hp. rewrite Forall_forall in Hsame. now apply Hsame.
    + exists ObjNil. split; [apply (wf_nil _ _ Hwf')|reflexivity].
  - intros p Hp Hin. rewrite Forall_forall in Hps, Hfresh.
    specialize (Hps p Hp). specialize (Hfresh p Hin).
    rewrite (wf_length _ _ Hwf) in Hps. lia.
Qed.

(** ** [quote] and the resolution of unquotes *)

Lemma cells_view_ext G s G' s' l ps xs t :
  wf G s -> pub G l -> cells_view (heap s) l ps xs t -> ext G s G' s' ->
  cells_view (heap s') l ps xs t
  /\ Forall (fun p => heap s' !! p = heap s !! p) ps.
Proof.
  intros Hwf Hl Hview He. revert Hl.
  induction Hview as [t o Ht Hp | l x r ps xs t Hcell _ IH]; intros Hl.
  - split; [|constructor].
    destruct (ext_not_pair _ _ _ _ _ _ _ He Hl ltac:(discriminate) Ht Hp)
      as (o' & Ho' & Hp').
    econstructor; eauto.
  - destruct (IH (proj2 (wf_cells _ _ Hwf _ _ _ Hl Hcell))) as [IH1 IH2].
    assert (Hcell' : heap s' !! l = Some (ObjPair x r))
      by (eapply ext_pair_same; eauto; discriminate).
    split; [econstructor; eauto|]. constructor; [|exact IH2].
    now rewrite Hcell'.
Qed.

(** C3.  [primQuote] returns what [evaluateUnquotes] makes of its argument.
    [evaluateUnquotes] returns an object that is not a Pair as it is; a Pair
    whose car is the interned symbol [unquote] is replaced by the result of
    evaluating it; any other Pair is replaced by a fresh nil-terminated list
    that holds, in order, what [evaluateUnquotes] makes of the elements of
    its spine, the cells of the input being left as they were.  What comes
    after the last cell of the spine is not looked at: the new list ends
    with [nil] also when the quoted one ends with a dotted tail.  So
    ['(1 ,(+ 1 1) 3)] evaluates to [(1 2 3)], and ['(1 . 2)], which the
    reader accepts as the dotted pair it denotes, evaluates to [(1)]. *)
Theorem primQuote_spec :
  (forall k ev env args s car cdr,
      heap s !! args = Some (ObjPair car cdr) ->
      primQuote k ev env args s = evaluateUnquotes k ev k env car s)
  /\ (forall k ev d env args s o,
        heap s !! args = Some o -> is_pair o = false ->
        evaluateUnquotes k ev (S d) env args s = Ok args s)
  /\ (forall k ev d env args s car cdr s0,
        heap s !! args = Some (ObjPair car cdr) ->
        intern k "unquote" s = Ok car s0 ->
        evaluateUnquotes k ev (S d) env args s = ev env args s0)
  /\ (forall fs k d env args G s ps e es t u s0 vs s',
        wf G s -> pub G env -> pub G args ->
        cells_view (heap s) args ps (e :: es) t ->
        intern k "unquote" s = Ok u s0 -> e <> u ->
        S (length es) < k ->
        collects (evaluateUnquotes k (evaluate fs k) d env) None
          (e :: es) s0 vs s' ->
        exists r cells,
          evaluateUnquotes k (evaluate fs k) (S d) env args s = Ok r s'
          /\ cells_view (heap s') r cells vs nil
          /\ length vs = S (length es)
          /\ Forall (fun c => length (heap s) <= c) cells
          /\ Forall (fun p => heap s' !! p = heap s !! p) ps)
  /\ decoded (session "" 40 ["'(1 ,(+ 1 1) 3)"])
     = Some (slist [SNum 1; SNum 2; SNum 3])
  /\ read_decoded "(1 . 2)" = Some (SCons (SNum 1) (SNum 2))
  /\ decoded (session "" 40 ["'(1 . 2)"]) = Some (slist [SNum 1]).
Proof.
  split; [|split; [|split; [|split;
    [|split; [|split]; vm_compute; reflexivity]]]].
  - intros k ev env args s car cdr Hargs. unfold primQuote.
    now rewrite bind_deref, Hargs.
  - intros k ev d env args s o Hargs Hp. simpl.
    rewrite bind_deref, Hargs. now destruct o.
  - intros k ev d env args s car cdr s0 Hargs Hu. simpl.
    rewrite bind_deref, Hargs. rewrite (bind_Ok _ _ _ _ _ Hu).
    now rewrite same_refl.
  - intros fs k d env args G s ps e es t u s0 vs s'
           Hwf Henv Hargs Hview Hu Hne Hk Hc.
    destruct (sound_intern [] k "unquote" G s u s0 Hwf ltac:(constructor) Hu)
      as (G0 & Hwf0 & He0 & _).
    destruct (cells_view_ext _ _ _ _ _ _ _ _ Hwf Hargs Hview He0)
      as [Hview0 _].
    assert (Hpre0 : G `prefix_of` G0) by (apply (ext_prefix _ _ _ _ _ He0)).
    assert (Hlt : forall a, pub G a -> a < length G0).
    { intros a Ha. apply lookup_lt_Some in Ha. apply prefix_length in Hpre0. lia. }
    pose proof (cells_view_pub G s args ps (e :: es) t Hwf Hargs Hview) as Hps.
    pose proof (cells_view_pub_end G s args ps (e :: es) t Hwf Hargs Hview) as Hpt.
    destruct (collect_loop_run (evaluateUnquotes k (evaluate fs k) d env) [env]
                (fun l x Hi Hx =>
                   sound_evaluateUnquotes k (evaluate fs k) (sound_evaluate fs k)
                     d l env x
                     (known_incl [env] l env ltac:(solve_known) Hi) Hx)
                (e :: es) ps t k args None None [] [] G0 s0 vs s' (length G0)
                Hwf0
                ltac:(repeat constructor; eapply pub_mono; eauto)
                (le_n _) Hview0
                ltac:(eapply Forall_impl; [exact Hps|exact Hlt])
                (Hlt _ Hpt)
                ltac:(eapply pub_mono; eauto)
                Hk (built_none _ _ _) Hc)
      as (G' & cells & Hrun & Hwf' & Hpre & Hch & Hall & Hlen).
    simpl in Hrun, Hch, Hall.
    destruct cells as [|c cells]; [discriminate|].
    assert (Hret : evaluateUnquotes k (evaluate fs k) (S d) env args s = Ok c s').
    { apply cells_view_inv in Hview as (r & ps' & -> & Hcell & _).
      simpl. rewrite bind_deref, Hcell. rewrite (bind_Ok _ _ _ _ _ Hu).
      rewrite (proj2 (same_false e u) Hne). now rewrite (bind_Ok _ _ _ _ _ Hrun). }
    destruct (sound_evaluateUnquotes k (evaluate fs k) (sound_evaluate fs k)
                (S d) [env; args] env args ltac:(solve_known) ltac:(solve_known)
                G s c s' Hwf ltac:(repeat constructor; assumption) Hret)
      as (G2 & Hwf2 & He2 & _).
    exists c, (c :: cells). split; [exact Hret|]. split.
    + destruct (wf_nil _ _ Hwf') as [_ Hn].
      exact (chain_cells_view _ _ _ ObjNil Hch Hn eq_refl).
    + split; [rewrite <- (chain_length _ _ _ _ Hch); exact Hlen|]. split.
      * eapply Forall_impl; [exact Hall|]. intros a [Hge _].
        rewrite <- (wf_length _ _ Hwf). apply prefix_length in Hpre0. lia.
      * apply (cells_view_ext _ _ _ _ _ _ _ _ Hwf Hargs Hview He2).
Qed.

(** ** Macro expansion *)

Lemma last_cons_default {A} (v : A) vs acc : List.last (v :: vs) acc = List.last vs v.
Proof.
  revert v acc. induction vs as [|w vs IH]; intros v acc; [reflexivity|].
  change (List.last (v :: w :: vs) acc) with (List.last (w :: vs) acc).
  now rewrite !IH.
Qed.

Lemma wf_same_kinds G G' s : wf G s -> wf G' s -> G `prefix_of` G' -> G' = G.
Proof.
  intros Hwf Hwf' Hpre. symmetry. apply prefix_length_eq; [exact Hpre|].
  rewrite (wf_length _ _ Hwf), (wf_length _ _ Hwf'). lia.
Qed.

(** [forEach] with a callback that keeps its last result. *)
Lemma forEach_run (f : ref -> M ref) l0 :
  (forall l x, incl l0 l -> known l x -> sound (pubs l) (f x) one_ref) ->
  forall es ps t j list index acc G s vs s',
    wf G s -> pubs l0 G -> pub G list ->
    cells_view (heap s) list ps es t -> length es < j ->
    runs f es s vs s' ->
    forEach j list (fun obj _ _ => f obj) index acc s = Ok (List.last vs acc) s'.
Proof.
  intros Hf. induction es as [|e es IH];
    intros ps t j list index acc G s vs s' Hwf Hl0 Hlist Hview Hj Hr;
    (destruct j as [|j]; [simpl in Hj; lia|]).
  - apply cells_view_inv in Hview as (-> & -> & o & Ho & Hp).
    inversion Hr; subst. simpl. rewrite bind_deref, Ho. now destruct o.
  - apply cells_view_inv in Hview as (r & ps' & -> & Ho & Hview).
    inversion Hr as [|e0 es0 s0 v s1 vs' s'0 Hfe Hrest]; subst.
    destruct (wf_cells _ _ Hwf _ _ _ Hlist Ho) as [Hcar Hcdr].
    destruct (Hf (e :: l0) e ltac:(solve_incl) ltac:(solve_known) G s v s1 Hwf)
      as (G1 & Hwf1 & He1 & _); [constructor; auto|exact Hfe|].
    rewrite last_cons_default. simpl forEach.
    rewrite bind_deref, Ho. rewrite (bind_Ok _ _ _ _ _ Hfe).
    rewrite bind_deref.
    rewrite (ext_pair_same _ _ _ _ _ _ _ _ He1 Hlist ltac:(discriminate) Ho).
    apply (IH ps' t j r (S index) v G1 s1 vs' s' Hwf1).
    + eapply ext_pubs; eauto.
    + eapply ext_pub; eauto.
    + apply (cells_view_ext _ _ _ _ _ _ _ _ Hwf Hcdr Hview He1).
    + simpl in Hj. lia.
    + exact Hrest.
Qed.

Lemma macroExpand_run fs k env obj G s hd args name m params body menv
      newEnv s1 forms vs s' :
  wf G s -> pub G env -> pub G obj ->
  heap s !! obj = Some (ObjPair hd args) ->
  heap s !! hd = Some (ObjSymbol name) ->
  find k env hd s = Ok (Some m) s ->
  heap s !! m = Some (ObjFn IsMacro params body menv) ->
  pushEnv k env params args s = Ok newEnv s1 ->
  proper_list (heap s) body forms -> length forms < k ->
  runs (evaluate fs k newEnv) forms s1 vs s' ->
  macroExpand k (evaluate fs k) env obj s = Ok (List.last vs nil) s'.
Proof.
  intros Hwf Henv Hobj Ho Hhd Hfind Hm Hpush Hbody Hk Hruns.
  destruct (wf_cells _ _ Hwf _ _ _ Hobj Ho) as [Hphd Hpargs].
  destruct (sound_find [env; hd] k env hd ltac:(solve_known)
              G s (Some m) s Hwf ltac:(repeat constructor; assumption) Hfind)
    as (G0 & Hwf0 & He0 & Hpm).
  rewrite (wf_same_kinds _ _ _ Hwf Hwf0 (ext_prefix _ _ _ _ _ He0)) in Hpm.
  assert (Hpubm : pub G m) by (inversion Hpm; auto).
  destruct (wf_cells _ _ Hwf _ _ _ Hpubm Hm) as (Hpp & Hpb & _).
  destruct (sound_pushEnv [env; params; args] k env params args
              ltac:(solve_known) ltac:(solve_known) ltac:(solve_known)
              G s newEnv s1 Hwf ltac:(repeat constructor; assumption) Hpush)
    as (G1 & Hwf1 & He1 & Hpn).
  assert (Hpnew : pub G1 newEnv) by (inversion Hpn; auto).
  destruct (list_view_cells_view _ _ _ _ Hbody) as [ps Hview].
  unfold macroExpand. rewrite bind_deref, Ho, bind_deref, Hhd.
  rewrite (bind_Ok _ _ _ _ _ Hfind). rewrite bind_deref, Hm.
  rewrite (bind_Ok _ _ _ _ _ Hpush). unfold evalBody.
  apply (forEach_run (evaluate fs k newEnv) [newEnv]
           (fun l x Hi Hx => sound_evaluate fs k l newEnv x
              (known_incl [newEnv] l newEnv ltac:(solve_known) Hi) Hx)
           forms ps nil k body 0 nil G1 s1 vs s' Hwf1).
  - repeat constructor. exact Hpnew.
  - eapply ext_pub; eauto.
  - apply (cells_view_ext _ _ _ _ _ _ _ _ Hwf Hpb Hview He1).
  - exact Hk.
  - exact Hruns.
Qed.

(** C2. When the head of a Pair is a Symbol bound to a Macro, [macroExpand]
    binds the macro's parameter list to the unevaluated argument list with
    [pushEnv] and then evaluates the body forms in the new environment; when
    the body is a proper list of forms that evaluate without error one after
    the other, the result is the value of the last form ([nil] for an empty
    body).  [primMacex] is exactly one such expansion of its single argument,
    with no evaluation of the result.  With [double] defined as in the test
    suite, [(macex (double 5))] is the list [(quote (5 5))]. *)
Theorem macroExpand_spec :
  (forall k ev env obj s hd args name m params body menv,
      heap s !! obj = Some (ObjPair hd args) ->
      heap s !! hd = Some (ObjSymbol name) ->
      find k env hd s = Ok (Some m) s ->
      heap s !! m = Some (ObjFn IsMacro params body menv) ->
      macroExpand k ev env obj s
      = (let* newEnv := pushEnv k env params args in
         forEach k body (fun form _ _ => ev newEnv form) 0 nil) s)
  /\ (forall fs k env obj G s hd args name m params body menv
             newEnv s1 forms vs s',
        wf G s -> pub G env -> pub G obj ->
        heap s !! obj = Some (ObjPair hd args) ->
        heap s !! hd = Some (ObjSymbol name) ->
        find k env hd s = Ok (Some m) s ->
        heap s !! m = Some (ObjFn IsMacro params body menv) ->
        pushEnv k env params args s = Ok newEnv s1 ->
        proper_list (heap s) body forms -> length forms < k ->
        runs (evaluate fs k newEnv) forms s1 vs s' ->
        macroExpand k (evaluate fs k) env obj s = Ok (List.last vs nil) s')
  /\ (forall k ev env obj s margs,
        proper_list (heap s) margs [obj] -> 1 < k ->
        primMacex k ev env margs s = macroExpand k ev env obj s)
  /\ decoded (session "" 40
                ["(defmacro double (x) '(quote (,x ,x)))"; "(macex (double 5))"])
     = Some (slist [SSym "quote"; slist [SNum 5; SNum 5]]).
Proof.
  split; [|split; [exact macroExpand_run|split; [|vm_compute; reflexivity]]].
  - intros k ev env obj s hd args name m params body menv Hobj Hhd Hfind Hm.
    unfold macroExpand. rewrite bind_deref, Hobj, bind_deref, Hhd.
    rewrite (bind_Ok _ _ _ _ _ Hfind). rewrite bind_deref, Hm. reflexivity.
  - intros k ev env obj s margs Hv Hk. unfold primMacex.
    rewrite (bind_Ok _ _ _ _ _ (eq_trans (checkArity_view s k margs [obj] nil 1 1 Hv
                                  ltac:(simpl; lia)) eq_refl)).
    apply list_view_inv in Hv as (r & Hl & Hr).
    now rewrite bind_deref, Hl.
Qed.

(** * Further properties of the interpreter *)

(** ** The symbol table *)

Lemma intern_loop_Some k : forall obj name s u s',
  intern_loop k obj name s = Ok (Some u) s' ->
  s' = s /\ heap s !! u = Some (ObjSymbol name).
Proof.
  induction k as [|k IH]; intros obj name s u s' H; [discriminate|].
  simpl in H. rewrite bind_deref in H.
  destruct (heap s !! obj) as [o|] eqn:Ho; [|discriminate].
  destruct o; try discriminate. rewrite bind_deref in H.
  destruct (heap s !! car) as [c|] eqn:Hc; [|discriminate].
  destruct c; try (now apply IH in H).
  destruct (String.eqb name0 name) eqn:E; [|now apply IH in H].
  injection H as <- <-. apply String.eqb_eq in E. now subst.
Qed.

(** Appending objects to the heap changes no walk through the table. *)
Lemma intern_loop_app k : forall obj name s r new sy,
  intern_loop k obj name s = Ok r s ->
  intern_loop k obj name (State (heap s ++ new) sy)
  = Ok r (State (heap s ++ new) sy).
Proof.
  induction k as [|k IH]; intros obj name s r new sy H; [discriminate|].
  simpl in H |- *. rewrite bind_deref in H |- *. simpl heap.
  destruct (heap s !! obj) as [o|] eqn:Ho; [|discriminate].
  rewrite (lookup_app_l_Some _ _ _ _ Ho).
  destruct o; try (injection H as <-; reflexivity).
  rewrite bind_deref in H |- *. simpl heap.
  destruct (heap s !! car) as [c|] eqn:Hc; [|discriminate].
  rewrite (lookup_app_l_Some _ _ _ _ Hc).
  destruct c; try (now apply IH).
  destruct (String.eqb name0 name); [|now apply IH].
  injection H as <-. reflexivity.
Qed.

Lemma intern_found k name s u :
  intern_loop k (symbols s) name s = Ok (Some u) s -> intern k name s = Ok u s.
Proof. intros H. unfold intern, bind, get_symbols. now rewrite H. Qed.

(** The two ways [intern] returns. *)
Lemma intern_Ok_inv k name s u s1 :
  intern k name s = Ok u s1 ->
  (s1 = s /\ intern_loop k (symbols s) name s = Ok (Some u) s)
  \/ (u = length (heap s)
      /\ s1 = State (heap s ++ [ObjSymbol name; ObjPair (length (heap s)) (symbols s)])
                    (S (length (heap s)))
      /\ intern_loop k (symbols s) name s = Ok None s).
Proof.
  intros H. unfold intern in H.
  apply bind_Ok_inv in H as (obj & s0 & Hg & H). injection Hg as <- <-.
  apply bind_Ok_inv in H as (found & s0 & Hl & H).
  pose proof (read_only_Ok _ _ _ _ (intern_loop_read_only _ _ _) Hl) as ->.
  destruct found as [sym|].
  - injection H as <- <-. now left.
  - right. unfold bind, makeSymbol, alloc, get_symbols, cons, makePair, alloc,
      set_symbols in H. simpl in H. injection H as <- <-.
    rewrite length_app, <- List.app_assoc. simpl. rewrite Nat.add_1_r. auto.
Qed.

(** With fuel for every cell of the table, the walk comes to an end. *)
Lemma intern_loop_total name s : forall obj xs t k,
  list_view (heap s) obj xs t ->
  Forall (fun x => is_Some (heap s !! x)) xs ->
  length xs < k ->
  exists r, intern_loop k obj name s = Ok r s.
Proof.
  intros obj xs t k Hv. revert k.
  induction Hv as [t o Ht Hp | l x r xs t Hc _ IH]; intros k Hall Hk.
  - destruct k as [|k]; [simpl in Hk; lia|]. simpl. rewrite bind_deref, Ht.
    destruct o; try discriminate; eauto.
  - destruct k as [|k]; [simpl in Hk; lia|]. simpl. rewrite bind_deref, Hc.
    apply Forall_cons in Hall as [[c Hx] Hall]. rewrite bind_deref, Hx.
    assert (Hrest : exists r0, intern_loop k r name s = Ok r0 s)
      by (apply IH; [exact Hall|simpl in Hk; lia]).
    destruct c; try exact Hrest.
    destruct (String.eqb name0 name); [eauto|exact Hrest].
Qed.

(** X1.  When the symbol table is a list (of any objects, ending anywhere),
    [intern] returns: with a Symbol object that carries the name.  Interning
    the same name again returns the very same object and changes nothing (so
    symbols can be compared by reference); existing objects are never
    touched; and two different names never share an object. *)
Theorem intern_canonical k name s xs t :
  list_view (heap s) (symbols s) xs t ->
  Forall (fun x => is_Some (heap s !! x)) xs ->
  length xs < k ->
  exists u s1,
    intern k name s = Ok u s1
    /\ heap s1 !! u = Some (ObjSymbol name)
    /\ intern k name s1 = Ok u s1
    /\ heap s `prefix_of` heap s1
    /\ (forall name' u' s2,
          intern k name' s1 = Ok u' s2 -> name' <> name -> u' <> u).
Proof.
  intros Hv Hall Hk.
  assert (Hret : exists u s1, intern k name s = Ok u s1).
  { destruct (intern_loop_total name s _ _ _ k Hv Hall Hk) as [[sym|] Hl].
    - exists sym, s. now apply intern_found.
    - unfold intern, bind, get_symbols. rewrite Hl.
      unfold makeSymbol, alloc, cons, makePair, alloc, set_symbols. simpl. eauto. }
  destruct Hret as (u & s1 & H). exists u, s1. split; [exact H|].
  assert (Hmain : heap s1 !! u = Some (ObjSymbol name)
                  /\ intern k name s1 = Ok u s1
                  /\ heap s `prefix_of` heap s1).
  { destruct (intern_Ok_inv _ _ _ _ _ H) as [[-> Hl]|(-> & -> & Hl)].
    - split; [apply (intern_loop_Some _ _ _ _ _ _ Hl)|]. split; [exact H|reflexivity].
    - simpl heap. split; [|split; [|now apply prefix_app_r]].
      + rewrite lookup_app_r by lia. now rewrite Nat.sub_diag.
      + apply intern_found. simpl symbols. destruct k as [|k]; [discriminate|].
        simpl. rewrite bind_deref. simpl heap.
        rewrite lookup_app_r by lia.
        replace (S (length (heap s)) - length (heap s)) with 1 by lia. simpl.
        rewrite bind_deref. simpl heap.
        rewrite lookup_app_r by lia. rewrite Nat.sub_diag. simpl.
        now rewrite String.eqb_refl. }
  destruct Hmain as (Hu & Hagain & Hpre). repeat split; auto.
  intros name' u' s2 H' Hne ->.
  assert (Hu2 : heap s2 !! u = Some (ObjSymbol name)).
  { destruct (intern_Ok_inv _ _ _ _ _ H') as [[-> _]|(_ & -> & _)]; [exact Hu|].
    simpl. now apply lookup_app_l_Some. }
  assert (Hu2' : heap s2 !! u = Some (ObjSymbol name')).
  { destruct (intern_Ok_inv _ _ _ _ _ H') as [[-> Hl]|(Hlen & -> & _)].
    - apply (intern_loop_Some _ _ _ _ _ _ Hl).
    - simpl. rewrite Hlen. rewrite lookup_app_r by lia. now rewrite Nat.sub_diag. }
  rewrite Hu2 in Hu2'. injection Hu2' as E. now apply Hne.
Qed.

(** X2.  Once a name is interned it keeps its symbol: interning another
    name afterwards (which may extend the table) does not change what
    [intern] returns for the first. *)
Theorem intern_stable k name name' s u u' s' :
  intern k name s = Ok u s ->
  intern k name' s = Ok u' s' ->
  intern (S k) name s' = Ok u s'.
Proof.
  intros H H'.
  assert (Hl : intern_loop k (symbols s) name s = Ok (Some u) s).
  { destruct (intern_Ok_inv _ _ _ _ _ H) as [[_ Hl]|(_ & E & _)]; [exact Hl|].
    exfalso. apply (f_equal (fun x => length (heap x))) in E. simpl in E.
    rewrite length_app in E. simpl in E. lia. }
  assert (Hfuel : forall j obj r s0,
             intern_loop j obj name s0 = Ok r s0 ->
             intern_loop (S j) obj name s0 = Ok r s0).
  { clear. induction j as [|j IH]; intros obj r s0 H; [discriminate|].
    simpl in H. remember (S j) as j'. simpl. subst j'.
    rewrite bind_deref in H |- *.
    destruct (heap s0 !! obj) as [o|]; [|discriminate].
    destruct o; try exact H. rewrite bind_deref in H |- *.
    destruct (heap s0 !! car) as [c|]; [|discriminate].
    destruct c; try (now apply IH).
    destruct (String.eqb name0 name); [exact H|now apply IH]. }
  destruct (intern_Ok_inv _ _ _ _ _ H') as [[-> _]|(-> & -> & Hn)].
  - apply intern_found. now apply Hfuel.
  - apply intern_found. simpl symbols.
    remember (heap s ++ [ObjSymbol name'; ObjPair (length (heap s)) (symbols s)])
      as h' eqn:Eh.
    change (intern_loop (S k) (S (length (heap s))) name
              (State h' (S (length (heap s))))
            = Ok (Some u) (State h' (S (length (heap s))))).
    cbn [intern_loop]. rewrite bind_deref. simpl heap.
    assert (E1 : h' !! S (length (heap s))
                 = Some (ObjPair (length (heap s)) (symbols s))).
    { subst h'. rewrite lookup_app_r by lia.
      now replace (S (length (heap s)) - length (heap s)) with 1 by lia. }
    assert (E0 : h' !! length (heap s) = Some (ObjSymbol name')).
    { subst h'. rewrite lookup_app_r by lia. now rewrite Nat.sub_diag. }
    rewrite E1. rewrite bind_deref. simpl heap. rewrite E0.
    destruct (String.eqb name' name) eqn:E.
    + apply String.eqb_eq in E. subst name'. rewrite Hl in Hn. discriminate.
    + subst h'. now apply intern_loop_app.
Qed.

(** ** Environments: binding and lookup *)

Lemma find_vars_fuel k : forall obj sym s r,
  find_vars k obj sym s = Ok r s -> find_vars (S k) obj sym s = Ok r s.
Proof.
  induction k as [|k IH]; intros obj sym s r H; [discriminate|].
  simpl in H. remember (S k) as k'. simpl. subst k'.
  rewrite bind_deref in H |- *.
  destruct (heap s !! obj) as [o|]; [|discriminate].
  destruct o; try exact H. rewrite bind_deref in H |- *.
  destruct (heap s !! car) as [b|]; [|discriminate].
  destruct b; try (now apply IH).
  destruct (same car0 sym); [exact H|now apply IH].
Qed.

Lemma find_vars_Ok_state k : forall obj sym s r s',
  find_vars k obj sym s = Ok r s' -> s' = s.
Proof.
  induction k as [|k IH]; intros obj sym s r s' H; [discriminate|].
  simpl in H. rewrite bind_deref in H.
  destruct (heap s !! obj) as [o|]; [|discriminate].
  destruct o; try (now injection H). rewrite bind_deref in H.
  destruct (heap s !! car) as [b|]; [|discriminate].
  destruct b; try (now apply IH in H).
  destruct (same car0 sym); [now injection H|now apply IH in H].
Qed.

Lemma find_chain_fuel k : forall cenv sym s r,
  find_chain k cenv sym s = Ok r s -> find_chain (S k) cenv sym s = Ok r s.
Proof.
  induction k as [|k IH]; intros cenv sym s r H; [discriminate|].
  simpl in H. remember (S k) as k'. simpl. subst k'.
  rewrite bind_deref in H |- *.
  destruct (heap s !! cenv) as [o|]; [|discriminate].
  destruct o; try exact H.
  apply bind_Ok_inv in H as (r1 & s1 & Hv & H).
  pose proof (find_vars_Ok_state _ _ _ _ _ _ Hv) as ->.
  rewrite (bind_Ok _ _ _ _ _ (find_vars_fuel _ _ _ _ _ Hv)).
  destruct r1; [exact H|now apply IH].
Qed.

(** A walk through a list of bindings reads Pair cells only, so it is not
    affected by a change that leaves every Pair as it is and turns no other
    object into a Pair. *)
Lemma find_vars_agree (s s' : state) :
  (forall a o, heap s !! a = Some o ->
     exists o', heap s' !! a = Some o'
                /\ (if is_pair o then o' = o else is_pair o' = false)) ->
  forall k obj sym r,
    find_vars k obj sym s = Ok r s -> find_vars k obj sym s' = Ok r s'.
Proof.
  intros Hag. induction k as [|k IH]; intros obj sym r H; [discriminate|].
  simpl in H |- *. rewrite bind_deref in H |- *.
  destruct (heap s !! obj) as [o|] eqn:Ho; [|discriminate].
  destruct (Hag _ _ Ho) as (o' & -> & Ho').
  destruct o; simpl in Ho';
    try (injection H as <-; destruct o'; try discriminate; reflexivity).
  subst o'. rewrite bind_deref in H |- *.
  destruct (heap s !! car) as [b|] eqn:Hb; [|discriminate].
  destruct (Hag _ _ Hb) as (b' & -> & Hb').
  destruct b; simpl in Hb';
    try (destruct b'; try discriminate; now apply IH).
  subst b'. destruct (same car0 sym); [|now apply IH].
  injection H as <-. reflexivity.
Qed.

Lemma bound_agree env sym val s vars up :
  heap s !! env = Some (ObjEnv vars up) ->
  forall a o, heap s !! a = Some o ->
    exists o', heap (bound env sym val s vars up) !! a = Some o'
               /\ (if is_pair o then o' = o else is_pair o' = false).
Proof.
  intros He a o Ho. simpl. destruct (decide (a = env)) as [->|Hne].
  - rewrite He in Ho. injection Ho as <-.
    exists (ObjEnv (S (length (heap s))) up). split; [|reflexivity].
    apply list_lookup_insert_eq. rewrite length_app.
    apply lookup_lt_Some in He. lia.
  - exists o. split.
    + rewrite list_lookup_insert_ne by congruence. now apply lookup_app_l_Some.
    + now destruct (is_pair o).
Qed.

Lemma bound_lookup_env env sym val s vars up :
  heap s !! env = Some (ObjEnv vars up) ->
  heap (bound env sym val s vars up) !! env
  = Some (ObjEnv (S (length (heap s))) up).
Proof.
  intros He. simpl. apply list_lookup_insert_eq. rewrite length_app.
  apply lookup_lt_Some in He. lia.
Qed.

Lemma bound_lookup_cells env sym val s vars up :
  heap s !! env = Some (ObjEnv vars up) ->
  heap (bound env sym val s vars up) !! S (length (heap s))
  = Some (ObjPair (length (heap s)) vars)
  /\ heap (bound env sym val s vars up) !! length (heap s)
     = Some (ObjPair sym val).
Proof.
  intros He. apply lookup_lt_Some in He. simpl.
  rewrite !list_lookup_insert_ne by lia.
  rewrite !lookup_app_r by lia. rewrite Nat.sub_diag.
  now replace (S (length (heap s)) - length (heap s)) with 1 by lia.
Qed.

(** Lookups of other symbols after [addVariable]. *)
Lemma find_chain_bound env sym val s vars up sym' :
  heap s !! env = Some (ObjEnv vars up) -> sym <> sym' ->
  forall k c r,
    find_chain k c sym' s = Ok r s ->
    find_chain (S k) c sym' (bound env sym val s vars up)
    = Ok r (bound env sym val s vars up).
Proof.
  intros He Hne. set (s' := bound env sym val s vars up).
  pose proof (bound_agree env sym val s vars up He) as Hag. fold s' in Hag.
  induction k as [|k IH]; intros c r H; [discriminate|].
  simpl in H. remember (S k) as k'. simpl. subst k'.
  rewrite bind_deref in H |- *.
  destruct (heap s !! c) as [o|] eqn:Ho; [|discriminate].
  destruct (decide (c = env)) as [->|Hc].
  - rewrite He in Ho. injection Ho as <-.
    unfold s' at 1. rewrite (bound_lookup_env _ _ _ _ _ _ He).
    apply bind_Ok_inv in H as (r1 & s1 & Hv & H).
    pose proof (find_vars_Ok_state _ _ _ _ _ _ Hv) as ->.
    assert (Hv' : find_vars (S k) (S (length (heap s))) sym' s' = Ok r1 s').
    { destruct (bound_lookup_cells env sym val s vars up He) as [E1 E0].
      cbn [find_vars]. rewrite bind_deref. fold s' in E1, E0. rewrite E1.
      rewrite bind_deref, E0. rewrite (proj2 (same_false sym sym') Hne).
      now apply (find_vars_agree s s' Hag). }
    rewrite (bind_Ok _ _ _ _ _ Hv').
    destruct r1; [injection H as <-; reflexivity|now apply IH].
  - destruct (Hag _ _ Ho) as (o' & Ho' & Hrel).
    assert (o' = o) as ->.
    { unfold s' in Ho'. simpl in Ho'.
      rewrite list_lookup_insert_ne in Ho' by congruence.
      rewrite (lookup_app_l_Some _ _ _ _ Ho) in Ho'. now injection Ho'. }
    rewrite Ho'. destruct o; try (injection H as <-; reflexivity).
    apply bind_Ok_inv in H as (r1 & s1 & Hv & H).
    pose proof (find_vars_Ok_state _ _ _ _ _ _ Hv) as ->.
    rewrite (bind_Ok _ _ _ _ _
               (find_vars_fuel _ _ _ _ _ (find_vars_agree s s' Hag _ _ _ _ Hv))).
    destruct r1; [injection H as <-; reflexivity|now apply IH].
Qed.

Lemma find_bound k env sym val s vars up :
  heap s !! env = Some (ObjEnv vars up) ->
  find (S (S k)) env sym (bound env sym val s vars up)
  = Ok (Some val) (bound env sym val s vars up).
Proof.
  intros He.
  destruct (bound_lookup_cells env sym val s vars up He) as [E1 E0].
  assert (Hv : find_vars (S k) (S (length (heap s))) sym
                 (bound env sym val s vars up)
               = Ok (Some val) (bound env sym val s vars up)).
  { cbn [find_vars]. rewrite bind_deref, E1, bind_deref, E0.
    now rewrite same_refl. }
  unfold find. cbn [find_chain]. rewrite bind_deref.
  rewrite (bound_lookup_env _ _ _ _ _ _ He).
  now rewrite (bind_Ok _ _ _ _ _ Hv).
Qed.

(** X3.  [addVariable] prepends one binding to the frame it is given: a
    lookup of the symbol from that frame then returns the new value
    (shadowing any earlier binding), and the lookup of every other symbol,
    from any environment, returns what it returned before. *)
Theorem addVariable_find k env sym val s vars up :
  heap s !! env = Some (ObjEnv vars up) ->
  exists s',
    addVariable env sym val s = Ok tt s'
    /\ find (S (S k)) env sym s' = Ok (Some val) s'
    /\ (forall j c sym' r,
          sym' <> sym -> find j c sym' s = Ok r s ->
          find (S j) c sym' s' = Ok r s').
Proof.
  intros He. exists (bound env sym val s vars up).
  split; [now apply addVariable_Ok|]. split.
  - now apply find_bound.
  - intros j c sym' r Hne H. unfold find in *.
    apply find_chain_bound; auto.
Qed.

Lemma app_agree (s : state) new sy :
  forall a o, heap s !! a = Some o ->
    exists o', heap (State (heap s ++ new) sy) !! a = Some o'
               /\ (if is_pair o then o' = o else is_pair o' = false).
Proof.
  intros a o Ho. exists o. split; [now apply lookup_app_l_Some|].
  now destruct (is_pair o).
Qed.

Lemma find_chain_app (s : state) new sy : forall k c sym r,
  find_chain k c sym s = Ok r s ->
  find_chain k c sym (State (heap s ++ new) sy) = Ok r (State (heap s ++ new) sy).
Proof.
  induction k as [|k IH]; intros c sym r H; [discriminate|].
  simpl in H |- *. rewrite bind_deref in H |- *. simpl heap.
  destruct (heap s !! c) as [o|] eqn:Ho; [|discriminate].
  rewrite (lookup_app_l_Some _ _ _ _ Ho).
  destruct o; try (injection H as <-; reflexivity).
  apply bind_Ok_inv in H as (r1 & s1 & Hv & H).
  pose proof (find_vars_Ok_state _ _ _ _ _ _ Hv) as ->.
  rewrite (bind_Ok _ _ _ _ _
             (find_vars_agree s _ (app_agree s new sy) _ _ _ _ Hv)).
  destruct r1; [injection H as <-; reflexivity|now apply IH].
Qed.

(** X4.  Lookup in the frame [pushEnv] builds: a symbol of the parameter
    list resolves to the argument at its last position in the list, and every
    other symbol resolves as it did in the parent environment. *)
Theorem pushEnv_find k env vars values s ps tp vs tv sym r :
  list_view (heap s) vars ps tp -> list_view (heap s) values vs tv ->
  length ps < k -> length vs < k ->
  list_length ps tp = list_length vs tv ->
  heap s !! nil = Some ObjNil ->
  find k env sym s = Ok r s ->
  exists e s',
    pushEnv k env vars values s = Ok e s'
    /\ find (S k) e sym s'
       = Ok (match assoc sym (rev (zip ps vs)) with
             | Some v => Some v
             | None => r
             end) s'.
Proof.
  intros Hp Hv Hkp Hkv Heq Hnil Hfind.
  pose proof (pushEnv_Ok k env vars values s ps tp vs tv Hp Hv Hkp Hkv Heq) as H.
  cbv zeta in H.
  set (kvs := zip ps vs) in *.
  set (h1 := heap s ++ push_cells (length (heap s)) nil kvs) in *.
  set (top := push_top (length (heap s)) nil kvs) in *.
  set (s' := State (h1 ++ [ObjEnv top env]) (symbols s)) in *.
  exists (length h1), s'. split; [exact H|].
  assert (He : heap s' !! length h1 = Some (ObjEnv top env)).
  { simpl. rewrite lookup_app_r by lia. now rewrite Nat.sub_diag. }
  assert (Hal : alist_view (heap s') top (rev kvs) nil).
  { apply alist_view_app_heap, push_cells_alist. }
  assert (Hn' : heap s' !! nil = Some ObjNil).
  { simpl. unfold h1. rewrite <- List.app_assoc. now apply lookup_app_l_Some. }
  assert (Hlen : length (rev kvs) < k).
  { rewrite length_rev. unfold kvs. rewrite length_zip. lia. }
  unfold find. cbn [find_chain]. rewrite bind_deref, He.
  rewrite (bind_Ok _ _ _ _ _
             (find_vars_alist s' (rev kvs) k top nil ObjNil sym Hal Hn' eq_refl Hlen)).
  destruct (assoc sym (rev kvs)); [reflexivity|].
  unfold s', h1. rewrite <- List.app_assoc. now apply find_chain_app.
Qed.

(** ** Assignment *)

Lemma first_in_vars_kind G s sym : forall k obj b,
  wf G s -> vars_ok G obj ->
  first_in_vars k (heap s) obj sym = Some (Some b) -> G !! b = Some KBind.
Proof.
  intros k obj b Hwf. revert obj.
  induction k as [|k IH]; intros obj Hobj H; [discriminate|].
  simpl in H. destruct (heap s !! obj) as [o|] eqn:Ho; [|discriminate].
  destruct Hobj as [Hsp| ->].
  2:{ destruct (wf_nil _ _ Hwf) as [_ Hn]. rewrite Hn in Ho.
      injection Ho as <-. discriminate. }
  pose proof (wf_cells _ _ Hwf _ _ _ Hsp Ho) as Hc.
  destruct o; simpl in Hc; try contradiction. destruct Hc as [Hb Hrest].
  destruct (heap s !! car) as [ob|] eqn:Hob; [|discriminate].
  destruct ob; try (now apply (IH cdr)).
  destruct (same car0 sym); [|now apply (IH cdr)].
  now injection H as <-.
Qed.

Lemma first_in_vars_update G s b sym old val : forall k obj,
  wf G s -> vars_ok G obj -> G !! b = Some KBind ->
  heap s !! b = Some (ObjPair sym old) ->
  first_in_vars k (<[b := ObjPair sym val]> (heap s)) obj sym
  = first_in_vars k (heap s) obj sym.
Proof.
  intros k obj Hwf. revert obj.
  induction k as [|k IH]; intros obj Hobj Hkb Hb; [reflexivity|].
  assert (Hother : forall a, G !! a <> Some KBind ->
            <[b := ObjPair sym val]> (heap s) !! a = heap s !! a).
  { intros a Ha. apply list_lookup_insert_ne. intros ->. contradiction. }
  simpl. destruct Hobj as [Hsp| ->].
  2:{ rewrite Hother; [|destruct (wf_nil _ _ Hwf) as [Hp _]; unfold pub in Hp;
                         rewrite Hp; discriminate].
      destruct (wf_nil _ _ Hwf) as [_ ->]. reflexivity. }
  rewrite Hother by (rewrite Hsp; discriminate).
  destruct (heap s !! obj) as [o|] eqn:Ho; [|reflexivity].
  pose proof (wf_cells _ _ Hwf _ _ _ Hsp Ho) as Hc.
  destruct o; simpl in Hc; try contradiction. destruct Hc as [Hkc Hrest].
  destruct (decide (car = b)) as [->|Hne].
  - rewrite list_lookup_insert_eq by (now apply lookup_lt_Some in Hb).
    rewrite Hb. destruct (same sym sym); [reflexivity|now apply IH].
  - rewrite list_lookup_insert_ne by congruence.
    destruct (heap s !! car) as [ob|]; [|reflexivity].
    destruct ob; try (now apply IH).
    destruct (same car0 sym); [reflexivity|now apply IH].
Qed.

Lemma first_binding_kind G s sym : forall k cenv b,
  wf G s -> pub G cenv ->
  first_binding k (heap s) cenv sym = Some (Some b) -> G !! b = Some KBind.
Proof.
  intros k cenv b Hwf. revert cenv.
  induction k as [|k IH]; intros cenv Hc H; [discriminate|].
  simpl in H. destruct (heap s !! cenv) as [o|] eqn:Ho; [|discriminate].
  pose proof (wf_cells _ _ Hwf _ _ _ Hc Ho) as Hok.
  destruct o; try discriminate. destruct Hok as [Hv Hup].
  destruct (first_in_vars k (heap s) vars sym) as [[b'|]|] eqn:E;
    try discriminate.
  - injection H as <-. eapply first_in_vars_kind; eauto.
  - now apply (IH up).
Qed.

Lemma first_binding_update G s b sym old val : forall k cenv,
  wf G s -> pub G cenv -> G !! b = Some KBind ->
  heap s !! b = Some (ObjPair sym old) ->
  first_binding k (<[b := ObjPair sym val]> (heap s)) cenv sym
  = first_binding k (heap s) cenv sym.
Proof.
  intros k cenv Hwf. revert cenv.
  induction k as [|k IH]; intros cenv Hc Hkb Hb; [reflexivity|].
  simpl. rewrite list_lookup_insert_ne
    by (intros ->; unfold pub in Hc; rewrite Hc in Hkb; discriminate).
  destruct (heap s !! cenv) as [o|] eqn:Ho; [|reflexivity].
  pose proof (wf_cells _ _ Hwf _ _ _ Hc Ho) as Hok.
  destruct o; try reflexivity. destruct Hok as [Hv Hup].
  rewrite (first_in_vars_update G s b sym old val k vars Hwf Hv Hkb Hb).
  destruct (first_in_vars k (heap s) vars sym) as [[b'|]|]; try reflexivity.
  now apply IH.
Qed.

(** A walk that does not finish is not a normal return. *)
Lemma setVariable_vars_None sym val : forall k obj s r s',
  first_in_vars k (heap s) obj sym = None ->
  setVariable_vars k obj sym val s <> Ok r s'.
Proof.
  induction k as [|k IH]; intros obj s r s' H; [discriminate|].
  simpl in H |- *. rewrite bind_deref.
  destruct (heap s !! obj) as [o|]; [|discriminate].
  destruct o; try discriminate. rewrite bind_deref.
  destruct (heap s !! car) as [ob|]; [|discriminate].
  destruct ob; try (now apply IH).
  destruct (same car0 sym); [discriminate|now apply IH].
Qed.

Lemma setVariable_chain_None sym val : forall k cenv s r s',
  first_binding k (heap s) cenv sym = None ->
  setVariable_chain k cenv sym val s <> Ok r s'.
Proof.
  induction k as [|k IH]; intros cenv s r s' H; [discriminate|].
  simpl in H |- *. rewrite bind_deref.
  destruct (heap s !! cenv) as [o|]; [|discriminate].
  destruct o; try discriminate.
  pose proof (setVariable_vars_first k vars sym val s) as Hv.
  destruct (first_in_vars k (heap s) vars sym) as [[b|]|] eqn:E;
    try discriminate.
  - rewrite (bind_Ok _ _ _ _ _ Hv). now apply IH.
  - intros Hok. apply bind_Ok_inv in Hok as (d & s1 & Hd & _).
    now apply (setVariable_vars_None sym val k vars s d s1).
Qed.

Lemma setVariable_then_find G k env sym val s s' :
  wf G s -> pub G env ->
  setVariable k env sym val s = Ok tt s' ->
  find (S (S k)) env sym s' = Ok (Some val) s'.
Proof.
  intros Hwf Henv H.
  pose proof (setVariable_chain_first k env sym val s) as Hs.
  destruct (first_binding k (heap s) env sym) as [[b|]|] eqn:E.
  - unfold setVariable in H. rewrite (bind_Ok _ _ _ _ _ Hs) in H.
    injection H as <-.
    pose proof (first_binding_kind G s sym k env b Hwf Henv E) as Hkb.
    pose proof (find_chain_first k env sym s) as Hf. rewrite E in Hf.
    destruct Hf as (old & Hb & _).
    pose proof (find_chain_first k env sym
                  (State (<[b := ObjPair sym val]> (heap s)) (symbols s))) as Hf'.
    simpl heap in Hf'.
    rewrite (first_binding_update G s b sym old val k env Hwf Henv Hkb Hb), E in Hf'.
    destruct Hf' as (new & Hb' & Hfind).
    rewrite list_lookup_insert_eq in Hb' by (now apply lookup_lt_Some in Hb).
    injection Hb' as <-. unfold find.
    now apply find_chain_fuel, find_chain_fuel.
  - unfold setVariable in H. rewrite (bind_Ok _ _ _ _ _ Hs) in H.
    destruct (heap s !! env) as [o|] eqn:He.
    2:{ unfold addVariable in H. rewrite bind_deref, He in H. discriminate. }
    destruct o; try (unfold addVariable in H; rewrite bind_deref, He in H;
                     discriminate).
    rewrite (addVariable_Ok env sym val s vars up He) in H.
    injection H as <-. now apply (find_bound k env sym val s vars up).
  - exfalso. unfold setVariable in H.
    apply bind_Ok_inv in H as (d & s1 & Hd & _).
    now apply (setVariable_chain_None sym val k env s d s1).
Qed.

(** X5.  In a well-formed state, a lookup after [setVariable] returns the
    value assigned, whether the assignment overwrote the binding of an
    enclosing frame or added a new one. *)
Theorem setVariable_find G k env sym val s s' :
  wf G s -> pub G env ->
  setVariable k env sym val s = Ok tt s' ->
  find (S (S k)) env sym s' = Ok (Some val) s'.
Proof. apply setVariable_then_find. Qed.

(** ** Argument lists *)

Lemma checkArity_throw s k args xs t lo hi :
  list_view (heap s) args xs t -> length xs < k ->
  ((lo <> -1 /\ Z.of_nat (list_length xs t) < lo)
   \/ (hi <> -1 /\ hi < Z.of_nat (list_length xs t)))%Z ->
  checkArity k args lo hi s = Throw "arity mismatch" s.
Proof.
  intros Hv Hk H. rewrite (checkArity_view s k args xs t lo hi Hv Hk).
  destruct H as [[H1 H2]|[H1 H2]].
  - apply Z.eqb_neq in H1. apply Z.ltb_lt in H2. now rewrite H1, H2.
  - apply Z.eqb_neq in H1. apply Z.ltb_lt in H2. rewrite H1, H2.
    now rewrite orb_true_r.
Qed.

Lemma checkArity_ok s k args xs t lo hi :
  list_view (heap s) args xs t -> length xs < k ->
  (lo = -1 \/ lo <= Z.of_nat (list_length xs t))%Z ->
  (hi = -1 \/ Z.of_nat (list_length xs t) <= hi)%Z ->
  checkArity k args lo hi s = Ok tt s.
Proof.
  intros Hv Hk H1 H2. rewrite (checkArity_view s k args xs t lo hi Hv Hk).
  assert (E1 : negb (lo =? -1)%Z && (Z.of_nat (list_length xs t) <? lo)%Z = false).
  { destruct H1 as [->|H1]; [reflexivity|].
    apply Z.ltb_ge in H1. rewrite H1. apply andb_false_r. }
  assert (E2 : negb (hi =? -1)%Z && (hi <? Z.of_nat (list_length xs t))%Z = false).
  { destruct H2 as [->|H2]; [reflexivity|].
    apply Z.ltb_ge in H2. rewrite H2. apply andb_false_r. }
  now rewrite E1, E2.
Qed.

(** X6.  [checkArity] measures the argument list with [listLen] (a dotted
    tail counts as one more argument, an argument list that is not a Pair
    has length 0) and throws "arity mismatch" exactly when the length is
    below [min] or above [max], the bound [-1] standing for no bound;
    otherwise it returns and the state is the one it started from. *)
Theorem checkArity_spec s k args xs t lo hi :
  list_view (heap s) args xs t -> length xs < k ->
  let n := Z.of_nat (list_length xs t) in
  (((lo <> -1 /\ n < lo) \/ (hi <> -1 /\ hi < n))%Z ->
   checkArity k args lo hi s = Throw "arity mismatch" s)
  /\ (((lo = -1 \/ lo <= n) /\ (hi = -1 \/ n <= hi))%Z ->
      checkArity k args lo hi s = Ok tt s).
Proof.
  intros Hv Hk n. split.
  - intros H. now apply (checkArity_throw s k args xs t).
  - intros [H1 H2]. now apply (checkArity_ok s k args xs t).
Qed.

(** X7.  [getArg] returns the element of the argument list at [index], and
    [nil] when the list has no such element; for the argument list [nil] it
    returns [nil] without looking at the expected type; an argument list
    that is neither [nil] nor a Pair is an error; and when a type is expected
    and the element found has another one, the error names both types. *)
Theorem getArg_spec s k args index :
  (forall ty, getArg k nil index ty s = Ok nil s)
  /\ (forall o, args <> nil -> heap s !! args = Some o -> is_pair o = false ->
        forall ty, getArg k args index ty s = Throw "expected list as arguments" s)
  /\ (forall x xs t,
        list_view (heap s) args (x :: xs) t -> length (x :: xs) < k ->
        args <> nil ->
        getArg k args index None s = Ok (default nil ((x :: xs) !! index)) s
        /\ forall ty o,
             heap s !! default nil ((x :: xs) !! index) = Some o ->
             getArg k args index (Some ty) s
             = if ObjType.eqb (type_of o) ty
               then Ok (default nil ((x :: xs) !! index)) s
               else Throw ("expected type " +:+ ObjType.show ty +:+ " but got "
                           +:+ ObjType.show (type_of o)) s).
Proof.
  split; [|split].
  - intros ty. unfold getArg. now rewrite same_refl.
  - intros o Hne Ho Hp ty. unfold getArg.
    rewrite (proj2 (same_false args nil) Hne), bind_deref, Ho.
    now destruct o.
  - intros x xs t Hv Hk Hne.
    assert (Hloop : getArg_loop k args 0 index s
                    = Ok (default nil ((x :: xs) !! index)) s).
    { rewrite (getArg_loop_view s (x :: xs) k args t 0 index Hv Hk ltac:(lia)).
      now rewrite Nat.sub_0_r. }
    apply list_view_inv in Hv as (r & Hl & _).
    split.
    + unfold getArg. rewrite (proj2 (same_false args nil) Hne), bind_deref, Hl.
      now rewrite (bind_Ok _ _ _ _ _ Hloop).
    + intros ty o Ho. unfold getArg.
      rewrite (proj2 (same_false args nil) Hne), bind_deref, Hl.
      rewrite (bind_Ok _ _ _ _ _ Hloop).
      assert (Hty : expect_type (Some ty) (default nil ((x :: xs) !! index)) s
                    = if ObjType.eqb (type_of o) ty then Ok tt s
                      else Throw ("expected type " +:+ ObjType.show ty
                                  +:+ " but got " +:+ ObjType.show (type_of o)) s).
      { unfold expect_type. rewrite bind_deref, Ho.
        now destruct (ObjType.eqb (type_of o) ty). }
      destruct (ObjType.eqb (type_of o) ty).
      * now rewrite (bind_Ok _ _ _ _ _ Hty).
      * now rewrite (bind_Throw _ _ _ _ _ Hty).
Qed.

(** ** Applying a list to an index *)

Lemma apply_index_view s : forall xs j obj t cur index,
  list_view (heap s) obj xs t -> length xs < j ->
  (Z.of_nat cur <= index)%Z ->
  apply_index j obj cur index s
  = Ok (default nil (xs !! (Z.to_nat index - cur))) s.
Proof.
  induction xs as [|x xs IH]; intros j obj t cur index Hv Hj Hle;
    (destruct j as [|j]; [simpl in Hj; lia|]); apply list_view_inv in Hv;
    simpl apply_index; rewrite bind_deref.
  - destruct Hv as (-> & o & Ho & Hp). rewrite Ho. now destruct o.
  - destruct Hv as (r & Hl & Hr). rewrite Hl.
    destruct (Z.eqb_spec (Z.of_nat cur) index) as [<-|Hne].
    + rewrite Nat2Z.id, Nat.sub_diag. reflexivity.
    + rewrite (IH j r t (S cur) index Hr ltac:(simpl in Hj; lia) ltac:(lia)).
      replace (Z.to_nat index - cur) with (S (Z.to_nat index - S cur)) by lia.
      reflexivity.
Qed.

Lemma apply_index_negative s : forall j obj cur index xs t,
  list_view (heap s) obj xs t -> length xs < j ->
  (index < Z.of_nat cur)%Z ->
  apply_index j obj cur index s = Ok nil s.
Proof.
  intros j obj cur index xs. revert j obj cur.
  induction xs as [|x xs IH]; intros j obj cur t Hv Hj Hlt;
    (destruct j as [|j]; [simpl in Hj; lia|]); apply list_view_inv in Hv;
    simpl apply_index; rewrite bind_deref.
  - destruct Hv as (-> & o & Ho & Hp). rewrite Ho. now destruct o.
  - destruct Hv as (r & Hl & Hr). rewrite Hl.
    destruct (Z.eqb_spec (Z.of_nat cur) index) as [<-|Hne]; [lia|].
    apply (IH j r (S cur) t Hr); [simpl in Hj; lia|lia].
Qed.

(** X8.  Applying a list to one argument indexes it: the argument is
    evaluated and must be a number [n]; the result is the element at
    position [n], counted from 0, and [nil] when [n] is negative or beyond
    the last element.  No new object is made. *)
Theorem apply_list_index fs k env fn args s a vi s1 n xs t c d :
  heap s !! fn = Some (ObjPair c d) ->
  proper_list (heap s) args [a] -> 1 < k ->
  evaluate fs k env a s = Ok vi s1 ->
  heap s1 !! vi = Some (ObjNum n) ->
  list_view (heap s1) fn xs t -> length xs < k ->
  apply fs k (evaluate fs k) env fn args s
  = Ok (if (n <? 0)%Z then nil else default nil (xs !! Z.to_nat n)) s1.
Proof.
  intros Hfn Hargs Hk Heval Hvi Hv Hlen. unfold apply.
  rewrite bind_deref, Hfn.
  rewrite (bind_Ok _ _ _ _ _ (eq_trans (checkArity_view s k args [a] nil 1 1 Hargs
                                ltac:(simpl; lia)) eq_refl)).
  assert (Hearg : evalArg k (evaluate fs k) env args 0 (Some ObjType.Num) s
                  = Ok vi s1).
  { unfold evalArg.
    rewrite (bind_Ok _ _ _ _ _ (getArg_view s k args a [] 0 Hargs
                                  ltac:(simpl; lia))).
    simpl default. rewrite (bind_Ok _ _ _ _ _ Heval).
    unfold expect_type. unfold bind at 1. unfold bind, deref. now rewrite Hvi. }
  rewrite (bind_Ok _ _ _ _ _ Hearg). rewrite bind_deref, Hvi.
  destruct (Z.ltb_spec n 0) as [Hneg|Hpos].
  - apply (apply_index_negative s1 k fn 0 n xs t Hv Hlen). simpl. lia.
  - rewrite (apply_index_view s1 xs k fn t 0 n Hv Hlen ltac:(simpl; lia)).
    now rewrite Nat.sub_0_r.
Qed.

(** ** [error] *)

(** X9.  [primError] never returns normally: whatever its arguments, the
    outcome is an error (or a failure of the model), never a value. *)
Theorem primError_never_returns k ev env args s :
  match primError k ev env args s with
  | Ok _ _ => False
  | _ => True
  end.
Proof.
  destruct (primError k ev env args s) as [r s'| | |] eqn:H; auto.
  unfold primError in H.
  apply bind_Ok_inv in H as (u & s1 & _ & H).
  apply bind_Ok_inv in H as (msg & s2 & _ & H).
  rewrite bind_deref in H.
  destruct (heap s2 !! msg) as [o|]; [|discriminate].
  destruct o; discriminate.
Qed.

(** ** Building closures *)

Lemma check_params_loop s : forall xs k params t index,
  list_view (heap s) params xs t -> length xs < k ->
  Forall (fun x => exists name, heap s !! x = Some (ObjSymbol name)) xs ->
  forEach k params
    (fun arg _ _ =>
       let* oa := deref arg in
       match oa with
       | ObjSymbol _ => ret tt
       | _ => throw "parameter must be a symbol"
       end) index tt s = Ok tt s.
Proof.
  induction xs as [|x xs IH]; intros k params t index Hv Hk Hall;
    (destruct k as [|k]; [simpl in Hk; lia|]); apply list_view_inv in Hv;
    simpl forEach; rewrite bind_deref.
  - destruct Hv as (-> & o & Ho & Hp). rewrite Ho. now destruct o.
  - destruct Hv as (r & Hl & Hr). rewrite Hl.
    inversion Hall as [|? ? [name Hx] Hrest]; subst.
    unfold bind at 1. rewrite bind_deref, Hx. unfold ret at 1.
    rewrite bind_deref, Hl.
    apply (IH k r t (S index) Hr); [simpl in Hk; lia|exact Hrest].
Qed.

Lemma check_params_bad s : forall xs k params t index ys bad o zs,
  list_view (heap s) params xs t -> length xs < k ->
  xs = ys ++ bad :: zs ->
  Forall (fun x => exists name, heap s !! x = Some (ObjSymbol name)) ys ->
  heap s !! bad = Some o -> type_of o <> ObjType.Symbol ->
  forEach k params
    (fun arg _ _ =>
       let* oa := deref arg in
       match oa with
       | ObjSymbol _ => ret tt
       | _ => throw "parameter must be a symbol"
       end) index tt s = Throw "parameter must be a symbol" s.
Proof.
  intros xs k params t index ys. revert xs k params index.
  induction ys as [|y ys IH]; intros xs k params index bad o zs Hv Hk -> Hall Hb Ho;
    (destruct k as [|k]; [simpl in Hk; lia|]); apply list_view_inv in Hv;
    destruct Hv as (r & Hl & Hr); simpl forEach; rewrite bind_deref, Hl.
  - unfold bind at 1. rewrite bind_deref, Hb.
    destruct o; try reflexivity. now contradiction Ho.
  - inversion Hall as [|? ? [name Hx] Hrest]; subst.
    unfold bind at 1. rewrite bind_deref, Hx. unfold ret at 1.
    rewrite bind_deref, Hl.
    apply (IH _ k r (S index) bad o zs Hr); auto. simpl in Hk. lia.
Qed.

(** X10.  [primFn] accepts an argument list [(params body...)] with at
    least one body form: when every element of [params] is a Symbol it
    returns a new Function object that holds the parameter list, the list of
    body forms and the environment it was called in, which it captures as
    it is; when some element of [params] is not a Symbol the error is
    "parameter must be a symbol" and nothing is built; an argument list
    with fewer than two elements is an arity error. *)
Theorem primFn_spec k env args s xs t :
  list_view (heap s) args xs t -> length xs < k ->
  (list_length xs t < 2 -> primFn k env args s = Throw "arity mismatch" s)
  /\ (forall params form forms body ps tp,
        xs = params :: form :: forms ->
        heap s !! args = Some (ObjPair params body) ->
        list_view (heap s) params ps tp -> length ps < k ->
        (Forall (fun x => exists name, heap s !! x = Some (ObjSymbol name)) ps ->
         primFn k env args s
         = Ok (length (heap s))
              (State (heap s ++ [ObjFn IsFn params body env]) (symbols s)))
        /\ (forall ys bad o zs,
              ps = ys ++ bad :: zs ->
              Forall (fun x => exists name, heap s !! x = Some (ObjSymbol name)) ys ->
              heap s !! bad = Some o -> type_of o <> ObjType.Symbol ->
              primFn k env args s = Throw "parameter must be a symbol" s)).
Proof.
  intros Hv Hk. split.
  - intros Hlt. unfold primFn. apply bind_Throw.
    rewrite (checkArity_view s k args xs t 2 (-1) Hv Hk).
    remember (list_length xs t) as n. simpl.
    destruct (Z.ltb_spec (Z.of_nat n) 2); [reflexivity|lia].
  - intros params form forms body ps tp -> Hargs Hp Hkp.
    assert (Harity : checkArity k args 2 (-1) s = Ok tt s).
    { rewrite (checkArity_view s k args _ t 2 (-1) Hv Hk).
      assert (Hge : 2 <= list_length (params :: form :: forms) t)
        by (unfold list_length; simpl; lia).
      remember (list_length (params :: form :: forms) t) as n. simpl.
      destruct (Z.ltb_spec (Z.of_nat n) 2); [lia|reflexivity]. }
    assert (Hbody : exists r', heap s !! body = Some (ObjPair form r')).
    { apply list_view_inv in Hv as (r & Hl & Hr). rewrite Hargs in Hl.
      injection Hl as <-. apply list_view_inv in Hr as (r' & Hl' & _). eauto. }
    destruct Hbody as (r' & Hbody).
    assert (Hstep : primFn k env args s
                    = (let* _ := check_params k params in
                       makeFn env params body IsFn) s).
    { unfold primFn. rewrite (bind_Ok _ _ _ _ _ Harity).
      rewrite bind_deref, Hargs. unfold isList at 1.
      unfold bind at 1. rewrite bind_deref, Hargs. unfold ret at 1.
      rewrite bind_deref, Hbody. simpl.
      now rewrite orb_true_r. }
    split.
    + intros Hall. rewrite Hstep.
      rewrite (bind_Ok _ _ _ _ _ (check_params_loop s ps k params tp 0 Hp Hkp Hall)).
      reflexivity.
    + intros ys bad o zs Hps Hall Hb Ho. rewrite Hstep.
      apply bind_Throw.
      exact (check_params_bad s ps k params tp 0 ys bad o zs Hp Hkp Hps Hall Hb Ho).
Qed.

(** ** Arithmetic *)

Lemma list_view_ext G s G' s' l xs t :
  wf G s -> pub G l -> list_view (heap s) l xs t -> ext G s G' s' ->
  list_view (heap s') l xs t.
Proof.
  intros Hwf Hl Hv He. destruct (list_view_cells_view _ _ _ _ Hv) as [ps Hc].
  apply (cells_view_list_view _ _ ps).
  apply (cells_view_ext _ _ _ _ _ _ _ _ Hwf Hl Hc He).
Qed.

Lemma list_view_pubs G s l xs t :
  wf G s -> pub G l -> list_view (heap s) l xs t -> Forall (pub G) xs.
Proof.
  intros Hwf Hl Hv. induction Hv as [t o Ht Hp | l x r xs t Hc _ IH];
    constructor.
  - apply (wf_cells _ _ Hwf _ _ _ Hl Hc).
  - apply IH. apply (wf_cells _ _ Hwf _ _ _ Hl Hc).
Qed.

Lemma evalArg_run k (ev : ref -> ref -> M ref) env args s x xs index a v s1 ty :
  proper_list (heap s) args (x :: xs) -> length (x :: xs) < k ->
  (x :: xs) !! index = Some a ->
  ev env a s = Ok v s1 ->
  expect_type ty v s1 = Ok tt s1 ->
  evalArg k ev env args index ty s = Ok v s1.
Proof.
  intros Hv Hk Hi He Hty. unfold evalArg.
  rewrite (bind_Ok _ _ _ _ _ (getArg_view s k args x xs index Hv Hk)).
  rewrite Hi. simpl default. rewrite (bind_Ok _ _ _ _ _ He).
  now rewrite (bind_Ok _ _ _ _ _ Hty).
Qed.




(** ** [if] and [=] *)

(** C1. [primIf] evaluates the condition form and then the then-branch
    exactly when the value of the condition is the object [trueSym] (a
    comparison of references); for every other value, Nil included, it
    evaluates the else-branch, and when there is no else-branch the result is
    [nil].  [trueSym] is the interned symbol [t].  In a fresh interpreter,
    [(if nil "yup" "nope")] evaluates to the string "nope" and the
    two-argument [(if nil "yup")] to Nil; [(if t "yup" "nope")] and
    [(if (= 1 1) "yup" "nope")] evaluate to "yup", and [(if 1 "yup" "nope")]
    to "nope". *)
Theorem primIf_spec :
  (forall fs k env args G s x y rest c s1,
      wf G s -> pub G env -> pub G args ->
      proper_list (heap s) args (x :: y :: rest) ->
      length rest <= 1 -> length rest + 2 < k ->
      evaluate fs k env x s = Ok c s1 ->
      primIf k (evaluate fs k) env args s
      = if same c trueSym then evaluate fs k env y s1
        else match rest with
             | [] => Ok nil s1
             | z :: _ => evaluate fs k env z s1
             end)
  /\ intern 1 "t" initial_state = Ok trueSym initial_state
  /\ decoded (session "" 40
                ["(if nil " +:+ quoted "yup" +:+ " " +:+ quoted "nope" +:+ ")"])
     = Some (SStr "nope")
  /\ decoded (session "" 40 ["(if nil " +:+ quoted "yup" +:+ ")"]) = Some SNil
  /\ decoded (session "" 40
                ["(if t " +:+ quoted "yup" +:+ " " +:+ quoted "nope" +:+ ")"])
     = Some (SStr "yup")
  /\ decoded (session "" 40
                ["(if (= 1 1) " +:+ quoted "yup" +:+ " " +:+ quoted "nope" +:+ ")"])
     = Some (SStr "yup")
  /\ decoded (session "" 40
                ["(if 1 " +:+ quoted "yup" +:+ " " +:+ quoted "nope" +:+ ")"])
     = Some (SStr "nope").
Proof.
  split; [|repeat split; vm_compute; reflexivity].
  intros fs k env args G s x y rest c s1 Hwf Henv Hargs Hv Hlen Hk Hc.
  assert (Harity : checkArity k args 2 3 s = Ok tt s).
  { apply (checkArity_ok s k args (x :: y :: rest) nil);
      [exact Hv|simpl; lia| |];
      right; rewrite list_length_nil; simpl length; lia. }
  pose proof (list_view_pubs G s args _ nil Hwf Hargs Hv) as Hps.
  apply Forall_cons in Hps as [Hpx _].
  destruct (sound_evaluate fs k [env; x] env x ltac:(solve_known)
              ltac:(solve_known) G s c s1 Hwf
              ltac:(repeat constructor; assumption) Hc)
    as (G1 & Hwf1 & He1 & _).
  assert (Hv1 : proper_list (heap s1) args (x :: y :: rest))
    by (apply (list_view_ext G s G1 s1); auto).
  unfold primIf. rewrite (bind_Ok _ _ _ _ _ Harity).
  rewrite (bind_Ok _ _ _ _ _
             (evalArg_run k (evaluate fs k) env args s x (y :: rest) 0 x c s1
                None Hv ltac:(simpl; lia) eq_refl Hc eq_refl)).
  rewrite (bind_Ok _ _ _ _ _ (getArg_view s1 k args x (y :: rest) 1 Hv1
                                ltac:(simpl; lia))).
  rewrite (bind_Ok _ _ _ _ _ (getArg_view s1 k args x (y :: rest) 2 Hv1
                                ltac:(simpl; lia))).
  simpl. destruct (same c trueSym); [reflexivity|].
  destruct rest as [|z rest]; [|reflexivity]. simpl.
  destruct k as [|k]; [lia|].
  apply evaluate_self with (o := ObjNil); [|reflexivity].
  apply (wf_nil _ _ Hwf1).
Qed.

(** C8. The two generations of [=] are not equivalent.  The superseded one
    evaluates nothing and answers [t] exactly when every element of the
    argument list, whatever its length, is the same object as the first; the
    current one rejects every argument list whose length is not two,
    evaluates the two argument forms in order and answers what [equal] says
    of their values.  On two distinct Number objects holding the same number
    the current generation answers [t] and the superseded one [nil]; so they
    do on the two numerals of the text [(= 1 1)], and on [(= (+ 1 1) 2)].
    On [(= x x)] the superseded generation answers [t] where the current one
    fails on the unbound [x], and on [(= 1 1 1)] it answers [nil] where the
    current one rejects the arity. *)
Theorem primEqual_generations_differ :
  (forall k env args s xs,
      proper_list (heap s) args xs -> length xs < k ->
      primEqual_superseded k env args s
      = Ok (if all_same xs then trueSym else nil) s)
  /\ (forall fs k env args s xs t,
        list_view (heap s) args xs t -> length xs < k ->
        list_length xs t <> 2 ->
        primEqual k (evaluate fs k) env args s = Throw "arity mismatch" s)
  /\ (forall fs k env args G s x y a s1 b s2 e,
        wf G s -> pub G env -> pub G args ->
        proper_list (heap s) args [x; y] -> 2 < k ->
        evaluate fs k env x s = Ok a s1 ->
        evaluate fs k env y s1 = Ok b s2 ->
        equal k a b s2 = Ok e s2 ->
        primEqual k (evaluate fs k) env args s
        = Ok (if e then trueSym else nil) s2)
  /\ (forall fs k env args s x y n,
        proper_list (heap s) args [x; y] ->
        heap s !! x = Some (ObjNum n) -> heap s !! y = Some (ObjNum n) ->
        x <> y -> 2 < k ->
        primEqual k (evaluate fs k) env args s = Ok trueSym s
        /\ primEqual_superseded k env args s = Ok nil s)
  /\ (decoded (session "" 40 ["(= 1 1)"]) = Some (SSym "t")
      /\ decoded (superseded_on 40 "(= 1 1)") = Some SNil)
  /\ (decoded (session "" 40 ["(= (+ 1 1) 2)"]) = Some (SSym "t")
      /\ decoded (superseded_on 40 "(= (+ 1 1) 2)") = Some SNil)
  /\ (decoded (session "" 40 ["(= 1 2)"]) = Some SNil
      /\ decoded (superseded_on 40 "(= 1 2)") = Some SNil)
  /\ (thrown (session "" 40 ["(= x x)"]) = Some "unknown symbol: x"
      /\ decoded (superseded_on 40 "(= x x)") = Some (SSym "t"))
  /\ (thrown (session "" 40 ["(= 1 1 1)"]) = Some "arity mismatch"
      /\ decoded (superseded_on 40 "(= 1 1 1)") = Some SNil).
Proof.
  split; [exact primEqual_superseded_view|].
  split; [|split; [|split; [|repeat split; vm_compute; reflexivity]]].
  - intros fs k env args s xs t Hv Hk Hne. unfold primEqual.
    apply bind_Throw. rewrite (checkArity_view s k args xs t 2 2 Hv Hk).
    destruct (_ || _) eqn:E; [reflexivity|].
    apply orb_false_elim in E as [E1 E2]. simpl in E1, E2.
    apply Z.ltb_ge in E1, E2. lia.
  - intros fs k env args G s x y a s1 b s2 e Hwf Henv Hargs Hv Hk Ha Hb He.
    pose proof (list_view_pubs G s args _ nil Hwf Hargs Hv) as Hps.
    apply Forall_cons in Hps as [Hpx _].
    destruct (sound_evaluate fs k [env; x] env x ltac:(solve_known)
                ltac:(solve_known) G s a s1 Hwf
                ltac:(repeat constructor; assumption) Ha)
      as (G1 & Hwf1 & He1 & _).
    assert (Hv1 : proper_list (heap s1) args [x; y])
      by (apply (list_view_ext G s G1 s1); auto).
    unfold primEqual.
    rewrite (bind_Ok _ _ _ _ _ (eq_trans (checkArity_view s k args [x; y] nil
                                  2 2 Hv ltac:(simpl; lia)) eq_refl)).
    rewrite (bind_Ok _ _ _ _ _
               (evalArg_run k (evaluate fs k) env args s x [y] 0 x a s1
                  None Hv ltac:(simpl; lia) eq_refl Ha eq_refl)).
    rewrite (bind_Ok _ _ _ _ _
               (evalArg_run k (evaluate fs k) env args s1 x [y] 1 y b s2
                  None Hv1 ltac:(simpl; lia) eq_refl Hb eq_refl)).
    now rewrite (bind_Ok _ _ _ _ _ He).
  - intros fs k env args s x y n Hv Hx Hy Hne Hk. split.
    + destruct k as [|k]; [lia|]. unfold primEqual.
      rewrite (bind_Ok _ _ _ _ _ (eq_trans (checkArity_view s (S k) args [x; y] nil
                                    2 2 Hv ltac:(simpl; lia)) eq_refl)).
      rewrite (bind_Ok _ _ _ _ _ (evalArg_self fs k env args s x [y] 0 x _ Hv
                                    ltac:(simpl; lia) eq_refl Hx eq_refl)).
      rewrite (bind_Ok _ _ _ _ _ (evalArg_self fs k env args s x [y] 1 y _ Hv
                                    ltac:(simpl; lia) eq_refl Hy eq_refl)).
      rewrite (bind_Ok _ _ _ _ _ (equal_num k s x y n n Hx Hy Hne)).
      now rewrite Z.eqb_refl.
    + rewrite (primEqual_superseded_view k env args s [x; y] Hv
                 ltac:(simpl; lia)).
      simpl. apply not_eq_sym, same_false in Hne. now rewrite Hne.
Qed.

(** ** Calls *)

Lemma evaluateList_run fs k env list G s ps es vs s' :
  wf G s -> pub G env -> pub G list ->
  cells_view (heap s) list ps es nil -> length es < k ->
  collects (evaluate fs k env) None es s vs s' ->
  exists G' cells,
    evaluateList k (evaluate fs k) env list s = Ok (hd nil cells) s'
    /\ wf G' s' /\ G `prefix_of` G'
    /\ chain (heap s') cells vs nil
    /\ Forall (fun c => length (heap s) <= c /\ pub G' c) cells
    /\ length cells = length es.
Proof.
  intros Hwf Henv Hlist Hview Hk Hc.
  assert (Hps : Forall (fun p => p < length G) ps).
  { eapply Forall_impl;
      [exact (cells_view_pub G s list ps es nil Hwf Hlist Hview)|].
    intros p Hp. now apply lookup_lt_Some in Hp. }
  destruct (collect_loop_run (evaluate fs k env) [env]
              (fun l x Hi Hx => sound_evaluate fs k l env x
                 (known_incl [env] l env ltac:(solve_known) Hi) Hx)
              es ps nil k list None None [] [] G s vs s' (length G)
              Hwf ltac:(repeat constructor; exact Henv) (le_n _) Hview Hps
              (lookup_lt_Some _ _ _ (proj1 (wf_nil _ _ Hwf)))
              Hlist Hk (built_none _ _ _) Hc)
    as (G' & cells & Hrun & Hwf' & Hpre & Hch & Hall & Hlen).
  simpl in Hrun, Hch, Hall. exists G', cells.
  split; [|split; [exact Hwf'|split; [exact Hpre|split; [exact Hch|split;
           [|exact Hlen]]]]].
  - unfold evaluateList. rewrite (bind_Ok _ _ _ _ _ Hrun). now destruct cells.
  - now rewrite <- (wf_length _ _ Hwf).
Qed.

(** X12.  [(cons a b)] evaluates its two arguments from left to right and
    returns a new Pair whose car is the first value and whose cdr is the
    second: a dotted pair when the second value is not a list.  The Pair is
    the first cell of the list [evaluateList] built, relinked; no object
    that existed before the call is changed. *)
Theorem primCons_spec fs k env args G s ps a b va vb s1 :
  wf G s -> pub G env -> pub G args ->
  cells_view (heap s) args ps [a; b] nil -> 2 < k ->
  collects (evaluate fs k env) None [a; b] s [va; vb] s1 ->
  exists r,
    primCons k (evaluate fs k) env args s
    = Ok r (State (<[r := ObjPair va vb]> (heap s1)) (symbols s1))
    /\ length (heap s) <= r < length (heap s1).
Proof.
  intros Hwf Henv Hargs Hview Hk Hc.
  destruct (evaluateList_run fs k env args G s ps [a; b] [va; vb] s1
              Hwf Henv Hargs Hview ltac:(simpl; lia) Hc)
    as (G' & cells & Hrun & Hwf' & Hpre & Hch & Hall & Hlen).
  destruct cells as [|c1 [|c2 [|c3 cells]]]; try discriminate.
  inversion Hch as [|? ? ? ? ? Hc1 Hch2]; subst.
  inversion Hch2 as [|? ? ? ? ? Hc2 _]; subst. simpl in Hc1, Hc2, Hrun.
  exists c1. split.
  - unfold primCons.
    rewrite (bind_Ok _ _ _ _ _
               (eq_trans (checkArity_view s k args [a; b] nil 2 2
                            (cells_view_list_view _ _ _ _ _ Hview)
                            ltac:(simpl; lia)) eq_refl)).
    rewrite (bind_Ok _ _ _ _ _ Hrun). rewrite bind_deref, Hc1, bind_deref, Hc2.
    unfold bind, set_cdr. now rewrite Hc1.
  - apply Forall_cons in Hall as [[Hge _] _].
    apply lookup_lt_Some in Hc1. lia.
Qed.

(** X13.  Calling a Function evaluates the arguments in the caller's
    environment, binds the parameters to the values in a new frame whose
    parent is the environment the Function captured (not the caller's), and
    evaluates the body forms in that frame one after the other; the call
    returns the value of the last form, and [nil] for an empty body. *)
Theorem apply_closure fs k env fn args G s params body fenv eargs s1
        newEnv s2 forms rs s3 :
  wf G s -> pub G env -> pub G fn -> pub G args ->
  heap s !! fn = Some (ObjFn IsFn params body fenv) ->
  evaluateList k (evaluate fs k) env args s = Ok eargs s1 ->
  pushEnv k fenv params eargs s1 = Ok newEnv s2 ->
  proper_list (heap s) body forms -> length forms < k ->
  runs (evaluate fs k newEnv) forms s2 rs s3 ->
  apply fs k (evaluate fs k) env fn args s = Ok (List.last rs nil) s3.
Proof.
  intros Hwf Henv Hfn Hargs Hofn Hlist Hpush Hbody Hk Hruns.
  destruct (wf_cells _ _ Hwf _ _ _ Hfn Hofn) as (Hpp & Hpb & Hpe).
  destruct (sound_evaluateList k (evaluate fs k) (sound_evaluate fs k)
              [env; args] env args ltac:(solve_known) ltac:(solve_known)
              G s eargs s1 Hwf ltac:(repeat constructor; assumption) Hlist)
    as (G1 & Hwf1 & He1 & Hr1).
  assert (Hpea : pub G1 eargs) by (inversion Hr1; auto).
  destruct (sound_pushEnv [fenv; params; eargs] k fenv params eargs
              ltac:(solve_known) ltac:(solve_known) ltac:(solve_known)
              G1 s1 newEnv s2 Hwf1
              ltac:(repeat constructor; try assumption; eapply ext_pub; eauto)
              Hpush)
    as (G2 & Hwf2 & He2 & Hpn).
  assert (Hpnew : pub G2 newEnv) by (inversion Hpn; auto).
  destruct (list_view_cells_view _ _ _ _ Hbody) as [ps Hview].
  destruct (cells_view_ext _ _ _ _ _ _ _ _ Hwf Hpb Hview He1) as [Hview1 _].
  destruct (cells_view_ext _ _ _ _ _ _ _ _ Hwf1 (ext_pub _ _ _ _ _ _ He1 Hpb)
              Hview1 He2) as [Hview2 _].
  unfold apply. rewrite bind_deref, Hofn.
  rewrite (bind_Ok _ _ _ _ _ Hlist), (bind_Ok _ _ _ _ _ Hpush). unfold evalBody.
  apply (forEach_run (evaluate fs k newEnv) [newEnv]
           (fun l x Hi Hx => sound_evaluate fs k l newEnv x
              (known_incl [newEnv] l newEnv ltac:(solve_known) Hi) Hx)
           forms ps nil k body 0 nil G2 s2 rs s3 Hwf2).
  - repeat constructor. exact Hpnew.
  - eapply ext_pub; [exact He2|]. eapply ext_pub; eauto.
  - exact Hview2.
  - exact Hk.
  - exact Hruns.
Qed.

(** X14.  [(define sym form)] evaluates [form], binds [sym] to the value
    in the environment of the call and returns the value; evaluating [sym]
    in that environment afterwards gives the value back. *)
Theorem primDefine_lookup fs k j env args G s vars up sym form name v s1 :
  wf G s -> pub G env -> pub G args ->
  heap s !! env = Some (ObjEnv vars up) ->
  proper_list (heap s) args [sym; form] -> 2 < k ->
  heap s !! sym = Some (ObjSymbol name) ->
  evaluate fs k env form s = Ok v s1 ->
  exists s2,
    primDefine k (evaluate fs k) env args s = Ok v s2
    /\ evaluate fs (S (S (S j))) env sym s2 = Ok v s2.
Proof.
  intros Hwf Henv Hargs Hoe Hv Hk Hsym Heval.
  pose proof (list_view_pubs G s args [sym; form] nil Hwf Hargs Hv) as Hps.
  apply Forall_cons in Hps as [Hpsym Hps]. apply Forall_cons in Hps as [Hpf _].
  destruct (sound_evaluate fs k [env; form] env form ltac:(solve_known)
              ltac:(solve_known) G s v s1 Hwf
              ltac:(repeat constructor; assumption) Heval)
    as (G1 & Hwf1 & He1 & _).
  destruct (proj2 He1 env _ Henv ltac:(discriminate) Hoe) as (oe & Hoe1 & Hf).
  destruct Hf as [vars' ->].
  destruct (proj2 He1 sym _ Hpsym ltac:(discriminate) Hsym) as (os & Hsym1 & Hf).
  simpl in Hf. subst os.
  exists (bound env sym v s1 vars' up). split.
  - unfold primDefine.
    rewrite (bind_Ok _ _ _ _ _
               (eq_trans (checkArity_view s k args [sym; form] nil 2 2 Hv
                            ltac:(simpl; lia)) eq_refl)).
    apply list_view_inv in Hv as (r & Hl & Hr).
    apply list_view_inv in Hr as (r' & Hl' & _).
    rewrite bind_deref, Hl, bind_deref, Hsym, bind_deref, Hl'.
    rewrite (bind_Ok _ _ _ _ _ Heval).
    now rewrite (bind_Ok _ _ _ _ _ (addVariable_Ok env sym v s1 vars' up Hoe1)).
  - assert (Hsym2 : heap (bound env sym v s1 vars' up) !! sym
                    = Some (ObjSymbol name)).
    { simpl. rewrite list_lookup_insert_ne
        by (intros ->; rewrite Hoe1 in Hsym1; discriminate).
      now apply lookup_app_l_Some. }
    cbn [evaluate]. unfold evaluate_step. rewrite bind_deref, Hsym2.
    now rewrite (bind_Ok _ _ _ _ _ (find_bound j env sym v s1 vars' up Hoe1)).
Qed.

(** ** Printing *)

Lemma append_cons x (a b : string) : String x a +:+ b = String x (a +:+ b).
Proof. reflexivity. Qed.

Lemma append_assoc (a b c : string) : (a +:+ b) +:+ c = a +:+ (b +:+ c).
Proof.
  induction a as [|x a IH]; [reflexivity|]. rewrite !append_cons. now f_equal.
Qed.

Lemma fmt_loop_proper (fmt' : ref -> M string) s t :
  heap s !! t = Some ObjNil ->
  forall xs left l out strs,
    xs <> [] -> list_view (heap s) l xs t ->
    Forall2 (fun x str => fmt' x s = Ok str s) (take left xs) strs ->
    fmt_loop fmt' left l out s
    = Ok (out +:+ join_sp (strs ++ (if left <? length xs then ["..."] else []))) s.
Proof.
  intros Ht. induction xs as [|x xs IH]; intros left l out strs Hne Hv Hall;
    [contradiction|].
  apply list_view_inv in Hv as (r & Hl & Hr).
  destruct left as [|left].
  - simpl in Hall. inversion Hall; subst. simpl. rewrite bind_deref, Hl.
    reflexivity.
  - simpl take in Hall. inversion Hall as [|? sx ? strs' Hx Hrest]; subst.
    cbn [fmt_loop]. rewrite bind_deref, Hl. rewrite (bind_Ok _ _ _ _ _ Hx).
    rewrite bind_deref. destruct xs as [|x2 xs].
    + apply list_view_inv in Hr as (-> & _). rewrite Ht.
      rewrite take_nil in Hrest. inversion Hrest; subst. reflexivity.
    + pose proof Hr as Hr'. apply list_view_inv in Hr' as (r2 & Hl2 & _).
      rewrite Hl2.
      rewrite (IH left r ((out +:+ sx) +:+ " ") strs' ltac:(discriminate) Hr Hrest).
      f_equal. change (S left <? length (x :: x2 :: xs))
        with (left <? length (x2 :: xs)).
      set (rest := strs' ++ (if left <? length (x2 :: xs) then ["..."] else [])).
      assert (Hrest' : rest <> []).
      { unfold rest. destruct left as [|left]; [now destruct strs'|].
        simpl in Hrest. inversion Hrest; subst. discriminate. }
      change ((sx :: strs') ++ (if left <? length (x2 :: xs) then ["..."] else []))
        with (sx :: rest).
      destruct rest as [|y rest]; [contradiction|].
      change (join_sp (sx :: y :: rest)) with (sx +:+ " " +:+ join_sp (y :: rest)).
      now rewrite !append_assoc.
Qed.

(** X15.  [fmt] renders a non-empty list that ends in Nil as its elements
    separated by single spaces between parentheses; of a list with more
    than six elements only the first six are rendered, followed by "...".
    Nil itself is rendered "nil".  Rendering changes nothing in the state. *)
Theorem fmt_list_spec d s l xs t strs :
  list_view (heap s) l xs t -> heap s !! t = Some ObjNil ->
  Forall2 (fun x str => fmt d x s = Ok str s) (take 6 xs) strs ->
  fmt (S d) l s
  = Ok (match xs with
        | [] => "nil"
        | _ => "(" +:+ join_sp (strs ++ (if 6 <? length xs then ["..."] else []))
               +:+ ")"
        end) s.
Proof.
  intros Hv Ht Hall. destruct xs as [|x xs].
  - apply list_view_inv in Hv as (-> & _). simpl. now rewrite bind_deref, Ht.
  - pose proof Hv as Hv'. apply list_view_inv in Hv' as (r & Hl & _).
    cbn [fmt]. rewrite bind_deref, Hl. unfold fmt_list.
    rewrite (bind_Ok _ _ _ _ _
               (fmt_loop_proper (fmt d) s t Ht (x :: xs) 6 l "(" strs
                  ltac:(discriminate) Hv Hall)).
    reflexivity.
Qed.

(** ** What evaluation leaves alone *)


(** ** The reader on literals *)

Lemma length_append (a b : string) :
  String.length (a +:+ b) = String.length a + String.length b.
Proof.
  induction a as [|x a IH]; [reflexivity|]. rewrite append_cons. simpl.
  now rewrite IH.
Qed.

Lemma get_append_r (a b : string) i :
  String.get (String.length a + i) (a +:+ b) = String.get i b.
Proof.
  induction a as [|x a IH]; [reflexivity|]. rewrite append_cons. exact IH.
Qed.

Lemma substring_append (a b c : string) :
  String.substring (String.length a) (String.length b) (a +:+ b +:+ c) = b.
Proof.
  induction a as [|x a IH]; [|rewrite append_cons; exact IH].
  change ("" +:+ b +:+ c) with (b +:+ c). simpl String.length.
  induction b as [|y b IHb]; [now destruct c|].
  rewrite append_cons. simpl. now rewrite IHb.
Qed.

Lemma append_cons_mid (a : string) x (b : string) :
  a +:+ String x b = (a +:+ String x "") +:+ b.
Proof. now rewrite append_assoc. Qed.

(** A scanning loop runs over the characters that satisfy its test and
    stops at the first that does not, or at the end of the text. *)
Lemma scan_while_run p : forall mid pre rest n,
  all_chars p mid = true -> stops p rest = true ->
  String.length mid <= n ->
  scan_while p n (mkReader (pre +:+ mid +:+ rest) (String.length pre))
  = mkReader (pre +:+ mid +:+ rest) (String.length pre + String.length mid).
Proof.
  induction mid as [|c mid IH]; intros pre rest n Hall Hstop Hn.
  - simpl String.length. rewrite Nat.add_0_r. destruct n as [|n]; [reflexivity|].
    simpl scan_while. unfold peek. simpl pos. simpl source.
    rewrite get_append_r. change ("" +:+ rest) with rest.
    destruct rest as [|c r]; [reflexivity|]. simpl.
    simpl in Hstop. apply negb_true_iff in Hstop. rewrite Hstop.
    now rewrite andb_false_r.
  - destruct n as [|n]; [simpl in Hn; lia|].
    simpl in Hall. apply andb_true_iff in Hall as [Hc Hall].
    simpl scan_while. unfold peek. simpl pos. simpl source.
    rewrite get_append_r. rewrite append_cons. simpl String.get.
    cbv beta iota. rewrite Hc.
    assert (Heof : atEof (mkReader (pre +:+ String c (mid +:+ rest))
                            (String.length pre)) = false).
    { unfold atEof. simpl. rewrite length_append. simpl.
      apply Nat.leb_gt. lia. }
    rewrite Heof. simpl negb. simpl andb.
    assert (Hadv : snd (advance (mkReader (pre +:+ String c (mid +:+ rest))
                                   (String.length pre)))
                   = mkReader (pre +:+ String c (mid +:+ rest))
                       (S (String.length pre))).
    { unfold advance. simpl. rewrite length_append. simpl.
      destruct (Nat.ltb_spec (String.length pre)
                  (String.length pre + S (String.length (mid +:+ rest))));
        [reflexivity|lia]. }
    rewrite Hadv. rewrite (append_cons_mid pre c (mid +:+ rest)).
    replace (S (String.length pre)) with (String.length (pre +:+ String c ""))
      by (rewrite length_append; simpl; lia).
    rewrite (IH (pre +:+ String c "") rest n Hall Hstop ltac:(simpl in Hn; lia)).
    f_equal. rewrite length_append. simpl. lia.
Qed.

Lemma parseInt_acc_pos : forall d acc,
  parseInt_acc (NilEmpty.string_of_uint d) (Zpos acc)
  = Zpos (Pos.of_uint_acc d acc).
Proof.
  induction d as [|d IH|d IH|d IH|d IH|d IH|d IH|d IH|d IH|d IH|d IH];
    intros acc; simpl; [reflexivity|..]; rewrite <- IH; f_equal; lia.
Qed.

Lemma parseInt_uint : forall d,
  parseInt_acc (NilEmpty.string_of_uint d) 0 = Z.of_N (Pos.of_uint d).
Proof.
  induction d as [|d IH|d IH|d IH|d IH|d IH|d IH|d IH|d IH|d IH|d IH];
    simpl; [reflexivity|exact IH|..];
    match goal with
    | |- parseInt_acc _ ?z = _ =>
        let p := eval compute in (Z.to_pos z) in
        change z with (Zpos p); apply parseInt_acc_pos
    end.
Qed.

Lemma digits_uint : forall d, all_chars is_digit (NilEmpty.string_of_uint d) = true.
Proof. induction d; simpl; auto. Qed.

(** The decimal text of a non-negative number: digits only, at least one,
    and [parseInt] reads the number back. *)
Lemma toString_digits n :
  (0 <= n)%Z ->
  all_chars is_digit (toString n) = true
  /\ parseInt (toString n) = n
  /\ exists c rest, toString n = String c rest.
Proof.
  intros Hn. unfold toString, parseInt. destruct n as [|p|p]; [| |lia].
  - simpl. repeat split. eauto.
  - simpl Z.to_int. unfold NilZero.string_of_int, NilZero.string_of_uint.
    pose proof (Unsigned.to_uint_nonnil p) as Hnn.
    pose proof (Unsigned.of_to p) as Hof.
    destruct (Pos.to_uint p) as [|d|d|d|d|d|d|d|d|d|d] eqn:E;
      [contradiction|..];
      (split; [rewrite <- E; apply digits_uint|]);
      (split; [rewrite <- E, parseInt_uint, E, Hof; reflexivity|]);
      simpl; eauto.
Qed.

Lemma skip_nothing c r :
  Ascii.eqb c " " = false -> Ascii.eqb c ch_newline = false ->
  Ascii.eqb c ch_tab = false -> Ascii.eqb c "#" = false ->
  skipComments (skipWhitespace (mkReader (String c r) 0))
  = mkReader (String c r) 0.
Proof.
  intros H1 H2 H3 H4.
  assert (Hw : skipWhitespace (mkReader (String c r) 0) = mkReader (String c r) 0).
  { unfold skipWhitespace, remaining. simpl. unfold peek_is, peek. simpl.
    now rewrite H1, H2, H3. }
  rewrite Hw. unfold skipComments, remaining. simpl. unfold peek_is, peek. simpl.
  rewrite H4. reflexivity.
Qed.

Lemma digit_not c x : is_digit c = true -> is_digit x = false -> Ascii.eqb c x = false.
Proof.
  intros Hc Hx. destruct (Ascii.eqb_spec c x) as [->|]; [|reflexivity].
  rewrite Hc in Hx. discriminate.
Qed.

Lemma readNext_digit k c r s :
  is_digit c = true ->
  readNext (S k) (mkReader (String c r) 0) s
  = (let* n := readNumber (mkReader (String c r) 0) in ret (some_obj n)) s.
Proof.
  intros Hc. cbn [readNext]. unfold readNext_step.
  rewrite (skip_nothing c r) by (now apply digit_not).
  unfold atEof, peek.
  cbn [source pos String.length String.get Nat.add Nat.leb].
  now rewrite Hc.
Qed.

Lemma readNext_dquote k r s :
  readNext (S k) (mkReader (String ch_dquote r) 0) s
  = (let* str := readString (mkReader (String ch_dquote r) 1) in
     ret (some_obj str)) s.
Proof.
  cbn [readNext]. unfold readNext_step.
  rewrite skip_nothing by reflexivity. reflexivity.
Qed.

(** X18.  The reader and the printer agree on numbers: the text [fmt]
    prints for a Number object that holds an integer [n] from 0 to
    2^53 - 1 (the range in which the numbers of the host are exact
    integers), followed by anything that does not start with a digit, is read
    back as a new Number object that holds [n], the reader stopping right
    after the digits. *)
Theorem read_number_roundtrip k d a n rest s :
  heap s !! a = Some (ObjNum n) -> (0 <= n <= 9007199254740991)%Z ->
  stops is_digit rest = true ->
  exists txt,
    fmt (S d) a s = Ok txt s
    /\ readNext (S k) (mkReader (txt +:+ rest) 0) s
       = Ok (Some (length (heap s)),
             mkReader (txt +:+ rest) (String.length txt))
            (State (heap s ++ [ObjNum n]) (symbols s)).
Proof.
  intros Ha [Hn _] Hrest. exists (toString n).
  destruct (toString_digits n Hn) as (Hdig & Hparse & c & r & Htxt).
  split; [simpl; now rewrite bind_deref, Ha|].
  assert (Hc : is_digit c = true).
  { rewrite Htxt in Hdig. simpl in Hdig. now apply andb_true_iff in Hdig. }
  assert (Hsrc : toString n +:+ rest = String c (r +:+ rest))
    by (now rewrite Htxt).
  rewrite Hsrc. rewrite (readNext_digit k c (r +:+ rest) s Hc).
  rewrite <- Hsrc. unfold readNumber.
  pose proof (scan_while_run is_digit (toString n) "" rest
                (remaining (mkReader (toString n +:+ rest) 0)) Hdig Hrest) as Hscan.
  change ("" +:+ toString n +:+ rest) with (toString n +:+ rest) in Hscan.
  simpl String.length in Hscan. simpl Nat.add in Hscan.
  rewrite Hscan by (unfold remaining; simpl; rewrite length_append; lia).
  simpl pos. simpl source. unfold slice.
  pose proof (substring_append "" (toString n) rest) as Hsub.
  change ("" +:+ toString n +:+ rest) with (toString n +:+ rest) in Hsub.
  simpl String.length in Hsub. rewrite Nat.sub_0_r, Hsub, Hparse.
  reflexivity.
Qed.

Lemma readString_closed pre body rest s :
  all_chars (fun c => negb (Ascii.eqb c ch_dquote)) body = true ->
  readString (mkReader (pre +:+ body +:+ String ch_dquote rest)
                (String.length pre)) s
  = Ok (length (heap s),
        mkReader (pre +:+ body +:+ String ch_dquote rest)
          (S (String.length pre + String.length body)))
       (State (heap s ++ [ObjString body]) (symbols s)).
Proof.
  intros Hbody. unfold readString. cbv zeta.
  set (src := pre +:+ body +:+ String ch_dquote rest).
  set (p := fun c => negb (Ascii.eqb c ch_dquote)) in *.
  assert (Hscan : scan_while p (remaining (mkReader src (String.length pre)))
                    (mkReader src (String.length pre))
                  = mkReader src (String.length pre + String.length body)).
  { apply (scan_while_run p body pre (String ch_dquote rest));
      [exact Hbody|reflexivity|].
    unfold remaining, src. cbn [source pos]. rewrite !length_append. lia. }
  rewrite Hscan.
  assert (Hget : String.get (String.length pre + String.length body + 0) src
                 = Some ch_dquote).
  { rewrite <- length_append. unfold src.
    rewrite <- append_assoc, get_append_r. reflexivity. }
  assert (Hcons : consume (mkReader src (String.length pre + String.length body))
                    ch_dquote s
                  = Ok (mkReader src (S (String.length pre + String.length body))) s).
  { unfold consume, peek_is, peek. cbn [pos source]. rewrite Hget.
    change (Ascii.eqb ch_dquote ch_dquote) with true. cbv iota.
    unfold advance. cbn [pos source].
    assert (Hlt : (String.length pre + String.length body <? String.length src)
                  = true).
    { apply Nat.ltb_lt. unfold src. rewrite !length_append. simpl. lia. }
    now rewrite Hlt. }
  rewrite (bind_Ok _ _ _ _ _ Hcons). cbn [pos source]. unfold slice.
  replace (S (String.length pre + String.length body) - 1 - String.length pre)
    with (String.length body) by lia.
  unfold src. rewrite substring_append. reflexivity.
Qed.

Lemma append_empty_r (a : string) : a +:+ "" = a.
Proof. induction a as [|c a IH]; [reflexivity|]. rewrite append_cons. now f_equal. Qed.

Lemma get_length_None (a : string) : String.get (String.length a) a = None.
Proof. induction a as [|c a IH]; [reflexivity|exact IH]. Qed.

Lemma readString_open pre body s :
  all_chars (fun c => negb (Ascii.eqb c ch_dquote)) body = true ->
  readString (mkReader (pre +:+ body) (String.length pre)) s
  = Throw ("syntax error: expected " +:+ String ch_dquote ""
           +:+ " but not undefined") s.
Proof.
  intros Hbody. unfold readString. cbv zeta.
  set (src := pre +:+ body).
  set (p := fun c => negb (Ascii.eqb c ch_dquote)) in *.
  assert (Hscan : scan_while p (remaining (mkReader src (String.length pre)))
                    (mkReader src (String.length pre))
                  = mkReader src (String.length pre + String.length body)).
  { pose proof (scan_while_run p body pre ""
                  (remaining (mkReader src (String.length pre))) Hbody eq_refl) as H.
    rewrite append_empty_r in H. apply H.
    unfold remaining, src. cbn [source pos]. rewrite length_append. lia. }
  rewrite Hscan. apply bind_Throw.
  unfold consume, peek_is, peek. cbn [pos source].
  rewrite Nat.add_0_r, <- length_append. fold src.
  now rewrite get_length_None.
Qed.

(** X19.  A string literal is the text up to the next double quote, taken
    as it is (there are no escape sequences): reading it makes a new String
    object with that text and leaves the reader after the closing quote.
    When the closing quote is missing the reader runs to the end of the
    input and reports a syntax error; nothing is built. *)
Theorem read_string_literal k body rest s :
  all_chars (fun c => negb (Ascii.eqb c ch_dquote)) body = true ->
  readNext (S k) (mkReader (quoted body +:+ rest) 0) s
  = Ok (Some (length (heap s)),
        mkReader (quoted body +:+ rest) (String.length body + 2))
       (State (heap s ++ [ObjString body]) (symbols s))
  /\ readNext (S k) (mkReader (String ch_dquote body) 0) s
     = Throw ("syntax error: expected " +:+ String ch_dquote ""
              +:+ " but not undefined") s.
Proof.
  intros Hbody. split.
  - assert (Esrc : quoted body +:+ rest
                   = String ch_dquote "" +:+ body +:+ String ch_dquote rest).
    { unfold quoted. rewrite !append_cons. change ("" +:+ body +:+ String ch_dquote rest)
        with (body +:+ String ch_dquote rest). f_equal.
      now rewrite append_assoc. }
    rewrite Esrc.
    assert (E1 : String ch_dquote "" +:+ body +:+ String ch_dquote rest
                 = String ch_dquote (body +:+ String ch_dquote rest))
      by reflexivity.
    rewrite E1, readNext_dquote, <- E1.
    rewrite (bind_Ok _ _ _ _ _
               (readString_closed (String ch_dquote "") body rest s Hbody)).
    unfold ret, some_obj. cbn [fst snd String.length]. do 3 f_equal. lia.
  - rewrite readNext_dquote. apply bind_Throw.
    exact (readString_open (String ch_dquote "") body s Hbody).
Qed.

(** ** The reader-debug switch *)

Lemma intern_loop_fuel name : forall j obj r s0,
  intern_loop j obj name s0 = Ok r s0 ->
  intern_loop (S j) obj name s0 = Ok r s0.
Proof.
  induction j as [|j IH]; intros obj r s0 H; [discriminate|].
  simpl in H. remember (S j) as j'. simpl. subst j'.
  rewrite bind_deref in H |- *.
  destruct (heap s0 !! obj) as [o|]; [|discriminate].
  destruct o; try exact H. rewrite bind_deref in H |- *.
  destruct (heap s0 !! car) as [c|]; [|discriminate].
  destruct c; try (now apply IH).
  destruct (String.eqb name0 name); [exact H|now apply IH].
Qed.

(** A walk through the symbol table reads public objects only. *)
Lemma intern_loop_ext G s G' s' name : forall k obj r,
  wf G s -> pub G obj -> ext G s G' s' ->
  intern_loop k obj name s = Ok r s ->
  intern_loop k obj name s' = Ok r s'.
Proof.
  intros k obj r Hwf Hobj He. revert obj r Hobj.
  induction k as [|k IH]; intros obj r Hobj H; [discriminate|].
  simpl in H |- *. rewrite bind_deref in H |- *.
  destruct (heap s !! obj) as [o|] eqn:Ho; [|discriminate].
  pose proof (wf_cells _ _ Hwf _ _ _ Hobj Ho) as Hok.
  destruct (proj2 He obj o Hobj ltac:(discriminate) Ho) as (o' & Ho' & Hf).
  rewrite Ho'.
  destruct o; simpl in Hf;
    try match type of Hf with ex _ => destruct Hf as [vars' Hf] end;
    subst o'; try (injection H as <-; reflexivity).
  destruct Hok as [Hcar Hcdr].
  rewrite bind_deref in H |- *.
  destruct (heap s !! car) as [c|] eqn:Hc; [|discriminate].
  destruct (proj2 He car c Hcar ltac:(discriminate) Hc) as (c' & Hc' & Hfc).
  rewrite Hc'.
  destruct c; simpl in Hfc;
    try match type of Hfc with ex _ => destruct Hfc as [vars' Hfc] end;
    subst c'; try (now apply IH).
  destruct (String.eqb name0 name); [|now apply IH].
  injection H as <-. reflexivity.
Qed.

Lemma setVariable_symbols k env sym val s s' :
  setVariable k env sym val s = Ok tt s' -> symbols s' = symbols s.
Proof.
  intros H. unfold setVariable in H.
  pose proof (setVariable_chain_first k env sym val s) as Hs.
  destruct (first_binding k (heap s) env sym) as [[b|]|] eqn:E.
  - rewrite (bind_Ok _ _ _ _ _ Hs) in H. now injection H as <-.
  - rewrite (bind_Ok _ _ _ _ _ Hs) in H. unfold addVariable in H.
    rewrite bind_deref in H. destruct (heap s !! env) as [o|]; [|discriminate].
    destruct o; try discriminate.
    unfold bind, acons, cons, makePair, alloc, set_vars in H. simpl in H.
    destruct (_ !! env) as [o'|] in H; [|discriminate].
    destruct o'; try discriminate. now injection H as <-.
  - apply bind_Ok_inv in H as (d & s1 & Hd & _).
    now apply setVariable_chain_None in Hd.
Qed.

(** X20.  [primReaderDebug] is a switch: in a well-formed state, the
    answer of [readerDebugEnabled] after the call is the opposite of its
    answer before. *)
Theorem primReaderDebug_toggles G k env s b s1 r s2 :
  wf G s -> pub G env ->
  readerDebugEnabled k env s = Ok b s1 ->
  primReaderDebug k env s1 = Ok r s2 ->
  r = nil /\ readerDebugEnabled (S (S k)) env s2 = Ok (negb b) s2.
Proof.
  intros Hwf Henv Hb Hp. unfold readerDebugEnabled in Hb.
  apply bind_Ok_inv in Hb as (sym & s0 & Hi & Hb).
  apply bind_Ok_inv in Hb as (was & s0' & Hf & Hb).
  assert (s0' = s0) as ->.
  { exact (read_only_Ok _ _ _ _ (find_read_only _ _ _) Hf). }
  injection Hb as <- <-.
  destruct (sound_intern [] k "reader-debug" G s sym s0 Hwf ltac:(constructor) Hi)
    as (G0 & Hwf0 & He0 & Hps).
  assert (Hpsym : pub G0 sym) by (inversion Hps; auto).
  assert (Henv0 : pub G0 env) by (eapply ext_pub; eauto).
  (* interning again finds the same symbol *)
  assert (Hl : intern_loop k (symbols s0) "reader-debug" s0 = Ok (Some sym) s0).
  { destruct (intern_Ok_inv _ _ _ _ _ Hi) as [[-> Hl]|(-> & -> & _)]; [exact Hl|].
    destruct k as [|k]; [discriminate|]. simpl. rewrite bind_deref. simpl heap.
    rewrite lookup_app_r by lia.
    replace (S (length (heap s)) - length (heap s)) with 1 by lia. simpl.
    rewrite bind_deref. simpl heap. rewrite lookup_app_r by lia.
    rewrite Nat.sub_diag. reflexivity. }
  unfold primReaderDebug in Hp.
  rewrite (bind_Ok _ _ _ _ _ (intern_found _ _ _ _ Hl)) in Hp.
  rewrite (bind_Ok _ _ _ _ _ Hf) in Hp.
  apply bind_Ok_inv in Hp as ([] & s2' & Hset & Hp). injection Hp as <- ->.
  split; [reflexivity|].
  set (v := match was with
            | Some d => if same d trueSym then nil else trueSym
            | None => trueSym
            end).
  assert (Hset' : setVariable k env sym v s0 = Ok tt s2).
  { unfold v. destruct was as [d|]; [destruct (same d trueSym)|]; exact Hset. }
  destruct (sound_setVariable [env; sym; v] k env sym v ltac:(solve_known)
              ltac:(solve_known) ltac:(solve_known) G0 s0 tt s2 Hwf0)
    as (G2 & Hwf2 & He2 & _); [|exact Hset'|].
  { repeat constructor; auto. unfold v.
    destruct was as [d|]; [destruct (same d trueSym)|];
      first [apply (wf_nil _ _ Hwf0)|apply (wf_true _ _ Hwf0)]. }
  unfold readerDebugEnabled.
  assert (Hi2 : intern (S (S k)) "reader-debug" s2 = Ok sym s2).
  { apply intern_found. rewrite (setVariable_symbols _ _ _ _ _ _ Hset').
    apply intern_loop_fuel, intern_loop_fuel.
    apply (intern_loop_ext G0 s0 G2 s2); auto. apply (wf_symbols _ _ Hwf0). }
  rewrite (bind_Ok _ _ _ _ _ Hi2).
  rewrite (bind_Ok _ _ _ _ _ (setVariable_then_find G0 k env sym v s0 s2
                                Hwf0 Henv0 Hset')).
  unfold ret. f_equal. unfold v.
  destruct was as [d|]; [destruct (same d trueSym)|]; reflexivity.
Qed.

(** ** The reader only moves forward *)

Lemma fwd_refl rd : fwd rd rd.
Proof. unfold fwd. auto. Qed.

Lemma fwd_trans rd1 rd2 rd3 : fwd rd1 rd2 -> fwd rd2 rd3 -> fwd rd1 rd3.
Proof.
  unfold fwd. intros (E1 & L1 & B1) (E2 & L2 & B2). rewrite E1 in *.
  repeat split; [congruence|lia|]. intros H. apply B2. now apply B1.
Qed.

Lemma advance_fwd rd : fwd rd (snd (advance rd)).
Proof.
  unfold advance, fwd. destruct (Nat.ltb_spec (pos rd) (String.length (source rd)));
    simpl; repeat split; auto; lia.
Qed.

Lemma advance_pos rd :
  atEof rd = false -> pos (snd (advance rd)) = S (pos rd).
Proof.
  unfold atEof, advance. intros H. apply Nat.leb_gt in H.
  destruct (Nat.ltb_spec (pos rd) (String.length (source rd))); [reflexivity|lia].
Qed.

Lemma peek_atEof rd c : peek rd 0 = Some c -> atEof rd = false.
Proof.
  unfold peek, atEof. rewrite Nat.add_0_r. intros H. apply get_Some_lt in H.
  apply Nat.leb_gt. lia.
Qed.

Lemma skipWhitespace_loop_fwd : forall n rd, fwd rd (skipWhitespace_loop n rd).
Proof.
  induction n as [|n IH]; intros rd; simpl; [apply fwd_refl|].
  destruct (_ || _); [|apply fwd_refl].
  eapply fwd_trans; [apply advance_fwd|apply IH].
Qed.

Lemma skipWhitespace_fwd rd : fwd rd (skipWhitespace rd).
Proof. apply skipWhitespace_loop_fwd. Qed.

Lemma skipLine_loop_fwd : forall n rd, fwd rd (skipLine_loop n rd).
Proof.
  induction n as [|n IH]; intros rd; simpl; [apply fwd_refl|].
  destruct (_ && _); [|apply fwd_refl].
  eapply fwd_trans; [apply advance_fwd|apply IH].
Qed.

Lemma skipComments_loop_fwd : forall n rd, fwd rd (skipComments_loop n rd).
Proof.
  induction n as [|n IH]; intros rd; simpl; [apply fwd_refl|].
  destruct (_ && _); [|apply fwd_refl].
  eapply fwd_trans; [|apply IH].
  eapply fwd_trans; [apply skipLine_loop_fwd|apply skipWhitespace_fwd].
Qed.

Lemma skipComments_fwd rd : fwd rd (skipComments rd).
Proof. apply skipComments_loop_fwd. Qed.

Lemma scan_while_fwd p : forall n rd, fwd rd (scan_while p n rd).
Proof.
  induction n as [|n IH]; intros rd; simpl; [apply fwd_refl|].
  destruct (peek rd 0); [|apply fwd_refl].
  destruct (_ && _); [|apply fwd_refl].
  eapply fwd_trans; [apply advance_fwd|apply IH].
Qed.

Lemma scan_while_first p n rd c :
  peek rd 0 = Some c -> p c = true ->
  pos rd < pos (scan_while p (S n) rd).
Proof.
  intros Hc Hp. simpl. rewrite Hc, (peek_atEof rd c Hc), Hp. simpl.
  pose proof (scan_while_fwd p n (snd (advance rd))) as (_ & Hle & _).
  rewrite (advance_pos rd (peek_atEof rd c Hc)) in Hle. lia.
Qed.

Lemma consume_inv rd c s rd' s' :
  consume rd c s = Ok rd' s' -> s' = s /\ fwd rd rd' /\ pos rd < pos rd'.
Proof.
  unfold consume, peek_is. intros H.
  destruct (peek rd 0) as [c'|] eqn:Hc; [|discriminate].
  destruct (Ascii.eqb c' c); [|discriminate]. injection H as <- <-.
  split; [reflexivity|]. split; [apply advance_fwd|].
  rewrite (advance_pos rd (peek_atEof rd c' Hc)). lia.
Qed.

Lemma remaining_pos rd : atEof rd = false -> exists n, remaining rd = S n.
Proof.
  unfold atEof, remaining. intros H. apply Nat.leb_gt in H.
  exists (String.length (source rd) - pos rd - 1). lia.
Qed.

Section ReaderForward.
Variable k : nat.
Variable readNext : Reader -> M (option ref * Reader).
Hypothesis readNext_fwd : forall rd s r rd' s',
  readNext rd s = Ok (r, rd') s' -> fwd rd rd'.

Lemma readQuote_fwd rd s r rd' s' :
  readQuote k readNext rd s = Ok (r, rd') s' -> fwd rd rd'.
Proof.
  unfold readQuote. intros H.
  apply bind_Ok_inv in H as ([obj rd1] & s1 & Hn & H).
  destruct obj as [obj|]; [|discriminate].
  apply bind_Ok_inv in H as (q & s2 & _ & H).
  apply bind_Ok_inv in H as (l & s3 & _ & H).
  apply bind_Ok_inv in H as (p & s4 & _ & H).
  injection H as _ <- _. eapply readNext_fwd; eauto.
Qed.

Lemma readUnquote_fwd rd s r rd' s' :
  readUnquote k readNext rd s = Ok (r, rd') s' -> fwd rd rd'.
Proof.
  unfold readUnquote. intros H.
  apply bind_Ok_inv in H as ([obj rd1] & s1 & Hn & H).
  destruct obj as [obj|]; [|discriminate].
  apply bind_Ok_inv in H as (q & s2 & _ & H).
  apply bind_Ok_inv in H as (l & s3 & _ & H).
  apply bind_Ok_inv in H as (p & s4 & _ & H).
  injection H as _ <- _. eapply readNext_fwd; eauto.
Qed.

Lemma readList_loop_fwd delim : forall j tail rd s rd' s',
  readList_loop readNext j delim tail rd s = Ok rd' s' -> fwd rd rd'.
Proof.
  induction j as [|j IH]; intros tail rd s rd' s' H; [discriminate|].
  simpl in H.
  pose proof (skipWhitespace_fwd rd) as Hw.
  destruct (peek_is (skipWhitespace rd) 0 delim).
  { injection H as <- _. exact Hw. }
  apply bind_Ok_inv in H as ([dotted rd2] & s1 & Hd & H).
  assert (Hrd2 : fwd rd rd2).
  { destruct (peek_is (skipWhitespace rd) 0 ".").
    - apply bind_Ok_inv in Hd as (r0 & s0 & Hc & Hd). injection Hd as _ <- _.
      destruct (consume_inv _ _ _ _ _ Hc) as (_ & Hf & _).
      eapply fwd_trans; [exact Hw|].
      eapply fwd_trans; [exact Hf|apply skipWhitespace_fwd].
    - injection Hd as _ <- _. exact Hw. }
  apply bind_Ok_inv in H as ([item rd3] & s2 & Hn & H).
  pose proof (readNext_fwd _ _ _ _ _ Hn) as Hf3.
  destruct item as [item|]; [|discriminate].
  destruct dotted.
  - apply bind_Ok_inv in H as (u & s3 & _ & H). injection H as <- _.
    eapply fwd_trans; eauto.
  - apply bind_Ok_inv in H as (c & s3 & _ & H).
    apply bind_Ok_inv in H as (u & s4 & _ & H).
    apply IH in H. eapply fwd_trans; [exact Hrd2|].
    eapply fwd_trans; eauto.
Qed.

Lemma readList_fwd delim rd s l rd' s' :
  readList k readNext delim rd s = Ok (l, rd') s' -> fwd rd rd'.
Proof.
  unfold readList. intros H. destruct (peek_is rd 0 delim).
  { injection H as _ <- _. apply fwd_refl. }
  apply bind_Ok_inv in H as ([obj rd1] & s1 & Hn & H).
  destruct obj as [obj|]; [|discriminate].
  apply bind_Ok_inv in H as (head & s2 & _ & H).
  apply bind_Ok_inv in H as (rd2 & s3 & Hl & H). injection H as _ <- _.
  eapply fwd_trans; [eapply readNext_fwd; eauto|].
  eapply readList_loop_fwd; eauto.
Qed.

Lemma readNext_step_fwd rd s r rd' s' :
  readNext_step k readNext rd s = Ok (r, rd') s' ->
  fwd rd rd' /\ (r <> None -> pos rd < pos rd').
Proof.
  unfold readNext_step. intros H.
  set (rd1 := skipComments (skipWhitespace rd)) in *.
  assert (H1 : fwd rd rd1)
    by (eapply fwd_trans; [apply skipWhitespace_fwd|apply skipComments_fwd]).
  assert (Hstrict : forall rd2, fwd rd1 rd2 -> pos rd1 < pos rd2 ->
            fwd rd rd2 /\ (r <> None -> pos rd < pos rd2)).
  { intros rd2 Hf Hlt. split; [eapply fwd_trans; eauto|].
    intros _. destruct H1 as (_ & Hle & _). lia. }
  destruct (atEof rd1) eqn:Heof.
  { injection H as <- <- _. split; [exact H1|]. intros []. reflexivity. }
  destruct (peek rd1 0) as [c|] eqn:Hc; [|discriminate].
  pose proof (advance_fwd rd1) as Ha.
  pose proof (advance_pos rd1 Heof) as Hap.
  destruct (is_digit c) eqn:Hdig.
  { apply bind_Ok_inv in H as ([n rd2] & s1 & Hn & H). injection H as _ <- _.
    unfold readNumber in Hn. cbv zeta in Hn.
    apply bind_Ok_inv in Hn as (m & s2 & _ & Hn). injection Hn as _ <- _.
    simpl snd. destruct (remaining_pos rd1 Heof) as [n0 ->].
    apply Hstrict; [apply scan_while_fwd|eapply scan_while_first; eauto]. }
  destruct (Ascii.eqb c "(").
  { apply bind_Ok_inv in H as ([list rdA] & s1 & Hl & H).
    apply bind_Ok_inv in H as (rdB & s2 & Hcons & H). injection H as _ <- _.
    apply readList_fwd in Hl.
    destruct (consume_inv _ _ _ _ _ Hcons) as (_ & Hf & Hlt).
    apply Hstrict.
    - eapply fwd_trans; [exact Ha|]. eapply fwd_trans; eauto.
    - destruct Hl as (_ & Hle & _). lia. }
  destruct (Ascii.eqb c "[").
  { apply bind_Ok_inv in H as ([list rdA] & s1 & Hl & H).
    apply bind_Ok_inv in H as (l & s2 & _ & H).
    apply bind_Ok_inv in H as (res & s3 & _ & H).
    apply bind_Ok_inv in H as (rdB & s4 & Hcons & H). injection H as _ <- _.
    apply readList_fwd in Hl.
    destruct (consume_inv _ _ _ _ _ Hcons) as (_ & Hf & Hlt).
    apply Hstrict.
    - eapply fwd_trans; [exact Ha|]. eapply fwd_trans; eauto.
    - destruct Hl as (_ & Hle & _). lia. }
  destruct (Ascii.eqb c "'").
  { apply bind_Ok_inv in H as ([q rdA] & s1 & Hq & H). injection H as _ <- _.
    apply readQuote_fwd in Hq. simpl snd. apply Hstrict.
    - eapply fwd_trans; eauto.
    - destruct Hq as (_ & Hle & _). lia. }
  destruct (Ascii.eqb c ",").
  { apply bind_Ok_inv in H as ([q rdA] & s1 & Hq & H). injection H as _ <- _.
    apply readUnquote_fwd in Hq. simpl snd. apply Hstrict.
    - eapply fwd_trans; eauto.
    - destruct Hq as (_ & Hle & _). lia. }
  destruct (Ascii.eqb c ch_dquote).
  { apply bind_Ok_inv in H as ([str rdA] & s1 & Hs & H). injection H as _ <- _.
    unfold readString in Hs. cbv zeta in Hs.
    apply bind_Ok_inv in Hs as (rdB & s2 & Hcons & Hs).
    apply bind_Ok_inv in Hs as (m & s3 & _ & Hs). injection Hs as _ <- _.
    destruct (consume_inv _ _ _ _ _ Hcons) as (_ & Hf & Hlt).
    pose proof (scan_while_fwd (fun c0 => negb (Ascii.eqb c0 ch_dquote))
                  (remaining (snd (advance rd1))) (snd (advance rd1))) as Hsc.
    simpl snd. apply Hstrict.
    - eapply fwd_trans; [exact Ha|]. eapply fwd_trans; eauto.
    - destruct Hsc as (_ & Hle & _). lia. }
  destruct (Ascii.eqb c "#").
  { apply bind_Ok_inv in H as (rdA & s1 & Hc1 & H).
    apply bind_Ok_inv in H as (rdB & s2 & Hc2 & H).
    apply bind_Ok_inv in H as ([dropped rdC] & s3 & Hn1 & H).
    destruct (consume_inv _ _ _ _ _ Hc1) as (_ & Hf1 & Hlt1).
    destruct (consume_inv _ _ _ _ _ Hc2) as (_ & Hf2 & Hlt2).
    apply readNext_fwd in Hn1. apply readNext_fwd in H.
    apply Hstrict.
    - eapply fwd_trans; [exact Hf1|]. eapply fwd_trans; [exact Hf2|].
      eapply fwd_trans; eauto.
    - destruct Hn1 as (_ & Hle1 & _). destruct H as (_ & Hle2 & _). lia. }
  apply bind_Ok_inv in H as ([sym rdA] & s1 & Hs & H). injection H as _ <- _.
  unfold readSymbol in Hs. cbv zeta in Hs.
  destruct (Nat.eqb_spec (pos rd1)
              (pos (scan_while is_symbol_char (remaining rd1) rd1))) as [|Hne];
    [discriminate|].
  apply bind_Ok_inv in Hs as (m & s2 & _ & Hs). injection Hs as _ <- _.
  pose proof (scan_while_fwd is_symbol_char (remaining rd1) rd1) as Hsc.
  simpl snd. apply Hstrict; [exact Hsc|]. destruct Hsc as (_ & Hle & _). lia.
Qed.
End ReaderForward.

(** X21.  A successful read leaves the reader over the same text, never
    before the position it started from and never beyond the end of the
    text; and when it returns an object it has consumed at least one
    character, so a loop that reads forms until none is left comes to an
    end. *)
Theorem readNext_progress k : forall rd s r rd' s',
  readNext k rd s = Ok (r, rd') s' ->
  fwd rd rd' /\ (r <> None -> pos rd < pos rd').
Proof.
  induction k as [|k IH]; intros rd s r rd' s' H; [discriminate|].
  simpl in H. apply (readNext_step_fwd k (readNext k)) in H; [exact H|].
  intros rd0 s0 r0 rd0' s0' H0. now apply IH in H0.
Qed.

(** ** Named functions and macros *)

(** X22.  [(defn name params body...)] builds the Function that [fn]
    builds from [(params body...)], binds [name] to it in the environment of
    the call and returns it; [(defmacro name params body...)] does the same
    with a Macro object.  In both cases a lookup of [name] from that
    environment then finds the new object. *)
Theorem definers_spec k j env args s vars up name sym rest params body form forms ps tp :
  heap s !! env = Some (ObjEnv vars up) ->
  heap s !! args = Some (ObjPair sym rest) ->
  heap s !! sym = Some (ObjSymbol name) ->
  heap s !! rest = Some (ObjPair params body) ->
  proper_list (heap s) body (form :: forms) -> S (S (S (length forms))) < k ->
  list_view (heap s) params ps tp -> length ps < k ->
  Forall (fun x => exists n, heap s !! x = Some (ObjSymbol n)) ps ->
  let made ty := State (heap s ++ [ObjFn ty params body env]) (symbols s) in
  let fn := length (heap s) in
  (primDefn k env args s = Ok fn (bound env sym fn (made IsFn) vars up)
   /\ find (S (S j)) env sym (bound env sym fn (made IsFn) vars up)
      = Ok (Some fn) (bound env sym fn (made IsFn) vars up))
  /\ (primDefmacro k env args s = Ok fn (bound env sym fn (made IsMacro) vars up)
      /\ find (S (S j)) env sym (bound env sym fn (made IsMacro) vars up)
         = Ok (Some fn) (bound env sym fn (made IsMacro) vars up)).
Proof.
  intros He Hargs Hsym Hrest Hbody Hk Hp Hkp Hall made fn.
  assert (Hve : forall ty, heap (made ty) !! env = Some (ObjEnv vars up))
    by (intros ty; simpl; now apply lookup_app_l_Some).
  assert (Hvrest : list_view (heap s) rest (params :: form :: forms) nil)
    by (econstructor; eauto).
  assert (Hvargs : list_view (heap s) args (sym :: params :: form :: forms) nil)
    by (econstructor; eauto).
  assert (Hchk : check_params k params s = Ok tt s)
    by (exact (check_params_loop s ps k params tp 0 Hp Hkp Hall)).
  pose proof Hbody as Hb'. apply list_view_inv in Hb' as (r' & Hob & _).
  split; split; try (now apply find_bound).
  - unfold primDefn.
    rewrite (bind_Ok _ _ _ _ _
               (checkArity_ok s k args _ nil 3 (-1) Hvargs ltac:(simpl; lia)
                  ltac:(right; rewrite list_length_nil; simpl length; lia)
                  ltac:(now left))).
    rewrite bind_deref, Hargs, bind_deref, Hsym, bind_deref, Hrest.
    assert (Hfn : primFn k env rest s = Ok fn (made IsFn)).
    { unfold primFn.
      rewrite (bind_Ok _ _ _ _ _
                 (checkArity_ok s k rest _ nil 2 (-1) Hvrest ltac:(simpl; lia)
                    ltac:(right; rewrite list_length_nil; simpl length; lia)
                    ltac:(now left))).
      rewrite bind_deref, Hrest. unfold isList at 1.
      unfold bind at 1. rewrite bind_deref, Hrest. unfold ret at 1.
      rewrite bind_deref, Hob. simpl. rewrite orb_true_r.
      now rewrite (bind_Ok _ _ _ _ _ Hchk). }
    rewrite (bind_Ok _ _ _ _ _ Hfn).
    now rewrite (bind_Ok _ _ _ _ _
                   (addVariable_Ok env sym fn (made IsFn) vars up (Hve IsFn))).
  - unfold primDefmacro.
    rewrite bind_deref, Hargs, bind_deref, Hsym, bind_deref, Hrest.
    rewrite (bind_Ok _ _ _ _ _ Hchk).
    unfold makeFn at 1. unfold bind at 1. unfold alloc at 1.
    now rewrite (bind_Ok _ _ _ _ _
                   (addVariable_Ok env sym fn (made IsMacro) vars up (Hve IsMacro))).
Qed.

(** ** [equal] is transitive *)

Lemma equal_pair_inv k a b s ac ad bc bd :
  heap s !! a = Some (ObjPair ac ad) -> heap s !! b = Some (ObjPair bc bd) ->
  a <> b -> equal (S k) a b s = Ok true s ->
  exists n, listLen k a s = Ok n s /\ listLen k b s = Ok n s
            /\ equal k ac bc s = Ok true s /\ equal k ad bd s = Ok true s.
Proof.
  intros Ha Hb Hne H. simpl in H. rewrite bind_deref, Ha, bind_deref, Hb in H.
  simpl in H. rewrite (proj2 (same_false a b) Hne) in H.
  apply bind_Ok_inv in H as (la & s1 & Hla & H).
  pose proof (read_only_Ok _ _ _ _ (listLen_read_only _ _) Hla) as ->.
  apply bind_Ok_inv in H as (lb & s1 & Hlb & H).
  pose proof (read_only_Ok _ _ _ _ (listLen_read_only _ _) Hlb) as ->.
  destruct (la =? lb) eqn:El; simpl in H; [|discriminate].
  apply Nat.eqb_eq in El. subst lb.
  apply bind_Ok_inv in H as (e & s1 & He & H).
  pose proof (read_only_Ok _ _ _ _ (equal_read_only _ _ _) He) as ->.
  destruct e; simpl in H; [|discriminate]. eauto 6.
Qed.

Lemma equal_pair_intro k a b s ac ad bc bd n :
  heap s !! a = Some (ObjPair ac ad) -> heap s !! b = Some (ObjPair bc bd) ->
  listLen k a s = Ok n s -> listLen k b s = Ok n s ->
  equal k ac bc s = Ok true s -> equal k ad bd s = Ok true s ->
  equal (S k) a b s = Ok true s.
Proof.
  intros Ha Hb Hla Hlb Hc Hd. simpl. rewrite bind_deref, Ha, bind_deref, Hb.
  simpl. destruct (same a b); [reflexivity|].
  rewrite (bind_Ok _ _ _ _ _ Hla), (bind_Ok _ _ _ _ _ Hlb).
  rewrite Nat.eqb_refl. simpl. now rewrite (bind_Ok _ _ _ _ _ Hc).
Qed.

(** X23.  [equal] is transitive: together with reflexivity and symmetry
    it is an equivalence on the objects of a heap. *)
Theorem equal_trans k : forall a b c s,
  equal k a b s = Ok true s -> equal k b c s = Ok true s ->
  equal k a c s = Ok true s.
Proof.
  induction k as [|k IH]; intros a b c s H1 H2; [discriminate|].
  destruct (decide (a = b)) as [->|Hab]; [exact H2|].
  destruct (decide (b = c)) as [<-|Hbc]; [exact H1|].
  pose proof H1 as H1'. pose proof H2 as H2'.
  simpl in H1', H2'. rewrite bind_deref in H1', H2'.
  destruct (heap s !! a) as [oa|] eqn:Ha; [|discriminate].
  destruct (heap s !! b) as [ob|] eqn:Hb; [|discriminate].
  rewrite bind_deref, Hb in H1'. rewrite bind_deref in H2'.
  destruct (heap s !! c) as [oc|] eqn:Hc; [|discriminate].
  rewrite (proj2 (same_false a b) Hab) in H1'.
  rewrite (proj2 (same_false b c) Hbc) in H2'.
  destruct (decide (a = c)) as [<-|Hac]; [now apply (equal_refl k s a oa)|].
  destruct oa, ob; try (destruct type, type0); simpl in H1'; try discriminate;
    destruct oc; try (destruct type); simpl in H2'; try discriminate.
  - (* Pair *)
    destruct (equal_pair_inv k a b s _ _ _ _ Ha Hb Hab H1)
      as (n & Hla & Hlb & Hc1 & Hd1).
    destruct (equal_pair_inv k b c s _ _ _ _ Hb Hc Hbc H2)
      as (n' & Hlb' & Hlc & Hc2 & Hd2).
    rewrite Hlb in Hlb'. injection Hlb' as <-.
    eapply equal_pair_intro; eauto.
  - (* Num *)
    injection H1' as E1. injection H2' as E2.
    apply Z.eqb_eq in E1, E2. subst. simpl.
    rewrite bind_deref, Ha, bind_deref, Hc. simpl.
    rewrite (proj2 (same_false a c) Hac). now rewrite Z.eqb_refl.
  - (* String *)
    injection H1' as E1. injection H2' as E2.
    apply String.eqb_eq in E1, E2. subst. simpl.
    rewrite bind_deref, Ha, bind_deref, Hc. simpl.
    rewrite (proj2 (same_false a c) Hac). now rewrite String.eqb_refl.
Qed.

(** ** Symbols in the text *)

Lemma symbol_char_dispatch c :
  is_symbol_char c = true ->
  is_digit c = false
  /\ Ascii.eqb c " " = false /\ Ascii.eqb c ch_newline = false
  /\ Ascii.eqb c ch_tab = false /\ Ascii.eqb c "#" = false
  /\ Ascii.eqb c "(" = false /\ Ascii.eqb c "[" = false
  /\ Ascii.eqb c "'" = false /\ Ascii.eqb c "," = false
  /\ Ascii.eqb c ch_dquote = false.
Proof.
  destruct c as [[] [] [] [] [] [] [] []]; intros H;
    solve [discriminate H | repeat split; reflexivity].
Qed.

Lemma readNext_symbol_char k c r s :
  is_symbol_char c = true ->
  readNext (S k) (mkReader (String c r) 0) s
  = (let* x := readSymbol k (mkReader (String c r) 0) in ret (some_obj x)) s.
Proof.
  intros Hc.
  destruct (symbol_char_dispatch c Hc)
    as (Hd & H1 & H2 & H3 & H4 & H5 & H6 & H7 & H8 & H9).
  cbn [readNext]. unfold readNext_step.
  rewrite (skip_nothing c r) by assumption.
  unfold atEof, peek.
  cbn [source pos String.length String.get Nat.add Nat.leb].
  now rewrite Hd, H5, H6, H7, H8, H9, H4.
Qed.

Lemma intern_symbol k name s u s1 :
  intern k name s = Ok u s1 -> heap s1 !! u = Some (ObjSymbol name).
Proof.
  intros H.
  destruct (intern_Ok_inv _ _ _ _ _ H) as [[-> Hl]|(-> & -> & _)].
  - now apply intern_loop_Some in Hl.
  - simpl. rewrite lookup_app_r by lia. now rewrite Nat.sub_diag.
Qed.

(** X24.  A symbol in the text is a maximal run of the characters
    [a-z - + = / * ! ?]; reading it returns the object [intern] returns for
    that name -- the one symbol of that name, not a copy -- and leaves the
    reader right after the run; printing the object gives the name back. *)
Theorem read_symbol_interned k d c r rest s u s1 :
  all_chars is_symbol_char (String c r) = true ->
  stops is_symbol_char rest = true ->
  intern k (String c r) s = Ok u s1 ->
  readNext (S k) (mkReader (String c r +:+ rest) 0) s
  = Ok (Some u, mkReader (String c r +:+ rest) (String.length (String c r))) s1
  /\ fmt (S d) u s1 = Ok (String c r) s1.
Proof.
  intros Hall Hrest Hi. split.
  - assert (Hc : is_symbol_char c = true).
    { simpl in Hall. now apply andb_true_iff in Hall. }
    rewrite append_cons, (readNext_symbol_char k c (r +:+ rest) s Hc).
    rewrite <- append_cons. unfold readSymbol. cbv zeta.
    pose proof (scan_while_run is_symbol_char (String c r) "" rest
                  (remaining (mkReader (String c r +:+ rest) 0)) Hall Hrest)
      as Hscan.
    change ("" +:+ String c r +:+ rest) with (String c r +:+ rest) in Hscan.
    change (String.length "") with 0 in Hscan.
    rewrite Nat.add_0_l in Hscan.
    rewrite Hscan by (unfold remaining; cbn [source pos];
                      rewrite length_append; lia).
    cbn [pos source]. change (0 =? String.length (String c r)) with false.
    cbv iota. unfold slice.
    pose proof (substring_append "" (String c r) rest) as Hsub.
    change ("" +:+ String c r +:+ rest) with (String c r +:+ rest) in Hsub.
    change (String.length "") with 0 in Hsub.
    rewrite Nat.sub_0_r, Hsub.
    unfold bind at 1 2. now rewrite Hi.
  - simpl. now rewrite bind_deref, (intern_symbol _ _ _ _ _ Hi).
Qed.

(** * The theorems at concrete inputs *)

Ltac view := repeat (econstructor; try reflexivity).


Lemma setVariable_spec_witness :
  (exists old,
      heap demo_state !! 20 = Some (ObjPair 4 old)
      /\ find 10 23 4 demo_state = Ok (Some old) demo_state
      /\ setVariable 10 23 4 9 demo_state
         = Ok tt (State (<[20 := ObjPair 4 9]> (heap demo_state))
                        (symbols demo_state))
      /\ (forall a, a <> 20 ->
            <[20 := ObjPair 4 9]> (heap demo_state) !! a
            = heap demo_state !! a))
  /\ setVariable 10 23 6 9 demo_state = addVariable 23 6 9 demo_state.
Proof.
  split.
  - exact (proj1 (setVariable_spec 10 23 4 9 demo_state) 20 eq_refl).
  - exact (proj1 (proj2 (proj2 (setVariable_spec 10 23 6 9 demo_state) eq_refl))).
Defined.


Lemma pushEnv_duplicate_params_witness :
  exists e newVars s',
    pushEnv 10 23 17 14 demo_state = Ok e s'
    /\ heap s' !! e = Some (ObjEnv newVars 23)
    /\ alist_view (heap s') newVars (rev (zip [4; 4] [8; 9])) nil
    /\ find 10 e 4 s' = Ok (Some 9) s'.
Proof.
  apply (pushEnv_duplicate_params 10 23 17 14 demo_state [4] [] [8] [] 4 9).
  - view.
  - view.
  - reflexivity.
  - reflexivity.
  - apply not_elem_of_nil.
  - simpl. lia.
Defined.

Lemma primIf_spec_witness :
  primIf 10 (evaluate (prelude_only "") 10) 42 43 demo_state3 = Ok 9 demo_state3
  /\ primIf 10 (evaluate (prelude_only "") 10) 42 44 demo_state3
     = Ok 24 demo_state3.
Proof.
  split.
  - rewrite (proj1 primIf_spec (prelude_only "") 10 42 43 demo_kinds3 demo_state3
               6 9 [24] trueSym demo_state3
               ltac:(apply wfb_sound; vm_compute; reflexivity) eq_refl eq_refl
               ltac:(view) ltac:(simpl; lia) ltac:(simpl; lia) eq_refl).
    reflexivity.
  - rewrite (proj1 primIf_spec (prelude_only "") 10 42 44 demo_kinds3 demo_state3
               4 9 [24] 8 demo_state3
               ltac:(apply wfb_sound; vm_compute; reflexivity) eq_refl eq_refl
               ltac:(view) ltac:(simpl; lia) ltac:(simpl; lia) eq_refl).
    reflexivity.
Defined.

Lemma macroExpand_spec_witness :
  macroExpand 10 (evaluate (prelude_only "") 10) 32 33 demo_state
  = Ok 24 (State (heap demo_state ++ [ObjPair 4 9; ObjPair 35 1; ObjEnv 36 32]) 7)
  /\ primMacex 10 (evaluate (prelude_only "") 10) 32 34 demo_state
     = macroExpand 10 (evaluate (prelude_only "") 10) 32 33 demo_state.
Proof.
  destruct macroExpand_spec as (_ & Hrun & Hmacex & _). split.
  - apply (Hrun (prelude_only "") 10 32 33 demo_kinds demo_state 28 13 "m" 29
             16 25 22 37
             (State (heap demo_state ++ [ObjPair 4 9; ObjPair 35 1; ObjEnv 36 32]) 7)
             [24] [24]).
    + apply wfb_sound. vm_compute. reflexivity.
    + reflexivity.
    + reflexivity.
    + reflexivity.
    + reflexivity.
    + reflexivity.
    + reflexivity.
    + reflexivity.
    + view.
    + simpl. lia.
    + eapply runs_cons; [vm_compute; reflexivity|]. apply runs_nil.
  - apply Hmacex; [view|lia].
Defined.

Lemma block_comment_spec_witness :
  readNext 6 (mkReader "#- 2 3" 0) initial_state
  = match readNext 5 (mkReader "#- 2 3" 2) initial_state with
    | Ok (_, rd3) s1 => readNext 5 rd3 s1
    | Throw msg s1 => Throw msg s1
    | OutOfModel => OutOfModel
    | OutOfFuel => OutOfFuel
    end.
Proof.
  exact (proj1 block_comment_spec 5 (mkReader "#- 2 3" 0) initial_state
           eq_refl eq_refl eq_refl).
Defined.

Lemma primEqual_generations_differ_witness :
  primEqual 10 (evaluate (prelude_only "") 10) 42 37 demo_state3
  = Ok trueSym demo_state3
  /\ primEqual 10 (evaluate (prelude_only "") 10) 42 45 demo_state3
     = Ok nil demo_state3
  /\ primEqual_superseded 10 42 37 demo_state3 = Ok nil demo_state3.
Proof.
  destruct primEqual_generations_differ as (Hold & _ & Hnew & _).
  split; [|split].
  - apply (Hnew (prelude_only "") 10 42 37 demo_kinds3 demo_state3 4 10
             8 demo_state3 10 demo_state3 true).
    + apply wfb_sound. vm_compute. reflexivity.
    + reflexivity.
    + reflexivity.
    + view.
    + lia.
    + reflexivity.
    + reflexivity.
    + reflexivity.
  - apply (Hnew (prelude_only "") 10 42 45 demo_kinds3 demo_state3 4 9
             8 demo_state3 9 demo_state3 false).
    + apply wfb_sound. vm_compute. reflexivity.
    + reflexivity.
    + reflexivity.
    + view.
    + lia.
    + reflexivity.
    + reflexivity.
    + reflexivity.
  - apply (Hold 10 42 37 demo_state3 [4; 10]).
    + view.
    + simpl. lia.
Defined.

Lemma evaluateList_spec_witness :
  exists r cells,
    evaluateList 5 (evaluate (prelude_only "") 5) 23 17 demo_state
    = Ok r (State (heap demo_state ++ [ObjPair 8 36; ObjPair 8 nil]) 7)
    /\ cells_view (heap demo_state ++ [ObjPair 8 36; ObjPair 8 nil]) r cells [8; 8] nil
    /\ proper_list (heap demo_state ++ [ObjPair 8 36; ObjPair 8 nil]) r [8; 8]
    /\ length [8; 8] = length [4; 4]
    /\ Forall (fun c => length (heap demo_state) <= c) cells
    /\ Forall (fun p => (heap demo_state ++ [ObjPair 8 36; ObjPair 8 nil]) !! p
                        = heap demo_state !! p) [17; 16]
    /\ proper_list (heap demo_state ++ [ObjPair 8 36; ObjPair 8 nil]) 17 [4; 4]
    /\ (forall p, p ∈ [17; 16] -> p ∉ cells).
Proof.
  apply (evaluateList_spec (prelude_only "") 5 23 17 demo_kinds demo_state
           [17; 16] [4; 4] [8; 8]
           (State (heap demo_state ++ [ObjPair 8 36; ObjPair 8 nil]) 7)).
  - apply wfb_sound. vm_compute. reflexivity.
  - reflexivity.
  - reflexivity.
  - view.
  - simpl. lia.
  - eapply collects_cons; [vm_compute; reflexivity|].
    eapply collects_cons; [vm_compute; reflexivity|].
    apply collects_nil.
Defined.

Lemma primQuote_spec_witness :
  exists r cells,
    evaluateUnquotes 5 (evaluate (prelude_only "") 5) 2 23 15 demo_state
    = Ok r (State (heap demo_state
                     ++ [ObjSymbol "unquote"; ObjPair 35 7; ObjPair 8 nil]) 36)
    /\ cells_view (heap demo_state
                     ++ [ObjSymbol "unquote"; ObjPair 35 7; ObjPair 8 nil])
         r cells [8] nil
    /\ length [8] = 1
    /\ Forall (fun c => length (heap demo_state) <= c) cells
    /\ Forall (fun p => (heap demo_state
                           ++ [ObjSymbol "unquote"; ObjPair 35 7; ObjPair 8 nil])
                          !! p = heap demo_state !! p) [15].
Proof.
  apply (proj1 (proj2 (proj2 (proj2 primQuote_spec)))
           (prelude_only "") 5 1 23 15 demo_kinds demo_state [15] 8 [] 9 35
           (State (heap demo_state ++ [ObjSymbol "unquote"; ObjPair 35 7]) 36)
           [8]).
  - apply wfb_sound. vm_compute. reflexivity.
  - reflexivity.
  - reflexivity.
  - view.
  - reflexivity.
  - lia.
  - simpl. lia.
  - eapply collects_cons; [vm_compute; reflexivity|]. apply collects_nil.
Defined.

Lemma intern_canonical_witness :
  exists u s1,
    intern 5 "zz" demo_state = Ok u s1
    /\ heap s1 !! u = Some (ObjSymbol "zz")
    /\ intern 5 "zz" s1 = Ok u s1
    /\ heap demo_state `prefix_of` heap s1
    /\ length (heap demo_state) < length (heap s1).
Proof.
  destruct (intern_canonical 5 "zz" demo_state [6; 4; 2] 0)
    as (u & s1 & H1 & H2 & H3 & H4 & _).
  - view.
  - repeat constructor; eexists; reflexivity.
  - simpl. lia.
  - exists u, s1. repeat split; auto.
    vm_compute in H1. injection H1 as _ <-. simpl. lia.
Defined.

Lemma intern_stable_witness :
  intern 6 "a" (State (heap demo_state ++ [ObjSymbol "zz"; ObjPair 35 7]) 36)
  = Ok 4 (State (heap demo_state ++ [ObjSymbol "zz"; ObjPair 35 7]) 36).
Proof.
  apply (intern_stable 5 "a" "zz" demo_state 4 35).
  - reflexivity.
  - reflexivity.
Defined.

Lemma addVariable_find_witness :
  exists s',
    addVariable 23 6 9 demo_state = Ok tt s'
    /\ find 2 23 6 s' = Ok (Some 9) s'
    /\ (forall j c sym' r,
          sym' <> 6 -> find j c sym' demo_state = Ok r demo_state ->
          find (S j) c sym' s' = Ok r s').
Proof. apply (addVariable_find 0 23 6 9 demo_state 1 22). reflexivity. Defined.

Lemma pushEnv_find_witness :
  exists e s',
    pushEnv 10 23 12 14 demo_state = Ok e s'
    /\ find 11 e 4 s' = Ok (Some 8) s'.
Proof.
  apply (pushEnv_find 10 23 12 14 demo_state [4; 6] nil [8; 9] nil 4 (Some 8)).
  - view.
  - view.
  - simpl. lia.
  - simpl. lia.
  - reflexivity.
  - reflexivity.
  - reflexivity.
Defined.

Lemma setVariable_find_witness :
  find 12 23 4 (State (<[20 := ObjPair 4 9]> (heap demo_state)) 7)
  = Ok (Some 9) (State (<[20 := ObjPair 4 9]> (heap demo_state)) 7).
Proof.
  apply (setVariable_find demo_kinds 10 23 4 9 demo_state).
  - apply wfb_sound. vm_compute. reflexivity.
  - reflexivity.
  - reflexivity.
Defined.

Lemma checkArity_spec_witness :
  checkArity 10 14 2 2 demo_state = Ok tt demo_state
  /\ checkArity 10 14 3 (-1) demo_state = Throw "arity mismatch" demo_state.
Proof.
  split.
  - apply (proj2 (checkArity_spec demo_state 10 14 [8; 9] nil 2 2
                    ltac:(view) ltac:(simpl; lia))).
    simpl. lia.
  - apply (proj1 (checkArity_spec demo_state 10 14 [8; 9] nil 3 (-1)
                    ltac:(view) ltac:(simpl; lia))).
    simpl. lia.
Defined.

Lemma getArg_spec_witness :
  getArg 10 14 1 None demo_state = Ok 9 demo_state
  /\ getArg 10 14 5 None demo_state = Ok nil demo_state
  /\ getArg 10 14 1 (Some ObjType.String) demo_state
     = Throw "expected type string but got num" demo_state.
Proof.
  destruct (getArg_spec demo_state 10 14 1) as (_ & _ & H1).
  destruct (getArg_spec demo_state 10 14 5) as (_ & _ & H5).
  destruct (H1 8 [9] nil ltac:(view) ltac:(simpl; lia) ltac:(discriminate))
    as [Ha Hb].
  destruct (H5 8 [9] nil ltac:(view) ltac:(simpl; lia) ltac:(discriminate))
    as [Hc _].
  split; [exact Ha|]. split; [exact Hc|].
  exact (Hb ObjType.String (ObjNum 2) eq_refl).
Defined.

Lemma apply_list_index_witness :
  apply (prelude_only "") 10 (evaluate (prelude_only "") 10) 23 27 13 demo_state
  = Ok 24 demo_state.
Proof.
  apply (apply_list_index (prelude_only "") 10 23 27 13 demo_state 9 9
           demo_state 2%Z [8; 9; 24] nil 8 26).
  - reflexivity.
  - view.
  - lia.
  - reflexivity.
  - reflexivity.
  - view.
  - simpl. lia.
Defined.

Lemma primFn_spec_witness :
  primFn 10 23 35 demo_state2
  = Ok 40 (State (heap demo_state2 ++ [ObjFn IsFn 16 25 23]) 7)
  /\ primFn 10 23 13 demo_state2 = Throw "arity mismatch" demo_state2.
Proof.
  split.
  - destruct (primFn_spec 10 23 35 demo_state2 [16; 24] nil
                ltac:(view) ltac:(simpl; lia)) as [_ H].
    destruct (H 16 24 [] 25 [4] nil eq_refl eq_refl ltac:(view)
                ltac:(simpl; lia)) as [Hok _].
    apply Hok. repeat constructor. now exists "a".
  - destruct (primFn_spec 10 23 13 demo_state2 [9] nil
                ltac:(view) ltac:(simpl; lia)) as [H _].
    apply H. simpl. lia.
Defined.


Lemma primCons_spec_witness :
  exists r,
    primCons 10 (evaluate (prelude_only "") 10) 23 14 demo_state
    = Ok r (State (<[r := ObjPair 8 9]>
                     (heap demo_state ++ [ObjPair 8 36; ObjPair 9 nil])) 7)
    /\ length (heap demo_state) <= r
       < length (heap demo_state ++ [ObjPair 8 36; ObjPair 9 nil]).
Proof.
  apply (primCons_spec (prelude_only "") 10 23 14 demo_kinds demo_state
           [14; 13] 8 9 8 9
           (State (heap demo_state ++ [ObjPair 8 36; ObjPair 9 nil]) 7)).
  - apply wfb_sound. vm_compute. reflexivity.
  - reflexivity.
  - reflexivity.
  - view.
  - lia.
  - eapply collects_cons; [vm_compute; reflexivity|].
    eapply collects_cons; [vm_compute; reflexivity|].
    apply collects_nil.
Defined.

Lemma apply_closure_witness :
  apply (prelude_only "") 10 (evaluate (prelude_only "") 10) 23 36 13 demo_state2
  = Ok 24 (State (heap demo_state2
                    ++ [ObjPair 9 1; ObjPair 4 9; ObjPair 41 1; ObjEnv 42 22]) 7).
Proof.
  apply (apply_closure (prelude_only "") 10 23 36 13 demo_kinds2 demo_state2
           16 25 22 40 (State (heap demo_state2 ++ [ObjPair 9 1]) 7)
           43 (State (heap demo_state2
                        ++ [ObjPair 9 1; ObjPair 4 9; ObjPair 41 1; ObjEnv 42 22]) 7)
           [24] [24]).
  - apply wfb_sound. vm_compute. reflexivity.
  - reflexivity.
  - reflexivity.
  - reflexivity.
  - reflexivity.
  - vm_compute. reflexivity.
  - vm_compute. reflexivity.
  - view.
  - simpl. lia.
  - eapply runs_cons; [vm_compute; reflexivity|]. apply runs_nil.
Defined.

Lemma primDefine_lookup_witness :
  exists s2,
    primDefine 10 (evaluate (prelude_only "") 10) 23 37 demo_state2 = Ok 10 s2
    /\ evaluate (prelude_only "") 3 23 4 s2 = Ok 10 s2.
Proof.
  apply (primDefine_lookup (prelude_only "") 10 0 23 37 demo_kinds2 demo_state2
           1 22 4 10 "a" 10 demo_state2).
  - apply wfb_sound. vm_compute. reflexivity.
  - reflexivity.
  - reflexivity.
  - reflexivity.
  - view.
  - lia.
  - reflexivity.
  - reflexivity.
Defined.

Lemma fmt_list_spec_witness : fmt 2 27 demo_state = Ok "(1 2 3)" demo_state.
Proof.
  apply (fmt_list_spec 1 demo_state 27 [8; 9; 24] nil ["1"; "2"; "3"]).
  - view.
  - reflexivity.
  - repeat constructor.
Defined.


Lemma read_number_roundtrip_witness :
  exists txt,
    fmt 1 9 demo_state = Ok txt demo_state
    /\ readNext 1 (mkReader (txt +:+ " x") 0) demo_state
       = Ok (Some 35, mkReader (txt +:+ " x") (String.length txt))
            (State (heap demo_state ++ [ObjNum 2]) 7).
Proof.
  apply (read_number_roundtrip 0 0 9 2%Z " x" demo_state).
  - reflexivity.
  - lia.
  - reflexivity.
Defined.

Lemma read_string_literal_witness :
  readNext 1 (mkReader (quoted "hi" +:+ " x") 0) demo_state
  = Ok (Some 35, mkReader (quoted "hi" +:+ " x") 4)
       (State (heap demo_state ++ [ObjString "hi"]) 7).
Proof.
  apply (proj1 (read_string_literal 0 "hi" " x" demo_state eq_refl)).
Defined.

Lemma primReaderDebug_toggles_witness :
  exists s2,
    nil = nil /\ readerDebugEnabled 12 23 s2 = Ok (negb false) s2.
Proof.
  eexists.
  eapply (primReaderDebug_toggles demo_kinds 10 23 demo_state false _ nil _).
  - apply wfb_sound. vm_compute. reflexivity.
  - reflexivity.
  - vm_compute. reflexivity.
  - vm_compute. reflexivity.
Defined.

Lemma readNext_progress_witness :
  fwd (mkReader "(a b)" 0) (mkReader "(a b)" 5)
  /\ (Some 35 <> None -> pos (mkReader "(a b)" 0) < pos (mkReader "(a b)" 5)).
Proof.
  eapply (readNext_progress 6 _ demo_state (Some 35) _ _).
  vm_compute. reflexivity.
Defined.

Lemma definers_spec_witness :
  primDefn 10 23 38 demo_state2
  = Ok 40 (bound 23 6 40
             (State (heap demo_state2 ++ [ObjFn IsFn 16 25 23]) 7) 1 22)
  /\ find 2 23 6 (bound 23 6 40
                    (State (heap demo_state2 ++ [ObjFn IsFn 16 25 23]) 7) 1 22)
     = Ok (Some 40)
          (bound 23 6 40
             (State (heap demo_state2 ++ [ObjFn IsFn 16 25 23]) 7) 1 22).
Proof.
  apply (proj1 (definers_spec 10 0 23 38 demo_state2 1 22 "b" 6 35 16 25 24 []
                  [4] nil eq_refl eq_refl eq_refl eq_refl ltac:(view)
                  ltac:(simpl; lia) ltac:(view) ltac:(simpl; lia)
                  ltac:(repeat constructor; now exists "a"))).
Defined.

Lemma equal_trans_witness : equal 4 8 39 demo_state2 = Ok true demo_state2.
Proof.
  apply (equal_trans 4 8 10 39 demo_state2).
  - reflexivity.
  - reflexivity.
Defined.

Lemma read_symbol_interned_witness :
  readNext 6 (mkReader (String "a"%char "" +:+ " b") 0) demo_state
  = Ok (Some 4, mkReader (String "a"%char "" +:+ " b") 1) demo_state
  /\ fmt 1 4 demo_state = Ok (String "a"%char "") demo_state.
Proof.
  apply (read_symbol_interned 5 0 "a"%char "" " b" demo_state 4 demo_state).
  - reflexivity.
  - reflexivity.
  - reflexivity.
Defined.
